(** * Guardrails: content moderation and policy enforcement

    A shallow embedding of the [Guardrails] class of groq-server-sdk
    (Guardrails.js) together with the part of the JavaScript host that the
    class relies on: strings, [RegExp] objects with their mutable
    [lastIndex], [RegExp.prototype.test], [String.prototype.match],
    exceptions and [console.warn].

    Conventions.
    - A JavaScript string is a [string]; its characters stand for code
      units below 256, so [String.length] is the [length] property.
    - JavaScript numbers that hold lengths and limits are integers ([Z]).
    - [RegExp] objects live in a heap and are referred to by location, so
      that a [lastIndex] written by one call is seen by the next one and by
      every list that holds the same object.
    - A computation that can throw returns a [Completion]; the state (heap
      and console) is threaded explicitly. *)

From Stdlib Require Import ZArith Ascii String List Bool Lia DecimalString.
From stdpp Require Import base tactics decidable option list functions strings.
Import ListNotations.

Local Open Scope Z_scope.
Local Open Scope string_scope.
Local Open Scope list_scope.
Local Open Scope nat_scope.

(** ** Host strings *)

Module JSString.

Definition code (c : ascii) : nat := nat_of_ascii c.

Definition between (lo hi n : nat) : bool := (lo <=? n) && (n <=? hi).

(** WhiteSpace and LineTerminator code units below 256: TAB, LF, VT, FF,
    CR, SP and NBSP. *)
Definition isWhiteSpace (c : ascii) : bool :=
  let n := code c in between 9 13 n || (n =? 32) || (n =? 160).

Definition isLineTerminator (c : ascii) : bool :=
  let n := code c in (n =? 10) || (n =? 13).

(** The characters of [\w]. *)
Definition isWordChar (c : ascii) : bool :=
  let n := code c in
  between 48 57 n || between 65 90 n || between 97 122 n || (n =? 95).

(** [toUpperCase] on one code unit, as Canonicalize uses it: a letter whose
    upper case is again a single code unit below 256 is mapped to it. *)
Definition toUpper (c : ascii) : ascii :=
  let n := code c in
  if between 97 122 n || (between 224 254 n && negb (n =? 247))
  then ascii_of_nat (n - 32) else c.

Fixpoint dropWhile (p : ascii -> bool) (s : string) : string :=
  match s with
  | EmptyString => EmptyString
  | String c r => if p c then dropWhile p r else s
  end.

Fixpoint rev_acc (s acc : string) : string :=
  match s with
  | EmptyString => acc
  | String c r => rev_acc r (String c acc)
  end.

Definition rev (s : string) : string := rev_acc s EmptyString.

(** [s.trim()] *)
Definition trim (s : string) : string :=
  rev (dropWhile isWhiteSpace (rev (dropWhile isWhiteSpace s))).

(** [s.substring(i, e)] for [i <= e]. *)
Definition slice (s : string) (i e : nat) : string := substring i (e - i) s.

Definition isEmpty (s : string) : bool :=
  match s with EmptyString => true | _ => false end.

End JSString.

(** ** Regular expressions

    The pattern language covers literals, [.], alternation, greedy [*] and
    [?] (with [+] as [a a*]), capturing groups, [\b], [^] and [$]; of the
    flags, [g], [i] and [y].  Matching is the backtracking semantics of the
    language specification, written with lists of successes: [run] returns
    every way the pattern can match at a position, in the order in which the
    backtracking matcher would try them, so its head is the match that
    [exec] reports. *)

Module Regex.

Import JSString.

Inductive regex : Type :=
| Empty
| Char (c : ascii)
| AnyChar
| Seq (a b : regex)
| Alt (a b : regex)
| Star (a : regex)
| Opt (a : regex)
| Group (n : nat) (a : regex)
| WordBoundary
| LineStart
| LineEnd.

(** The captures of a match state: group number to (start, end). *)
Definition captures := nat -> option (nat * nat).

Definition noCaptures : captures := fun _ => None.

Definition setCapture (n : nat) (v : option (nat * nat)) (c : captures) : captures :=
  fun k => if k =? n then v else c k.

Fixpoint groups (r : regex) : list nat :=
  match r with
  | Seq a b | Alt a b => groups a ++ groups b
  | Star a | Opt a => groups a
  | Group n a => n :: groups a
  | _ => []
  end.

Definition clearCaptures (ns : list nat) (c : captures) : captures :=
  fold_right (fun n c' => setCapture n None c') c ns.

Definition canonicalize (ic : bool) (c : ascii) : ascii :=
  if ic then toUpper c else c.

Definition wordAt (s : string) (i : nat) : bool :=
  match get i s with Some c => isWordChar c | None => false end.

Definition isWordBoundary (s : string) (i : nat) : bool :=
  let a := match i with 0 => false | S j => wordAt s j end in
  negb (Bool.eqb a (wordAt s i)).

(** One round of a quantified atom: a round that consumed nothing is
    rejected. *)
Definition progress {A} (i : nat) (k : nat -> captures -> list A)
    (x : nat * captures) : list A :=
  if fst x =? i then [] else k (fst x) (snd x).

(** The rounds of a starred atom, at most [n] of them; [step] is one
    match of the atom. *)
Fixpoint rounds (step : nat -> captures -> list (nat * captures))
    (n : nat) (i : nat) (c : captures) : list (nat * captures) :=
  match n with
  | 0 => [(i, c)]
  | S n' => flat_map (progress i (rounds step n')) (step i c) ++ [(i, c)]
  end.

Fixpoint run (s : string) (ic : bool) (r : regex) (i : nat) (c : captures)
    {struct r} : list (nat * captures) :=
  match r with
  | Empty => [(i, c)]
  | Char a =>
      match get i s with
      | Some b =>
          if Ascii.eqb (canonicalize ic a) (canonicalize ic b)
          then [(S i, c)] else []
      | None => []
      end
  | AnyChar =>
      match get i s with
      | Some b => if isLineTerminator b then [] else [(S i, c)]
      | None => []
      end
  | Seq a b =>
      flat_map (fun x => run s ic b (fst x) (snd x)) (run s ic a i c)
  | Alt a b => run s ic a i c ++ run s ic b i c
  | Star a =>
      rounds (fun j c' => run s ic a j (clearCaptures (groups a) c'))
             (String.length s - i) i c
  | Opt a =>
      flat_map (progress i (fun j c' => [(j, c')]))
               (run s ic a i (clearCaptures (groups a) c))
      ++ [(i, c)]
  | Group n a =>
      map (fun x => (fst x, setCapture n (Some (i, fst x)) (snd x)))
          (run s ic a i c)
  | WordBoundary => if isWordBoundary s i then [(i, c)] else []
  | LineStart => if i =? 0 then [(i, c)] else []
  | LineEnd => if i =? String.length s then [(i, c)] else []
  end.

(** The matcher applied at one position: the first success, if any. *)
Definition matchAt (s : string) (ic : bool) (r : regex) (i : nat)
    : option (nat * captures) :=
  head (run s ic r i noCaptures).

(** The scan of RegExpBuiltinExec: try position [i], then [i+1], ... for
    [n] positions. The result is (start, end, captures). *)
Fixpoint scan (s : string) (ic : bool) (r : regex) (i n : nat)
    : option (nat * nat * captures) :=
  match n with
  | 0 => None
  | S n' =>
      match matchAt s ic r i with
      | Some (e, c) => Some (i, e, c)
      | None => scan s ic r (S i) n'
      end
  end.

(** Literal text as a pattern. *)
Fixpoint lit (s : string) : regex :=
  match s with
  | EmptyString => Empty
  | String c EmptyString => Char c
  | String c r => Seq (Char c) (lit r)
  end.

Definition Plus (a : regex) : regex := Seq a (Star a).

End Regex.

(** ** A pattern parser

    A recursive-descent parser for the pattern language above, used where
    a concrete RegExp constructor is needed. It accepts the texts of that
    language and nothing else: character classes, braces, look-around,
    back-references and lazy quantifiers are outside it. Texts that no
    JavaScript engine accepts (an unclosed group, a quantifier with nothing
    to repeat, a lone backslash) are rejected by it as well. *)

Module Parser.

Import Regex.

Local Open Scope char_scope.

Definition isSyntaxChar (c : ascii) : bool :=
  existsb (Ascii.eqb c)
          ["^"; "$"; "\"; "."; "*"; "+"; "?"; "("; ")"; "["; "]"; "{"; "}"; "|"; "/"].

(** Characters that cannot stand for themselves as an atom. *)
Definition notAtom (c : ascii) : bool :=
  existsb (Ascii.eqb c) ["*"; "+"; "?"; ")"; "|"; "["; "{"; "\"].

Definition mkSeq (a b : regex) : regex :=
  match b with
  | Empty => a
  | _ => Seq a b
  end.

(** A parse: the pattern, the rest of the text, the groups opened so far. *)
Definition parsed : Type := option (regex * string * nat).

Definition quantified (a : regex) (rest : string) (n : nat) : parsed :=
  match rest with
  | String "*" r => Some (Star a, r, n)
  | String "+" r => Some (Plus a, r, n)
  | String "?" r => Some (Opt a, r, n)
  | _ => Some (a, rest, n)
  end.

Fixpoint disjunction (fuel : nat) (s : string) (n : nat) : parsed :=
  match fuel with
  | 0 => None
  | S f =>
      match alternative f s n with
      | Some (a, String "|" r, n') =>
          match disjunction f r n' with
          | Some (b, r', n'') => Some (Alt a b, r', n'')
          | None => None
          end
      | other => other
      end
  end
with alternative (fuel : nat) (s : string) (n : nat) : parsed :=
  match fuel with
  | 0 => None
  | S f =>
      match s with
      | EmptyString => Some (Empty, s, n)
      | String "|" _ => Some (Empty, s, n)
      | String ")" _ => Some (Empty, s, n)
      | _ =>
          match term f s n with
          | Some (t, r, n') =>
              match alternative f r n' with
              | Some (u, r', n'') => Some (mkSeq t u, r', n'')
              | None => None
              end
          | None => None
          end
      end
  end
with term (fuel : nat) (s : string) (n : nat) : parsed :=
  match fuel with
  | 0 => None
  | S f =>
      match s with
      | String "^" r => Some (LineStart, r, n)
      | String "$" r => Some (LineEnd, r, n)
      | String "\" (String "b" r) => Some (WordBoundary, r, n)
      | String "." r => quantified AnyChar r n
      | String "(" r =>
          match disjunction f r (S n) with
          | Some (a, String ")" r', n') => quantified (Group (S n) a) r' n'
          | _ => None
          end
      | String "\" (String c r) =>
          if isSyntaxChar c then quantified (Char c) r n else None
      | String c r =>
          if notAtom c then None else quantified (Char c) r n
      | EmptyString => None
      end
  end.

(** The whole text must be one disjunction. *)
Definition parsePattern (s : string) : option regex :=
  match disjunction (4 * String.length s + 4) s 0 with
  | Some (r, EmptyString, _) => Some r
  | _ => None
  end.

End Parser.

(** ** The host: RegExp objects, exceptions, the console *)

Module Host.

Import JSString Regex.

(** A [RegExp] object: the source text it was written with, its compiled
    matcher, the flags [g], [i] and [y], and the mutable [lastIndex]. *)
Record RegExp : Type := mkRegExp {
  source : string;
  matcher : regex;
  global : bool;
  ignoreCase : bool;
  sticky : bool;
  lastIndex : nat
}.

Definition setLastIndex (n : nat) (R : RegExp) : RegExp :=
  {| source := source R; matcher := matcher R; global := global R;
     ignoreCase := ignoreCase R; sticky := sticky R; lastIndex := n |}.

(** A regex with [g] or [y] reads and writes [lastIndex] in [exec]. *)
Definition stateful (R : RegExp) : bool := global R || sticky R.

(** [R.toString()] *)
Definition flagsOf (R : RegExp) : string :=
  ((if global R then "g" else "") ++ (if ignoreCase R then "i" else "")
   ++ (if sticky R then "y" else ""))%string.

Definition RegExp_toString (R : RegExp) : string :=
  ("/" ++ source R ++ "/" ++ flagsOf R)%string.

(** The array that [exec] returns: the index of the match, the matched
    text and one entry per capturing group ([None] is [undefined]). *)
Record ExecArray : Type := mkExecArray {
  index : nat;
  elems : list (option string)
}.

Definition groupCount (r : regex) : nat := fold_right Nat.max 0 (groups r).

Definition captureText (s : string) (c : captures) (n : nat) : option string :=
  match c n with
  | Some (i, e) => Some (slice s i e)
  | None => None
  end.

Definition execArray (s : string) (r : regex) (i e : nat) (c : captures) : ExecArray :=
  {| index := i;
     elems := Some (slice s i e) :: map (captureText s c) (seq 1 (groupCount r)) |}.

(** The positions that [exec] tries from [start]: that one alone for a
    sticky regex, every position up to the end of the text otherwise. *)
Definition positions (R : RegExp) (s : string) (start : nat) : nat :=
  if sticky R then 1 else S (String.length s - start).

(** RegExpBuiltinExec: a regex without [g] and [y] starts at 0 and leaves
    [lastIndex] alone; one with [g] or [y] starts at [lastIndex], stores
    the end of the match there, and stores 0 when there is none. A
    sticky regex matches at the start position or not at all. *)
Definition RegExpBuiltinExec (R : RegExp) (s : string) : option ExecArray * RegExp :=
  let start := if stateful R then lastIndex R else 0 in
  if String.length s <? start
  then (None, if stateful R then setLastIndex 0 R else R)
  else
    match scan s (ignoreCase R) (matcher R) start (positions R s start) with
    | None => (None, if stateful R then setLastIndex 0 R else R)
    | Some (i, e, c) =>
        (Some (execArray s (matcher R) i e c),
         if stateful R then setLastIndex e R else R)
    end.

(** The loop of [RegExp.prototype[Symbol.match]] for a [g] regex: collect
    the text of every match; after an empty match step over one
    character. *)
Fixpoint matchLoop (fuel : nat) (R : RegExp) (s : string) (acc : list (option string))
    : list (option string) * RegExp :=
  match fuel with
  | 0 => (acc, R)
  | S fuel' =>
      match RegExpBuiltinExec R s with
      | (None, R') => (acc, R')
      | (Some a, R') =>
          let matchStr := match elems a with Some t :: _ => t | _ => "" end in
          let R'' := if isEmpty matchStr
                     then setLastIndex (S (lastIndex R')) R' else R' in
          matchLoop fuel' R'' s (acc ++ [Some matchStr])
      end
  end.

(** [RegExp.prototype[Symbol.match]]: [None] is [null]. *)
Definition RegExp_match (R : RegExp) (s : string) : option (list (option string)) * RegExp :=
  if global R then
    let (acc, R') := matchLoop (String.length s + 2) (setLastIndex 0 R) s [] in
    (match acc with [] => None | _ => Some acc end, R')
  else
    let (a, R') := RegExpBuiltinExec R s in
    (option_map elems a, R').

(** What no operation on a RegExp object changes: everything but
    [lastIndex]. *)
Definition shape (R : RegExp) : string * regex * bool * bool * bool :=
  (source R, matcher R, global R, ignoreCase R, sticky R).

(** A regex is at rest when its next search starts at the beginning of
    the text: it has neither the [g] nor the [y] flag, or its [lastIndex]
    is 0. *)
Definition atRest (R : RegExp) : Prop := stateful R = true -> lastIndex R = 0.

(** The text contains a match of the regex; for a sticky regex, a match
    at its beginning. *)
Definition matchesText (R : RegExp) (s : string) : bool :=
  match scan s (ignoreCase R) (matcher R) 0
             (if sticky R then 1 else S (String.length s)) with
  | Some _ => true
  | None => false
  end.

(** [match] does not read the stored [lastIndex] of the regex: every
    regex but one with [y] and without [g]. *)
Definition resets (R : RegExp) : Prop := sticky R = true -> global R = true.

(** The array of [s.match(R)], empty for [null]. *)
Definition matchedTexts (R : RegExp) (s : string) : list (option string) :=
  match fst (RegExp_match R s) with
  | Some a => a
  | None => []
  end.

(** Exceptions. *)
Inductive Error : Type := SyntaxError | TypeError.

Inductive Completion (A : Type) : Type :=
| Normal (a : A)
| Throw (e : Error).
Arguments Normal {A} a.
Arguments Throw {A} e.

Definition loc := nat.

(** The state of the host: the heap of RegExp objects, the next free
    location, and what was written to the console, oldest first. *)
Record State (Rec : Type) : Type := mkState {
  heap : loc -> RegExp;
  nextLoc : loc;
  console : list Rec
}.
Arguments mkState {Rec} heap nextLoc console.
Arguments heap {Rec} s.
Arguments nextLoc {Rec} s.
Arguments console {Rec} s.

Definition M (Rec A : Type) : Type := State Rec -> Completion A * State Rec.

Definition ret {Rec A} (a : A) : M Rec A := fun st => (Normal a, st).

Definition throw {Rec A} (e : Error) : M Rec A := fun st => (Throw e, st).

Definition bind {Rec A B} (m : M Rec A) (k : A -> M Rec B) : M Rec B :=
  fun st =>
    match m st with
    | (Normal a, st') => k a st'
    | (Throw e, st') => (Throw e, st')
    end.

Definition setHeap {Rec} (l : loc) (R : RegExp) (st : State Rec) : State Rec :=
  {| heap := <[l := R]> (heap st); nextLoc := nextLoc st; console := console st |}.

(** Evaluating a regex literal: a fresh object. *)
Definition alloc {Rec} (R : RegExp) : M Rec loc :=
  fun st =>
    (Normal (nextLoc st),
     {| heap := <[nextLoc st := R]> (heap st);
        nextLoc := S (nextLoc st);
        console := console st |}).

(** [console.warn] *)
Definition warn {Rec} (r : Rec) : M Rec unit :=
  fun st =>
    (Normal tt,
     {| heap := heap st; nextLoc := nextLoc st; console := console st ++ [r] |}).

(** [R.test(s)] on the object at [l]. *)
Definition test {Rec} (l : loc) (s : string) : M Rec bool :=
  fun st =>
    let (a, R') := RegExpBuiltinExec (heap st l) s in
    (Normal (match a with Some _ => true | None => false end), setHeap l R' st).

(** [s.match(R)] on the object at [l]. *)
Definition matchObject {Rec} (l : loc) (s : string) : M Rec (option (list (option string))) :=
  fun st =>
    let (a, R') := RegExp_match (heap st l) s in
    (Normal a, setHeap l R' st).

(** Two states hold the same objects when they differ at most in the
    [lastIndex] of their objects; a step is quiet when, in addition, it
    writes nothing to the console and allocates nothing. *)
Definition sameObjects {Rec} (st st' : State Rec) : Prop :=
  forall l, shape (heap st' l) = shape (heap st l).

Definition quiet {Rec} (st st' : State Rec) : Prop :=
  console st' = console st /\ nextLoc st' = nextLoc st /\ sameObjects st st'.

End Host.

Notation "'let!' x ':=' m 'in' k" := (Host.bind m (fun x => k))
  (at level 10, x name, m at level 100, k at level 200).

(** ** The Guardrails class *)

Module Guardrails.

Import JSString Regex Host.

(** *** Data *)

(** [violationAction]: 'reject', 'warn' or 'allow'. *)
Inductive Action : Type := Reject | Warn | Allow.

Definition isReject (a : Action) : bool :=
  match a with Reject => true | _ => false end.

(** A configured pattern: a string, or a RegExp object. *)
Inductive Pattern : Type :=
| PString (s : string)
| PRegExp (l : loc).

(** The context a policy is called with: 'input' or 'output'. *)
Inductive Context : Type := Input | Output.

(** What a policy predicate returns: a boolean, a result object
    [{passed, reason, code}], or [undefined]/[null]. Any other value is
    read like a result object with the fields it has ([passed] by its
    truthiness). *)
Inductive Returned : Type :=
| RBool (b : bool)
| RResult (passed : bool) (reason : option string) (code : option string)
| RNullish.

(** A call of a predicate returns, or raises an Error with a message. *)
Inductive Outcome : Type :=
| Returns (v : Returned)
| Raises (message : string).

Definition Predicate : Type := string -> Context -> Outcome.

(** An entry of [policies]: a function (with its [name]), an object with
    [name], [reason] and possibly a function [check], [null] or
    [undefined], or some other value. *)
Inductive Policy : Type :=
| PFunction (name : string) (f : Predicate)
| PObject (name reason : option string) (check : option Predicate)
| PNull
| POther.

Record PolicyResult : Type := mkPolicyResult {
  passed : bool;
  pr_reason : option string;
  pr_code : option string
}.

Record Violation : Type := mkViolation {
  policy : string;
  v_reason : option string;
  v_code : string
}.

(** The results of the five checks. *)
Inductive ValidationResult : Type :=
| Valid
| Invalid (reason code : string).

Inductive BlockedCheck : Type :=
| NotBlocked
| Blocked (pattern : option string) (reason code : string).

Inductive ProfanityCheck : Type :=
| NoProfanity
| Profanity (matches : list (option string)) (reason code : string).

Inductive HarmfulCheck : Type :=
| NotHarmful
| Harmful (reason code : string).

Inductive PolicyCheck : Type :=
| Passed
| Failed (violations : list Violation) (reason code : string).

(** What [_logViolation] writes: the violation type and the result of the
    check that failed (the timestamp is not modelled). *)
Inductive Details : Type :=
| DValidation (r : ValidationResult)
| DBlocked (r : BlockedCheck)
| DProfanity (r : ProfanityCheck)
| DHarmful (r : HarmfulCheck)
| DPolicy (r : PolicyCheck).

Record LogRecord : Type := mkLogRecord {
  type : string;
  details : Details
}.

(** The verdict of a moderation call. *)
Record Denial : Type := mkDenial {
  reason : string;
  code : string;
  action : option Action;
  matches : option (list (option string));
  violations : option (list Violation)
}.

Inductive Verdict : Type :=
| Allowed
| Denied (d : Denial).

(** The argument of [moderateInput]: a string or something else. *)
Inductive Message : Type :=
| MString (s : string)
| MOther.

(** The options object of the constructor and of [configure]: [None] is
    an absent key. For [allowedPatterns], [policies], [profanityPatterns]
    and [harmfulPatterns] a present key may hold [null] or [undefined]
    (the inner [None]). *)
Record Options : Type := mkOptions {
  opt_maxMessageLength : option Z;
  opt_minMessageLength : option Z;
  opt_enableContentFilter : option bool;
  opt_blockedPatterns : option (list Pattern);
  opt_allowedPatterns : option (option (list Pattern));
  opt_enableProfanityFilter : option bool;
  opt_enableOutputModeration : option bool;
  opt_maxResponseLength : option Z;
  opt_policies : option (option (list Policy));
  opt_logViolations : option bool;
  opt_violationAction : option Action;
  opt_profanityPatterns : option (option (list Pattern));
  opt_harmfulPatterns : option (option (list Pattern))
}.

Definition noOptions : Options :=
  mkOptions None None None None None None None None None None None None None.

(** [this.config]. The last two fields are the keys that the spread of
    the options copies into the configuration, with the value they have
    there ([None]: the configuration has no such key); the checks do not
    read them. *)
Record Config : Type := mkConfig {
  maxMessageLength : Z;
  minMessageLength : Z;
  enableContentFilter : bool;
  blockedPatterns : list Pattern;
  allowedPatterns : option (list Pattern);
  enableProfanityFilter : bool;
  enableOutputModeration : bool;
  maxResponseLength : Z;
  policies : option (list Policy);
  logViolations : bool;
  violationAction : Action;
  cfg_profanityPatterns : option (option (list Pattern));
  cfg_harmfulPatterns : option (option (list Pattern))
}.

(** An instance of the class. *)
Record Engine : Type := mkEngine {
  config : Config;
  profanityPatterns : list Pattern;
  harmfulPatterns : list Pattern
}.

Definition St : Type := State LogRecord.
Definition Run (A : Type) : Type := M LogRecord A.

(** *** Small pieces of JavaScript *)

(** [n || d] on a possibly absent number. *)
Definition orNumber (o : option Z) (d : Z) : Z :=
  match o with
  | Some v => if (v =? 0)%Z then d else v
  | None => d
  end.

(** [b !== false] on a possibly absent boolean. *)
Definition notFalse (o : option bool) : bool :=
  match o with
  | Some false => false
  | _ => true
  end.

(** [x || d] where a present [x] is an array or an action (truthy). *)
Definition orElse {A} (o : option A) (d : A) : A :=
  match o with
  | Some v => v
  | None => d
  end.

(** [s || d] on a possibly absent string: the empty string is falsy. *)
Definition orString (o : option string) (d : string) : string :=
  match o with
  | Some v => if isEmpty v then d else v
  | None => d
  end.

(** [{ key: d, ...options }]: a key present in the options wins. *)
Definition spread {A} (o : option A) (d : A) : A :=
  match o with
  | Some v => v
  | None => d
  end.

(** A number inside a template literal. *)
Definition showZ (z : Z) : string := NilZero.string_of_int (Z.to_int z).

Definition showNat (n : nat) : string := showZ (Z.of_nat n).

Definition lengthZ (s : string) : Z := Z.of_nat (String.length s).

(** [[...new Set(xs)]]: the first occurrence of every element, in order. *)
Definition optStringEqb (a b : option string) : bool :=
  match a, b with
  | Some x, Some y => String.eqb x y
  | None, None => true
  | _, _ => false
  end.

Fixpoint dedupeAcc (seen xs : list (option string)) : list (option string) :=
  match xs with
  | [] => []
  | x :: r =>
      if existsb (optStringEqb x) seen then dedupeAcc seen r
      else x :: dedupeAcc (seen ++ [x]) r
  end.

Definition dedupe (xs : list (option string)) : list (option string) :=
  dedupeAcc [] xs.

(** The text of a message that [validateInput] has accepted. *)
Definition textOf (m : Message) : string :=
  match m with
  | MString s => s
  | MOther => ""
  end.

(** The two default pattern literals of the constructor. *)
Fixpoint alternatives (ws : list string) : regex :=
  match ws with
  | [] => Empty
  | [w] => lit w
  | w :: r => Alt (lit w) (alternatives r)
  end.

Definition wordList (ws : list string) : regex :=
  Seq WordBoundary (Seq (Group 1 (alternatives ws)) WordBoundary).

Definition defaultProfanity : RegExp :=
  {| source := "\b(fuck|shit|damn|hell|bitch|asshole)\b";
     matcher := wordList ["fuck"; "shit"; "damn"; "hell"; "bitch"; "asshole"];
     global := true; ignoreCase := true; sticky := false; lastIndex := 0 |}.

Definition defaultHarmful : RegExp :=
  {| source := "\b(kill|murder|suicide|bomb|terrorist|violence)\b";
     matcher := wordList ["kill"; "murder"; "suicide"; "bomb"; "terrorist"; "violence"];
     global := true; ignoreCase := true; sticky := false; lastIndex := 0 |}.

(** *** The methods *)

Section Methods.

(** The pattern parser behind the host's RegExp constructor: [None] when
    the text is not a pattern, in which case the constructor throws
    SyntaxError. *)
Variable parsePattern : string -> option regex.

(** [new RegExp(src, flags)] *)
Definition newRegExp (src : string) (g i : bool) : Completion RegExp :=
  match parsePattern src with
  | Some r => Normal (mkRegExp src r g i false 0)
  | None => Throw SyntaxError
  end.

Definition constructor (options : Options) : Run Engine :=
  let cfg :=
    {| maxMessageLength :=
         spread (opt_maxMessageLength options)
                (orNumber (opt_maxMessageLength options) 10000);
       minMessageLength :=
         spread (opt_minMessageLength options)
                (orNumber (opt_minMessageLength options) 1);
       enableContentFilter :=
         spread (opt_enableContentFilter options)
                (notFalse (opt_enableContentFilter options));
       blockedPatterns :=
         spread (opt_blockedPatterns options)
                (orElse (opt_blockedPatterns options) []);
       allowedPatterns :=
         spread (opt_allowedPatterns options)
                (orElse (opt_allowedPatterns options) None);
       enableProfanityFilter :=
         spread (opt_enableProfanityFilter options)
                (notFalse (opt_enableProfanityFilter options));
       enableOutputModeration :=
         spread (opt_enableOutputModeration options)
                (notFalse (opt_enableOutputModeration options));
       maxResponseLength :=
         spread (opt_maxResponseLength options)
                (orNumber (opt_maxResponseLength options) 50000);
       policies :=
         spread (opt_policies options)
                (match opt_policies options with
                 | Some (Some ps) => Some ps
                 | _ => Some []
                 end);
       logViolations :=
         spread (opt_logViolations options)
                (notFalse (opt_logViolations options));
       violationAction :=
         spread (opt_violationAction options)
                (orElse (opt_violationAction options) Reject);
       cfg_profanityPatterns := opt_profanityPatterns options;
       cfg_harmfulPatterns := opt_harmfulPatterns options |} in
  let! prof :=
    match opt_profanityPatterns options with
    | Some (Some ps) => ret ps
    | _ => let! l := alloc defaultProfanity in ret [PRegExp l]
    end in
  let! harm :=
    match opt_harmfulPatterns options with
    | Some (Some ps) => ret ps
    | _ => let! l := alloc defaultHarmful in ret [PRegExp l]
    end in
  ret {| config := cfg; profanityPatterns := prof; harmfulPatterns := harm |}.

Definition validateInput (e : Engine) (message : Message) : ValidationResult :=
  match message with
  | MOther => Invalid "Message must be a string" "INVALID_TYPE"
  | MString s =>
      if (lengthZ s <? minMessageLength (config e))%Z then
        Invalid ("Message too short. Minimum length: "
                   ++ showZ (minMessageLength (config e)))%string
                "MESSAGE_TOO_SHORT"
      else if (lengthZ s >? maxMessageLength (config e))%Z then
        Invalid ("Message too long. Maximum length: "
                   ++ showZ (maxMessageLength (config e)))%string
                "MESSAGE_TOO_LONG"
      else if isEmpty (trim s) then
        Invalid "Message cannot be empty" "EMPTY_MESSAGE"
      else Valid
  end.

(** [typeof pattern === 'string' ? new RegExp(pattern, 'gi') : pattern]
    followed by [regex.test(content)]. A regex made from a string is
    dropped after the test; an object keeps its new [lastIndex]. *)
Definition testPattern (p : Pattern) (content : string) : Run bool :=
  match p with
  | PString src =>
      match newRegExp src true true with
      | Normal R =>
          ret (match fst (RegExpBuiltinExec R content) with
               | Some _ => true
               | None => false
               end)
      | Throw err => throw err
      end
  | PRegExp l => test l content
  end.

(** [pattern.toString()] *)
Definition patternToString (p : Pattern) : Run string :=
  match p with
  | PString src => ret src
  | PRegExp l => fun st => (Normal (RegExp_toString (heap st l)), st)
  end.

(** The loop over [blockedPatterns]: the first pattern that tests true. *)
Fixpoint firstBlocked (ps : list Pattern) (content : string) : Run (option Pattern) :=
  match ps with
  | [] => ret None
  | p :: rest =>
      let! hit := testPattern p content in
      if hit then ret (Some p) else firstBlocked rest content
  end.

(** [allowedPatterns.some(...)] *)
Fixpoint someAllowed (ps : list Pattern) (content : string) : Run bool :=
  match ps with
  | [] => ret false
  | p :: rest =>
      let! hit := testPattern p content in
      if hit then ret true else someAllowed rest content
  end.

Definition checkBlockedPatterns (e : Engine) (content : string) : Run BlockedCheck :=
  if negb (enableContentFilter (config e)) then ret NotBlocked
  else
    let! hit := firstBlocked (blockedPatterns (config e)) content in
    match hit with
    | Some p =>
        let! text := patternToString p in
        ret (Blocked (Some text) "Content matches blocked pattern" "BLOCKED_PATTERN")
    | None =>
        match allowedPatterns (config e) with
        | Some (p :: ps) =>
            let! matchesAny := someAllowed (p :: ps) content in
            if matchesAny then ret NotBlocked
            else ret (Blocked None "Content does not match any allowed pattern"
                              "NOT_ALLOWED_PATTERN")
        | _ => ret NotBlocked
        end
    end.

(** [content.match(pattern)]: a string is compiled without flags. *)
Definition matchPattern (p : Pattern) (content : string)
    : Run (option (list (option string))) :=
  match p with
  | PString src =>
      match newRegExp src false false with
      | Normal R => ret (fst (RegExp_match R content))
      | Throw err => throw err
      end
  | PRegExp l => matchObject l content
  end.

(** The loop over [profanityPatterns] with [matches.push(...match)]. *)
Fixpoint collectMatches (ps : list Pattern) (content : string)
    (found : list (option string)) : Run (list (option string)) :=
  match ps with
  | [] => ret found
  | p :: rest =>
      let! m := matchPattern p content in
      collectMatches rest content
        (match m with Some a => found ++ a | None => found end)
  end.

Definition checkProfanity (e : Engine) (content : string) : Run ProfanityCheck :=
  if negb (enableProfanityFilter (config e)) then ret NoProfanity
  else
    let! found := collectMatches (profanityPatterns e) content [] in
    match found with
    | [] => ret NoProfanity
    | _ => ret (Profanity (dedupe found) "Content contains profanity"
                          "PROFANITY_DETECTED")
    end.

(** The loop over [harmfulPatterns]: [pattern.test(content)] is called on
    the entry as it is, so a string entry has no [test] method. *)
Fixpoint anyHarmful (ps : list Pattern) (content : string) : Run bool :=
  match ps with
  | [] => ret false
  | PString _ :: _ => throw TypeError
  | PRegExp l :: rest =>
      let! hit := test l content in
      if hit then ret true else anyHarmful rest content
  end.

Definition checkHarmfulContent (e : Engine) (content : string) : Run HarmfulCheck :=
  if negb (enableContentFilter (config e)) then ret NotHarmful
  else
    let! hit := anyHarmful (harmfulPatterns e) content in
    if hit then
      ret (Harmful "Content may contain harmful or violent language" "HARMFUL_CONTENT")
    else ret NotHarmful.

(** The value a predicate call leaves in [_evaluatePolicy]: a boolean is
    turned into a result object with [fallback] as the reason of a
    failure, anything else is returned as it is ([None] is [undefined]);
    an Error is caught. *)
Definition coerce (fallback : string) (o : Outcome) : option PolicyResult :=
  match o with
  | Returns (RBool b) =>
      Some (mkPolicyResult b (if b then None else Some fallback) None)
  | Returns (RResult p r c) => Some (mkPolicyResult p r c)
  | Returns RNullish => None
  | Raises msg =>
      Some (mkPolicyResult false (Some ("Policy error: " ++ msg)%string)
                           (Some "POLICY_ERROR"))
  end.

Definition _evaluatePolicy (p : Policy) (content : string) (context : Context)
    : Completion (option PolicyResult) :=
  match p with
  | PFunction _ f => Normal (coerce "Policy check failed" (f content context))
  | PObject _ rsn (Some chk) =>
      Normal (coerce (orString rsn "Policy check failed") (chk content context))
  | PObject _ _ None => Normal (Some (mkPolicyResult true (Some "Invalid policy format") None))
  | POther => Normal (Some (mkPolicyResult true (Some "Invalid policy format") None))
  | PNull => Throw TypeError
  end.

(** [policy.name || 'unnamed'] *)
Definition policyName (p : Policy) : string :=
  match p with
  | PFunction n _ => orString (Some n) "unnamed"
  | PObject n _ _ => orString n "unnamed"
  | _ => "unnamed"
  end.

(** The loop of [applyPolicies]; reading [result.passed] of [undefined]
    throws. *)
Fixpoint policyLoop (ps : list Policy) (content : string) (context : Context)
    (found : list Violation) : Completion (list Violation) :=
  match ps with
  | [] => Normal found
  | p :: rest =>
      match _evaluatePolicy p content context with
      | Throw err => Throw err
      | Normal None => Throw TypeError
      | Normal (Some result) =>
          if negb (passed result) then
            policyLoop rest content context
              (found ++ [mkViolation (policyName p) (pr_reason result)
                                     (orString (pr_code result) "POLICY_VIOLATION")])
          else policyLoop rest content context found
      end
  end.

Definition applyPolicies (e : Engine) (content : string) (context : Context)
    : Completion PolicyCheck :=
  match policies (config e) with
  | None | Some [] => Normal Passed
  | Some ps =>
      match policyLoop ps content context [] with
      | Throw err => Throw err
      | Normal [] => Normal Passed
      | Normal vs =>
          Normal (Failed vs
                    ("Violated " ++ showNat (List.length vs) ++ " policy/policies")%string
                    "POLICY_VIOLATION")
      end
  end.

Definition lift {A} (c : Completion A) : Run A := fun st => (c, st).

Definition _logViolation (e : Engine) (type : string) (details : Details) : Run unit :=
  if logViolations (config e) then warn (mkLogRecord type details) else ret tt.

Definition deny (e : Engine) (reason code : string)
    (matches : option (list (option string)))
    (violations : option (list Violation)) : Verdict :=
  Denied (mkDenial reason code (Some (violationAction (config e))) matches violations).

Definition moderateInput (e : Engine) (message : Message) : Run Verdict :=
  match validateInput e message with
  | Invalid reason code =>
      let! _u := _logViolation e "input_validation" (DValidation (Invalid reason code)) in
      ret (deny e reason code None None)
  | Valid =>
      let content := textOf message in
      let! blockedCheck := checkBlockedPatterns e content in
      match blockedCheck with
      | Blocked pat reason code =>
          let! _u := _logViolation e "blocked_pattern" (DBlocked blockedCheck) in
          ret (deny e reason code None None)
      | NotBlocked =>
          let! profanityCheck := checkProfanity e content in
          let harmfulAndPolicies : Run Verdict :=
            let! harmfulCheck := checkHarmfulContent e content in
            match harmfulCheck with
            | Harmful reason code =>
                let! _u := _logViolation e "harmful_content" (DHarmful harmfulCheck) in
                ret (deny e reason code None None)
            | NotHarmful =>
                let! policyCheck := lift (applyPolicies e content Input) in
                match policyCheck with
                | Failed vs reason code =>
                    let! _u := _logViolation e "policy_violation" (DPolicy policyCheck) in
                    ret (deny e reason code None (Some vs))
                | Passed => ret Allowed
                end
            end in
          match profanityCheck with
          | Profanity ms reason code =>
              let! _u := _logViolation e "profanity" (DProfanity profanityCheck) in
              if isReject (violationAction (config e))
              then ret (deny e reason code (Some ms) None)
              else harmfulAndPolicies
          | NoProfanity => harmfulAndPolicies
          end
      end
  end.

Definition moderateOutput (e : Engine) (content : string) : Run Verdict :=
  if negb (enableOutputModeration (config e)) then ret Allowed
  else if (lengthZ content >? maxResponseLength (config e))%Z then
    ret (Denied (mkDenial
                   ("Response too long. Maximum length: "
                      ++ showZ (maxResponseLength (config e)))%string
                   "RESPONSE_TOO_LONG" None None None))
  else
    let! blockedCheck := checkBlockedPatterns e content in
    match blockedCheck with
    | Blocked pat reason code =>
        let! _u := _logViolation e "output_blocked_pattern" (DBlocked blockedCheck) in
        ret (deny e reason code None None)
    | NotBlocked =>
        let! policyCheck := lift (applyPolicies e content Output) in
        match policyCheck with
        | Failed vs reason code =>
            let! _u := _logViolation e "output_policy_violation" (DPolicy policyCheck) in
            ret (deny e reason code None (Some vs))
        | Passed => ret Allowed
        end
    end.

End Methods.

(** A key that the spread copies when the options have it. *)
Definition override {A} (o : option A) (old : option A) : option A :=
  match o with
  | Some v => Some v
  | None => old
  end.

(** [configure(options)]: the spread of the old configuration and the
    options, then the two pattern sets when the options hold an array for
    them ([if (options.profanityPatterns)]: a key that holds [null] or
    [undefined] is copied into the configuration and leaves the set as it
    is). Nothing is compiled and no RegExp object is touched. *)
Definition configure (e : Engine) (options : Options) : Engine :=
  {| config :=
       {| maxMessageLength := spread (opt_maxMessageLength options) (maxMessageLength (config e));
          minMessageLength := spread (opt_minMessageLength options) (minMessageLength (config e));
          enableContentFilter :=
            spread (opt_enableContentFilter options) (enableContentFilter (config e));
          blockedPatterns := spread (opt_blockedPatterns options) (blockedPatterns (config e));
          allowedPatterns := spread (opt_allowedPatterns options) (allowedPatterns (config e));
          enableProfanityFilter :=
            spread (opt_enableProfanityFilter options) (enableProfanityFilter (config e));
          enableOutputModeration :=
            spread (opt_enableOutputModeration options) (enableOutputModeration (config e));
          maxResponseLength :=
            spread (opt_maxResponseLength options) (maxResponseLength (config e));
          policies := spread (opt_policies options) (policies (config e));
          logViolations := spread (opt_logViolations options) (logViolations (config e));
          violationAction := spread (opt_violationAction options) (violationAction (config e));
          cfg_profanityPatterns :=
            override (opt_profanityPatterns options) (cfg_profanityPatterns (config e));
          cfg_harmfulPatterns :=
            override (opt_harmfulPatterns options) (cfg_harmfulPatterns (config e)) |};
     profanityPatterns :=
       match opt_profanityPatterns options with
       | Some (Some ps) => ps
       | _ => profanityPatterns e
       end;
     harmfulPatterns :=
       match opt_harmfulPatterns options with
       | Some (Some ps) => ps
       | _ => harmfulPatterns e
       end |}.

(** *** Notions used to state the properties *)

Section Notions.

Variable parsePattern : string -> option regex.

(** A pattern of the pattern filter matches a text. A string stands for
    the regex it compiles to with the flags gi; a string that does not
    compile matches nothing. *)
Definition patternMatches (h : loc -> RegExp) (p : Pattern) (s : string) : bool :=
  match p with
  | PString src =>
      match parsePattern src with
      | Some r => matchesText (mkRegExp src r true true false 0) s
      | None => false
      end
  | PRegExp l => matchesText (h l) s
  end.

(** The texts that [content.match(pattern)] finds. A string stands for
    the regex it compiles to without flags. *)
Definition patternTexts (h : loc -> RegExp) (s : string) (p : Pattern)
    : list (option string) :=
  match p with
  | PString src =>
      match parsePattern src with
      | Some r => matchedTexts (mkRegExp src r false false false 0) s
      | None => []
      end
  | PRegExp l => matchedTexts (h l) s
  end.

(** The heap after [content.match(pattern)]: the object of the pattern
    has the [lastIndex] that the match leaves. *)
Definition afterMatch (h : loc -> RegExp) (s : string) (p : Pattern) : loc -> RegExp :=
  match p with
  | PString _ => h
  | PRegExp l => <[l := snd (RegExp_match (h l) s)]> h
  end.

(** The texts that the patterns of a list find, one pattern after the
    other. *)
Fixpoint textsFound (h : loc -> RegExp) (s : string) (ps : list Pattern)
    : list (option string) :=
  match ps with
  | [] => []
  | p :: rest => patternTexts h s p ++ textsFound (afterMatch h s p) s rest
  end.

(** A pattern that can be used: an object, or a string that compiles. *)
Definition compiles (p : Pattern) : Prop :=
  match p with
  | PString src => parsePattern src <> None
  | PRegExp _ => True
  end.

End Notions.

(** The array of a [match], empty for [null]. *)
Definition textsOf (m : option (list (option string))) : list (option string) :=
  match m with
  | Some a => a
  | None => []
  end.

Definition isObject (p : Pattern) : Prop :=
  match p with
  | PRegExp _ => True
  | PString _ => False
  end.

(** The allowlist as a list: empty when it is [null]. *)
Definition allowedList (e : Engine) : list Pattern :=
  match allowedPatterns (config e) with
  | Some ps => ps
  | None => []
  end.

(** The predicate of a policy raises an Error with the given message. *)
Definition raisesOn (p : Policy) (content : string) (context : Context)
    (msg : string) : Prop :=
  match p with
  | PFunction _ f => f content context = Raises msg
  | PObject _ _ (Some chk) => chk content context = Raises msg
  | _ => False
  end.

(** A policy of the data model, on a given call: a function or an object
    whose call returns a boolean or a result object, or raises. *)
Definition wellFormed (p : Policy) (content : string) (context : Context) : Prop :=
  match p with
  | PFunction _ f => f content context <> Returns RNullish
  | PObject _ _ (Some chk) => chk content context <> Returns RNullish
  | _ => False
  end.

(** The violation that one policy contributes, in the words of the
    specification: none when it passes, else its name, the reason and the
    code of its result (POLICY_VIOLATION when the result names none). *)
Definition resultOf (p : Policy) (content : string) (context : Context)
    : option PolicyResult :=
  match p with
  | PFunction _ f => coerce "Policy check failed" (f content context)
  | PObject _ rsn (Some chk) =>
      coerce (orString rsn "Policy check failed") (chk content context)
  | _ => None
  end.

Definition violationOf (content : string) (context : Context) (p : Policy)
    : list Violation :=
  match resultOf p content context with
  | Some r =>
      if passed r then []
      else [mkViolation (policyName p) (pr_reason r)
                        (orString (pr_code r) "POLICY_VIOLATION")]
  | None => []
  end.

Definition violationsOf (ps : list Policy) (content : string) (context : Context)
    : list Violation :=
  flat_map (violationOf content context) ps.

(** The validator in the words of the specification: four checks in a
    fixed order, each with its reason and code; the first check that
    fails decides. *)
Definition validationChecks (e : Engine)
    : list ((Message -> bool) * (string * string)) :=
  [ (fun m => match m with MString _ => false | MOther => true end,
     ("Message must be a string", "INVALID_TYPE"));
    (fun m => (lengthZ (textOf m) <? minMessageLength (config e))%Z,
     (("Message too short. Minimum length: "
         ++ showZ (minMessageLength (config e)))%string,
      "MESSAGE_TOO_SHORT"));
    (fun m => (lengthZ (textOf m) >? maxMessageLength (config e))%Z,
     (("Message too long. Maximum length: "
         ++ showZ (maxMessageLength (config e)))%string,
      "MESSAGE_TOO_LONG"));
    (fun m => isEmpty (trim (textOf m)),
     ("Message cannot be empty", "EMPTY_MESSAGE")) ].

Fixpoint firstFailing (checks : list ((Message -> bool) * (string * string)))
    (m : Message) : ValidationResult :=
  match checks with
  | [] => Valid
  | (fails, (reason, code)) :: rest =>
      if fails m then Invalid reason code else firstFailing rest m
  end.

(** The codes of the checks that a message fails, in the order of the
    checks. *)
Definition failedCodes (e : Engine) (m : Message) : list string :=
  map (fun c => snd (snd c)) (List.filter (fun c => fst c m) (validationChecks e)).


(** A policy answers a call when evaluating it yields a result object:
    so do the functions and objects of the data model whose predicate
    returns a boolean or a result object or raises, and the values without
    a callable [check]; [null] and a predicate that returns [undefined]
    do not. *)
Definition answers (p : Policy) (content : string) (context : Context) : Prop :=
  match _evaluatePolicy p content context with
  | Normal (Some _) => True
  | _ => False
  end.

(** A shallow merge, field by field: a field that the partial names takes
    the new value, a field that it does not name keeps the old one. *)
Definition merged {A} (given : option A) (old new : A) : Prop :=
  match given with
  | Some v => new = v
  | None => new = old
  end.

(** The same for a key that the configuration may lack. *)
Definition mergedKey {A} (given old new : option A) : Prop :=
  match given with
  | Some v => new = Some v
  | None => new = old
  end.

(** A pattern set after [configure]: the array that the partial holds for
    it, and the old set when the partial lacks the key or holds [null] or
    [undefined] for it. *)
Definition replaced (given : option (option (list Pattern))) (old new : list Pattern)
    : Prop :=
  match given with
  | Some (Some ps) => new = ps
  | Some None => new = old
  | None => new = old
  end.

End Guardrails.

(** ** Engines and states for the examples *)

Module Examples.

Import Regex Host Guardrails.

Definition blank : RegExp := mkRegExp "(?:)" Empty false false false 0.

(** A host in which nothing has happened yet. *)
Definition initial : St := mkState (fun _ => blank) 0 [].

(** The engine of [new Guardrails()]: its two default regexes are the
    objects 0 and 1. *)
Definition defaults : Config :=
  mkConfig 10000 1 true [] None true true 50000 (Some []) true Reject None None.

Definition defaultEngine : Engine := mkEngine defaults [PRegExp 0] [PRegExp 1].

Definition ready : St :=
  mkState (<[1 := defaultHarmful]> (<[0 := defaultProfanity]> (fun _ => blank))) 2 [].

Definition withConfig (c : Config) : Engine := mkEngine c [PRegExp 0] [PRegExp 1].

(** Messages of at most ten characters, and "spam" blocked. *)
Definition tight : Engine :=
  withConfig (mkConfig 10 1 true [PString "spam"] None true true 50000
                       (Some []) true Reject None None).

(** Responses of at most five characters. *)
Definition terse : Engine :=
  withConfig (mkConfig 10000 1 true [] None true true 5 (Some []) true Reject None None).

(** [policies: [null]] *)
Definition nullPolicy : Engine :=
  withConfig (mkConfig 10000 1 true [] None true true 50000
                       (Some [PNull]) true Reject None None).

(** A policy that raises and one that passes. *)
Definition failing : Policy := PFunction "failing" (fun _ _ => Raises "boom").
Definition passing : Policy :=
  PObject (Some "ok") None (Some (fun _ _ => Returns (RResult true None None))).
Definition noSpam : Policy :=
  PFunction "" (fun content _ =>
    Returns (RBool (negb (String.eqb content "spam")))).

Definition guarded (ps : list Policy) : Engine :=
  withConfig (mkConfig 10000 1 true [] None true true 50000
                       (Some ps) true Reject None None).

(** README-style patterns with the flags gi, and the allowlist pattern of
    the specification without [g]. Objects 2, 3 and 4 of [stocked]. *)
Definition ssn : RegExp := mkRegExp "ssn" (lit "ssn") true true false 0.
Definition hello : RegExp := mkRegExp "hello" (lit "hello") true true false 0.
Definition helloStart : RegExp :=
  mkRegExp "^HELLO" (Seq LineStart (lit "HELLO")) false true false 0.

Definition stocked : St :=
  mkState (<[4 := helloStart]> (<[3 := hello]> (<[2 := ssn]> (heap ready)))) 5 [].

(** [blockedPatterns: [/ssn/gi]] *)
Definition secretive : Engine :=
  withConfig (mkConfig 10000 1 true [PRegExp 2] None true true 50000
                       (Some []) true Reject None None).

(** [allowedPatterns: [/hello/gi]] and [allowedPatterns: [/^HELLO/i]] *)
Definition greeter : Engine :=
  withConfig (mkConfig 10000 1 true [] (Some [PRegExp 3]) true true 50000
                       (Some []) true Reject None None).

Definition greeterStart : Engine :=
  withConfig (mkConfig 10000 1 true [] (Some [PRegExp 4]) true true 50000
                       (Some []) true Reject None None).

(** [blockedPatterns: ['(']]: a string that is not a pattern. *)
Definition unclosed : Options :=
  mkOptions None None None (Some [PString "("]) None None None None None None
            None None None.


(** [violationAction: 'warn'] and ['reject'] with logging. *)
Definition warning : Engine :=
  withConfig (mkConfig 10000 1 true [] None true true 50000
                       (Some []) true Warn None None).





(** [harmfulPatterns: [/kill/iy]], a sticky pattern without [g], which is
    object 5 of [stuck] with [lastIndex] 2. *)
Definition killSticky : RegExp := mkRegExp "kill" (lit "kill") false true true 2.

(** [/hello/y], sticky without [g], at rest: object 6 of [stuck]. *)
Definition helloSticky : RegExp := mkRegExp "hello" (lit "hello") false false true 0.

Definition stuck : St :=
  mkState (<[6 := helloSticky]> (<[5 := killSticky]> (heap stocked))) 7 [].

(** [blockedPatterns: [/hello/y]], and [profanityPatterns: [/hello/y]]
    with [violationAction: 'warn']. *)
Definition stickyBlock : Engine :=
  withConfig (mkConfig 10000 1 true [PRegExp 6] None true true 50000
                       (Some []) true Reject None None).

Definition stickyProfanity : Engine :=
  mkEngine (mkConfig 10000 1 true [] None true true 50000 (Some []) true Warn
                     (Some (Some [PRegExp 6])) None)
           [PRegExp 6] [PRegExp 1].


(** Limits the wrong way round, [minMessageLength: 100] and
    [maxMessageLength: 10], and "spam" blocked. *)
Definition inverted : Engine :=
  withConfig (mkConfig 10 100 true [PString "spam"] None true true 50000
                       (Some []) true Reject None None).


(** [{profanityPatterns: ['darn']}] and [{maxMessageLength: 20}] *)
Definition onlyDarn : Options :=
  mkOptions None None None None None None None None None None None
            (Some (Some [PString "darn"])) None.

(** [{profanityPatterns: null}] *)
Definition noProfanity : Options :=
  mkOptions None None None None None None None None None None None (Some None) None.

Definition shorter : Options :=
  mkOptions (Some 20%Z) None None None None None None None None None None None None.

End Examples.

(** ** Further notions for the Guardrails class *)

Module Notions.

Import JSString Regex Host Guardrails.

(** Every character of the text is white space. *)
Fixpoint allWhite (s : string) : bool :=
  match s with
  | EmptyString => true
  | String c r => isWhiteSpace c && allWhite r
  end.

Fixpoint allChars (p : ascii -> bool) (s : string) : bool :=
  match s with
  | EmptyString => true
  | String c r => p c && allChars p r
  end.

(** The codes that a verdict of [moderateInput] and of [moderateOutput] can
    carry. *)
Definition inputCodes : list string :=
  ["INVALID_TYPE"; "MESSAGE_TOO_SHORT"; "MESSAGE_TOO_LONG"; "EMPTY_MESSAGE";
   "BLOCKED_PATTERN"; "NOT_ALLOWED_PATTERN"; "PROFANITY_DETECTED";
   "HARMFUL_CONTENT"; "POLICY_VIOLATION"].

Definition outputCodes : list string :=
  ["RESPONSE_TOO_LONG"; "BLOCKED_PATTERN"; "NOT_ALLOWED_PATTERN"; "POLICY_VIOLATION"].

(** The reason and code inside the details of a log record. *)
Definition detailsCode (d : Details) : option (string * string) :=
  match d with
  | DValidation (Invalid r c) => Some (r, c)
  | DBlocked (Blocked _ r c) => Some (r, c)
  | DProfanity (Profanity _ r c) => Some (r, c)
  | DHarmful (Harmful r c) => Some (r, c)
  | DPolicy (Failed _ r c) => Some (r, c)
  | _ => None
  end.

(** The RegExp objects that an engine refers to. *)
Definition mentions (e : Engine) (l : loc) : Prop :=
  In (PRegExp l)
     (blockedPatterns (config e) ++ allowedList e
        ++ profanityPatterns e ++ harmfulPatterns e).


(** The predicate of a policy returns [undefined] or [null]. *)
Definition returnsNothing (p : Policy) (content : string) (context : Context) : Prop :=
  match p with
  | PFunction _ f => f content context = Returns RNullish
  | PObject _ _ (Some chk) => chk content context = Returns RNullish
  | _ => False
  end.

(** Two partial updates as one: the keys of the second win. *)
Definition overlay (o1 o2 : Options) : Options :=
  {| opt_maxMessageLength := override (opt_maxMessageLength o2) (opt_maxMessageLength o1);
     opt_minMessageLength := override (opt_minMessageLength o2) (opt_minMessageLength o1);
     opt_enableContentFilter :=
       override (opt_enableContentFilter o2) (opt_enableContentFilter o1);
     opt_blockedPatterns := override (opt_blockedPatterns o2) (opt_blockedPatterns o1);
     opt_allowedPatterns := override (opt_allowedPatterns o2) (opt_allowedPatterns o1);
     opt_enableProfanityFilter :=
       override (opt_enableProfanityFilter o2) (opt_enableProfanityFilter o1);
     opt_enableOutputModeration :=
       override (opt_enableOutputModeration o2) (opt_enableOutputModeration o1);
     opt_maxResponseLength :=
       override (opt_maxResponseLength o2) (opt_maxResponseLength o1);
     opt_policies := override (opt_policies o2) (opt_policies o1);
     opt_logViolations := override (opt_logViolations o2) (opt_logViolations o1);
     opt_violationAction := override (opt_violationAction o2) (opt_violationAction o1);
     opt_profanityPatterns :=
       override (opt_profanityPatterns o2) (opt_profanityPatterns o1);
     opt_harmfulPatterns := override (opt_harmfulPatterns o2) (opt_harmfulPatterns o1) |}.

(** The defaults of the constructor. *)
Definition defaultConfig : Config :=
  mkConfig 10000 1 true [] None true true 50000 (Some []) true Reject None None.

(** *** Steps on the state *)

(** A step keeps a relation between the state before it and the state
    after it, whether it returns or throws. *)
Definition keeps {A} (P : St -> St -> Prop) (m : Run A) : Prop :=
  forall st, P st (snd (m st)).

(** The state changes at most in the [lastIndex] of the objects in [L]
    and by records in [W] added at the end of the console. *)
Definition touchesOnly (L : loc -> Prop) (W : LogRecord -> Prop) (st st' : St) : Prop :=
  nextLoc st' = nextLoc st
  /\ sameObjects st st'
  /\ (forall l, ~ L l -> heap st' l = heap st l)
  /\ exists logs, console st' = console st ++ logs /\ Forall W logs.

(** The violation types that the two pipelines log. *)
Definition inputLogTypes : list string :=
  ["input_validation"; "blocked_pattern"; "profanity"; "harmful_content";
   "policy_violation"].

Definition outputLogTypes : list string :=
  ["output_blocked_pattern"; "output_policy_violation"].

(** The records that an engine can write, with a type among [types]. *)
Definition writes (e : Engine) (types : list string) (r : LogRecord) : Prop :=
  logViolations (config e) = true /\ In (type r) types.

(** The RegExp objects of the pattern filter. *)
Definition filterObjects (e : Engine) (l : loc) : Prop :=
  In (PRegExp l) (blockedPatterns (config e) ++ allowedList e).

Definition profanityObjects (e : Engine) (l : loc) : Prop :=
  In (PRegExp l) (profanityPatterns e).

Definition harmfulObjects (e : Engine) (l : loc) : Prop :=
  In (PRegExp l) (harmfulPatterns e).

(** Two RegExp objects are alike when they differ at most in a
    [lastIndex] that no search reads: that of a regex with neither [g]
    nor [y]. *)
Definition sameShape (R R2 : RegExp) : Prop := shape R = shape R2.

Definition alike (R R2 : RegExp) : Prop :=
  shape R = shape R2 /\ (stateful R = true -> lastIndex R = lastIndex R2).

(** Two objects of one shape whose [match] starts from [lastIndex] 0. *)
Definition resetting (R R2 : RegExp) : Prop := shape R = shape R2 /\ resets R2.

Definition related (Rel : RegExp -> RegExp -> Prop) (L : loc -> Prop) (st st2 : St) : Prop :=
  forall l, L l -> Rel (heap st l) (heap st2 l).

(** A step respects a relation on the objects in [L] when, from related
    states, it gives the same result and related states. *)
Definition respects {A} (Rel : RegExp -> RegExp -> Prop) (L : loc -> Prop) (m : Run A)
    : Prop :=
  forall st st2,
    related Rel L st st2 ->
    fst (m st) = fst (m st2) /\ related Rel L (snd (m st)) (snd (m st2)).

(** *** The runs of [moderateInput] that return *)

(** The state after [_logViolation]. *)
Definition logged (e : Engine) (type : string) (details : Details) (st : St) : St :=
  snd (_logViolation e type details st).

(** The state after the profanity step when the pipeline goes on: a hit
    is logged. *)
Definition afterProfanity (e : Engine) (pc : ProfanityCheck) (st : St) : St :=
  match pc with
  | NoProfanity => st
  | Profanity _ _ _ => logged e "profanity" (DProfanity pc) st
  end.

(** The pipeline goes on after the profanity step. *)
Definition goesOn (e : Engine) (pc : ProfanityCheck) : Prop :=
  pc = NoProfanity \/ violationAction (config e) <> Reject.

Inductive InputPath (parse : string -> option regex) (e : Engine) (m : Message) (st : St)
    : Verdict -> St -> Prop :=
| StopValidation reason code :
    validateInput e m = Invalid reason code ->
    InputPath parse e m st (deny e reason code None None)
      (logged e "input_validation" (DValidation (Invalid reason code)) st)
| StopBlocked pat reason code st1 :
    validateInput e m = Valid ->
    checkBlockedPatterns parse e (textOf m) st = (Normal (Blocked pat reason code), st1) ->
    InputPath parse e m st (deny e reason code None None)
      (logged e "blocked_pattern" (DBlocked (Blocked pat reason code)) st1)
| StopProfanity ms reason code st1 st2 :
    validateInput e m = Valid ->
    checkBlockedPatterns parse e (textOf m) st = (Normal NotBlocked, st1) ->
    checkProfanity parse e (textOf m) st1 = (Normal (Profanity ms reason code), st2) ->
    violationAction (config e) = Reject ->
    InputPath parse e m st (deny e reason code (Some ms) None)
      (logged e "profanity" (DProfanity (Profanity ms reason code)) st2)
| StopHarmful pc reason code st1 st2 st3 :
    validateInput e m = Valid ->
    checkBlockedPatterns parse e (textOf m) st = (Normal NotBlocked, st1) ->
    checkProfanity parse e (textOf m) st1 = (Normal pc, st2) ->
    goesOn e pc ->
    checkHarmfulContent e (textOf m) (afterProfanity e pc st2)
    = (Normal (Harmful reason code), st3) ->
    InputPath parse e m st (deny e reason code None None)
      (logged e "harmful_content" (DHarmful (Harmful reason code)) st3)
| StopPolicy pc vs reason code st1 st2 st3 :
    validateInput e m = Valid ->
    checkBlockedPatterns parse e (textOf m) st = (Normal NotBlocked, st1) ->
    checkProfanity parse e (textOf m) st1 = (Normal pc, st2) ->
    goesOn e pc ->
    checkHarmfulContent e (textOf m) (afterProfanity e pc st2) = (Normal NotHarmful, st3) ->
    applyPolicies e (textOf m) Input = Normal (Failed vs reason code) ->
    InputPath parse e m st (deny e reason code None (Some vs))
      (logged e "policy_violation" (DPolicy (Failed vs reason code)) st3)
| Pass pc st1 st2 st3 :
    validateInput e m = Valid ->
    checkBlockedPatterns parse e (textOf m) st = (Normal NotBlocked, st1) ->
    checkProfanity parse e (textOf m) st1 = (Normal pc, st2) ->
    goesOn e pc ->
    checkHarmfulContent e (textOf m) (afterProfanity e pc st2) = (Normal NotHarmful, st3) ->
    applyPolicies e (textOf m) Input = Normal Passed ->
    InputPath parse e m st Allowed st3.

(** An engine whose only pattern is the allowlist regex [/^HELLO/i], the
    object 4 of [Examples.stocked]. *)
Definition startOnly : Engine :=
  mkEngine (config Examples.greeterStart) [] [].

(** [Examples.stocked] and [Examples.ready] after a search has left a
    [lastIndex] of 3 in the allowlist regex and in the profanity regex. *)
Definition moved : St := setHeap 4 (setLastIndex 3 Examples.helloStart) Examples.stocked.

Definition shifted : St := setHeap 0 (setLastIndex 3 defaultProfanity) Examples.ready.

(** [harmfulPatterns: [/\b(kill|...)\b/gi, 'attack']]: a string among the
    harmful patterns. *)
Definition stringly : Engine :=
  mkEngine Examples.defaults [PRegExp 0] [PRegExp 1; PString "attack"].


End Notions.

(** ** The ChatClient class *)

Module ChatClient.

Import JSString Guardrails.

(** A number such as 0.7, as a decimal fraction: [digits / 10 ^ scale]. *)
Record Decimal : Type := mkDecimal {
  digits : Z;
  scale : nat
}.

(** An optional field that the code tells apart from [null]. *)
Inductive Given (A : Type) : Type :=
| Undefined
| Null
| Value (a : A).
Arguments Undefined {A}.
Arguments Null {A}.
Arguments Value {A} a.

(** [x ?? d] *)
Definition orNullish {A} (x : Given A) (d : option A) : option A :=
  match x with
  | Value a => Some a
  | _ => d
  end.

(** The options of the constructor and of [configure]: [None] is an absent
    key. *)
Record ClientOptions : Type := mkClientOptions {
  opt_apiKey : option string;
  opt_model : option string;
  opt_temperature : Given Decimal;
  opt_maxTokens : option Z;
  opt_systemPrompt : option string
}.

(** An instance; [temperature] can hold [null] ([None]). The Groq handle
    is stood for by the key it was made with. *)
Record Client : Type := mkClient {
  apiKey : string;
  model : string;
  temperature : option Decimal;
  maxTokens : Z;
  systemPrompt : string
}.

(** The constructor: [inl] is the message of the Error it throws. *)
Definition constructor (options : ClientOptions) : string + Client :=
  match opt_apiKey options with
  | Some key =>
      if isEmpty key then inl "Groq API key is required"
      else
        inr {| apiKey := key;
               model := orString (opt_model options) "llama-3.3-70b-versatile";
               temperature := orNullish (opt_temperature options) (Some (mkDecimal 7 1));
               maxTokens := orNumber (opt_maxTokens options) 2048;
               systemPrompt := orString (opt_systemPrompt options)
                                 "You are a helpful assistant." |}
  | None => inl "Groq API key is required"
  end.

Definition configure (c : Client) (options : ClientOptions) : Client :=
  {| apiKey := apiKey c;
     model := orString (opt_model options) (model c);
     temperature := match opt_temperature options with
                    | Undefined => temperature c
                    | Null => None
                    | Value t => Some t
                    end;
     maxTokens := orNumber (opt_maxTokens options) (maxTokens c);
     systemPrompt := orString (opt_systemPrompt options) (systemPrompt c) |}.

(** A message object as the callers pass it: its role and content, and
    the timestamp that the server keeps with it. *)
Record Entry : Type := mkEntry {
  role : string;
  content : string;
  timestamp : option string
}.

(** A message as it is sent to the API. *)
Record ApiMessage : Type := mkApiMessage {
  api_role : string;
  api_content : string
}.

Definition isSystem (m : Entry) : bool := String.eqb (role m) "system".

(** [formatted.push({role: msg.role, content: msg.content})] for every
    message. *)
Fixpoint pushAll (formatted : list ApiMessage) (messages : list Entry) : list ApiMessage :=
  match messages with
  | [] => formatted
  | msg :: rest => pushAll (formatted ++ [mkApiMessage (role msg) (content msg)]) rest
  end.

Definition _formatMessages (c : Client) (messages : list Entry) : list ApiMessage :=
  let formatted :=
    if negb (existsb isSystem messages)
    then [mkApiMessage "system" (systemPrompt c)]
    else [] in
  pushAll formatted messages.

(** The options of one request; [co_extra] is the spread of
    [options.extra] over the request (the identity when there is none). *)
Record Request : Type := mkRequest {
  req_model : string;
  req_messages : list ApiMessage;
  req_temperature : option Decimal;
  req_max_tokens : Z;
  req_stream : bool
}.

Record CallOptions : Type := mkCallOptions {
  co_model : option string;
  co_temperature : Given Decimal;
  co_maxTokens : option Z;
  co_extra : Request -> Request
}.

Definition request (c : Client) (messages : list Entry) (options : CallOptions)
    (stream : bool) : Request :=
  co_extra options
    {| req_model := orString (co_model options) (model c);
       req_messages := _formatMessages c messages;
       req_temperature := orNullish (co_temperature options) (temperature c);
       req_max_tokens := orNumber (co_maxTokens options) (maxTokens c);
       req_stream := stream |}.

(** An error of the API: its message and its code, if it has one. *)
Record ApiError : Type := mkApiError {
  err_message : string;
  err_code : option string
}.

(** What the API does with a streaming request: the chunks that it
    delivers, each with the content of the delta of its first choice if
    there is one, and then the end of the stream or an error. An error
    before any chunk includes a [create] call that fails. *)
Record Stream : Type := mkStream {
  chunks : list (option string);
  failure : option ApiError
}.

(** The objects that [streamChat] passes to [onChunk]. *)
Inductive Call : Type :=
| Chunk (content : string)
| Done (fullContent : string)
| Errored (message : string).

Inductive StreamResult : Type :=
| Success (content : string)
| Failure (message code : string).

(** The loop [for await (const chunk of stream)]: the content so far and
    the calls of [onChunk] so far. The callback is taken to return. *)
Fixpoint consume (chunks : list (option string)) (fullContent : string)
    (calls : list Call) : string * list Call :=
  match chunks with
  | [] => (fullContent, calls)
  | chunk :: rest =>
      let content := orString chunk "" in
      if isEmpty content then consume rest fullContent calls
      else consume rest (fullContent ++ content)%string (calls ++ [Chunk content])
  end.

(** [streamChat]: the calls of [onChunk], in order, and the result. *)
Definition streamChat (c : Client) (messages : list Entry) (options : CallOptions)
    (api : Request -> Stream) : list Call * StreamResult :=
  let stream := api (request c messages options true) in
  let (fullContent, calls) := consume (chunks stream) "" [] in
  match failure stream with
  | None => (calls ++ [Done fullContent], Success fullContent)
  | Some error =>
      (calls ++ [Errored (err_message error)],
       Failure (err_message error) (orString (err_code error) "UNKNOWN_ERROR"))
  end.

(** *** Notions *)

(** A message without the fields that the API does not take. *)
Definition strip (m : Entry) : ApiMessage := mkApiMessage (role m) (content m).

(** An API message read as a message object again. *)
Definition entryOf (m : ApiMessage) : Entry := mkEntry (api_role m) (api_content m) None.

(** The texts of the content calls. *)
Definition delivered (calls : list Call) : list string :=
  flat_map (fun c => match c with Chunk t => [t] | _ => [] end) calls.

(** The contents that the loop passes on: those that are not empty. *)
Definition contents (chunks : list (option string)) : list string :=
  flat_map (fun chunk =>
              match chunk with
              | Some t => if isEmpty t then [] else [t]
              | None => []
              end) chunks.

Definition joined (ts : list string) : string := fold_right String.append "" ts.

(** The settings that every request needs: a model name, a token limit
    other than 0, and a system prompt. *)
Definition usable (c : Client) : Prop :=
  model c <> "" /\ maxTokens c <> 0%Z /\ systemPrompt c <> "" /\ apiKey c <> "".

(** No options at all, and options that only unset the temperature. *)
Definition noClientOptions : ClientOptions := mkClientOptions None None Undefined None None.

Definition plainCall : CallOptions := mkCallOptions None Undefined None (fun r => r).

End ChatClient.

(** ** The ChatServer class *)

(** A JavaScript [Map] with string keys: the entries in insertion order,
    every key once. *)
Module JSMap.

Definition Map (V : Type) : Type := list (string * V).

Fixpoint Map_get {V} (m : Map V) (k : string) : option V :=
  match m with
  | [] => None
  | (k', v) :: rest => if String.eqb k' k then Some v else Map_get rest k
  end.

Definition Map_has {V} (m : Map V) (k : string) : bool :=
  match Map_get m k with
  | Some _ => true
  | None => false
  end.

(** [m.set(k, v)]: an existing key keeps its place. *)
Fixpoint Map_set {V} (m : Map V) (k : string) (v : V) : Map V :=
  match m with
  | [] => [(k, v)]
  | (k', v') :: rest =>
      if String.eqb k' k then (k', v) :: rest else (k', v') :: Map_set rest k v
  end.

(** [m.delete(k)]: whether the key was there, and the map without it. *)
Fixpoint Map_delete {V} (m : Map V) (k : string) : bool * Map V :=
  match m with
  | [] => (false, [])
  | (k', v') :: rest =>
      if String.eqb k' k then (true, rest)
      else let (found, rest') := Map_delete rest k in (found, (k', v') :: rest')
  end.

Definition Map_values {V} (m : Map V) : list V := map snd m.

Definition Map_keys {V} (m : Map V) : list string := map fst m.

End JSMap.

Module ChatServer.

Import JSString Guardrails JSMap.

(** The keys of the configuration that the handlers read. *)
Record ServerConfig : Type := mkServerConfig {
  cfg_systemPrompt : string;
  cfg_maxConversationHistory : Z;
  cfg_rateLimit : Z
}.

(** The defaults of [config.js]. *)
Definition defaultConfig : ServerConfig :=
  mkServerConfig "You are a helpful assistant." 50 60.

(** A conversation object. *)
Record Conversation : Type := mkConversation {
  id : string;
  messages : list ChatClient.Entry;
  systemPrompt : string;
  createdAt : string;
  updatedAt : string
}.

Definition ref := nat.

(** The server: its configuration, the conversation objects that exist
    (an object stays when the map forgets it), the map from ids to
    objects, the admitted request times of every session, and the system
    prompt of its chat client. *)
Record Server : Type := mkServer {
  config : ServerConfig;
  objects : ref -> Conversation;
  nextRef : ref;
  conversations : Map ref;
  rateLimits : Map (list Z);
  clientPrompt : string
}.

Definition setObjects (objs : ref -> Conversation) (srv : Server) : Server :=
  {| config := config srv; objects := objs; nextRef := nextRef srv;
     conversations := conversations srv; rateLimits := rateLimits srv;
     clientPrompt := clientPrompt srv |}.

Definition setRateLimits (limits : Map (list Z)) (srv : Server) : Server :=
  {| config := config srv; objects := objects srv; nextRef := nextRef srv;
     conversations := conversations srv; rateLimits := limits;
     clientPrompt := clientPrompt srv |}.

Definition setConversations (convs : Map ref) (srv : Server) : Server :=
  {| config := config srv; objects := objects srv; nextRef := nextRef srv;
     conversations := convs; rateLimits := rateLimits srv;
     clientPrompt := clientPrompt srv |}.

Definition setClientPrompt (prompt : string) (srv : Server) : Server :=
  {| config := config srv; objects := objects srv; nextRef := nextRef srv;
     conversations := conversations srv; rateLimits := rateLimits srv;
     clientPrompt := prompt |}.

(** A new conversation object, stored under its id. The two dates are
    two readings of the clock. *)
Definition newConversation (srv : Server) (convId prompt created updated : string)
    : Server * ref :=
  let r := nextRef srv in
  ({| config := config srv;
      objects := <[r := mkConversation convId [] prompt created updated]> (objects srv);
      nextRef := S r;
      conversations := Map_set (conversations srv) convId r;
      rateLimits := rateLimits srv;
      clientPrompt := clientPrompt srv |}, r).

(** The conversation that the map has for an id. *)
Definition find (srv : Server) (convId : string) : option Conversation :=
  option_map (objects srv) (Map_get (conversations srv) convId).

(** [_checkRateLimit]: [now] is the reading of [Date.now()]. *)
Definition _checkRateLimit (srv : Server) (sessionId : string) (now : Z) : bool * Server :=
  let windowMs := 60000%Z in
  let limits :=
    if negb (Map_has (rateLimits srv) sessionId)
    then Map_set (rateLimits srv) sessionId []
    else rateLimits srv in
  let timestamps := match Map_get limits sessionId with Some ts => ts | None => [] end in
  let validTimestamps := List.filter (fun t => (now - t <? windowMs)%Z) timestamps in
  if (Z.of_nat (List.length validTimestamps) >=? cfg_rateLimit (config srv))%Z
  then (false, setRateLimits limits srv)
  else (true, setRateLimits (Map_set limits sessionId (validTimestamps ++ [now])) srv).

(** [xs.slice(start)] *)
Definition Array_slice {A} (start : Z) (xs : list A) : list A :=
  let len := Z.of_nat (List.length xs) in
  let k := if (start <? 0)%Z then Z.max (len + start) 0 else Z.min start len in
  skipn (Z.to_nat k) xs.

(** The messages that the chat handlers send: the system prompt of the
    conversation and the last [maxConversationHistory] messages. *)
Definition apiMessages (srv : Server) (conversation : Conversation)
    : list ChatClient.Entry :=
  ChatClient.mkEntry "system" (systemPrompt conversation) None
  :: map (fun m => ChatClient.mkEntry (ChatClient.role m) (ChatClient.content m) None)
         (Array_slice (- cfg_maxConversationHistory (config srv)) (messages conversation)).

(** [conversation.messages.push({role, content, timestamp})] on the
    object [r]. *)
Definition pushMessage (r : ref) (role content date : string) (srv : Server) : Server :=
  let c := objects srv r in
  setObjects
    (<[r := mkConversation (id c)
              (messages c ++ [ChatClient.mkEntry role content (Some date)])
              (systemPrompt c) (createdAt c) (updatedAt c)]> (objects srv))
    srv.

Definition touch (r : ref) (date : string) (srv : Server) : Server :=
  let c := objects srv r in
  setObjects
    (<[r := mkConversation (id c) (messages c) (systemPrompt c) (createdAt c) date]>
       (objects srv))
    srv.

(** What the chat client reports when the request is over. *)
Inductive ChatResult : Type :=
| Succeeded (content : string)
| Failed (error : ChatClient.ApiError).

(** The responses of the routes. *)
Inductive Reply : Type :=
| Created (conversationId : string)
| Found (conversation : Conversation)
| NotFound
| Deleted (success : bool)
| MessageRequired
| RateLimited
| Answered (conversationId content : string)
| SimpleAnswered (content : string)
| ApiFailed (error : ChatClient.ApiError)
| Streamed (conversationId : string).

Definition status (r : Reply) : nat :=
  match r with
  | NotFound => 404
  | MessageRequired => 400
  | RateLimited => 429
  | ApiFailed _ => 500
  | _ => 200
  end.

(** POST /conversation; [uuid] is the value of [uuidv4()] and [date n]
    the n-th reading of the clock in the handler. *)
Definition postConversation (srv : Server) (bodyPrompt : option string) (uuid : string)
    (date : nat -> string) : Server * Reply :=
  let (srv', _) :=
    newConversation srv uuid (orString bodyPrompt (cfg_systemPrompt (config srv)))
                    (date 0) (date 1) in
  (srv', Created uuid).

(** GET /conversation/:id *)
Definition getConversation (srv : Server) (convId : string) : Reply :=
  match find srv convId with
  | Some conversation => Found conversation
  | None => NotFound
  end.

(** DELETE /conversation/:id *)
Definition deleteConversation (srv : Server) (convId : string) : Server * Reply :=
  let (deleted, convs) := Map_delete (conversations srv) convId in
  (setConversations convs srv, Deleted deleted).

(** GET /conversations: id, message count and the two dates of every
    conversation. *)
Definition listConversations (srv : Server) : list (string * nat * string * string) :=
  map (fun r => let c := objects srv r in
                (id c, List.length (messages c), createdAt c, updatedAt c))
      (Map_values (conversations srv)).

(** POST /chat up to the request to the API: a response, or the request
    with the id and the object of the conversation it belongs to. *)
Inductive Begin : Type :=
| Respond (r : Reply)
| Ask (convId : string) (conversation : ref) (sent : list ChatClient.Entry).

Definition known (srv : Server) (conversationId : option string) : option (string * ref) :=
  match conversationId with
  | Some convId =>
      if isEmpty convId then None
      else match Map_get (conversations srv) convId with
           | Some r => Some (convId, r)
           | None => None
           end
  | None => None
  end.

Definition chatBegin (srv : Server) (message conversationId : option string)
    (uuid : string) (now : Z) (date : nat -> string) : Server * Begin :=
  if isEmpty (orString message "") then (srv, Respond MessageRequired)
  else
    let '(srv1, convId, r, reads) :=
      match known srv conversationId with
      | Some (convId, r) => (srv, convId, r, 0)
      | None =>
          let (srv', r) :=
            newConversation srv uuid (cfg_systemPrompt (config srv)) (date 0) (date 1) in
          (srv', uuid, r, 2)
      end in
    let (ok, srv2) := _checkRateLimit srv1 convId now in
    if negb ok then (srv2, Respond RateLimited)
    else
      let srv3 := pushMessage r "user" (orString message "") (date reads) srv2 in
      (srv3, Ask convId r (apiMessages srv3 (objects srv3 r))).

(** POST /chat after the chat client has answered. *)
Definition chatEnd (srv : Server) (convId : string) (r : ref) (stream : bool)
    (result : ChatResult) (date : nat -> string) : Server * Reply :=
  match result with
  | Succeeded content =>
      (touch r (date 1) (pushMessage r "assistant" content (date 0) srv),
       if stream then Streamed convId else Answered convId content)
  | Failed error =>
      (srv, if stream then Streamed convId else ApiFailed error)
  end.

(** POST /chat/simple: the prompt of the chat client is replaced for the
    time of the request, and set to the configured one afterwards. *)
Definition simpleBegin (srv : Server) (message bodyPrompt : option string)
    : Server * option (list ChatClient.Entry) :=
  if isEmpty (orString message "") then (srv, None)
  else
    let srv' :=
      if isEmpty (orString bodyPrompt "") then srv
      else setClientPrompt (orString bodyPrompt "") srv in
    (srv', Some [ChatClient.mkEntry "user" (orString message "") None]).

Definition simpleEnd (srv : Server) (result : ChatResult) : Server * Reply :=
  (setClientPrompt (cfg_systemPrompt (config srv)) srv,
   match result with
   | Succeeded content => SimpleAnswered content
   | Failed error => ApiFailed error
   end).

(** The WebSocket messages 'configure' and 'clear' of a session. *)
Definition _handleWebSocketConfigure (srv : Server) (sessionId : string)
    (payloadPrompt : option string) : Server :=
  match Map_get (conversations srv) sessionId with
  | Some r =>
      if isEmpty (orString payloadPrompt "") then srv
      else
        let c := objects srv r in
        setObjects
          (<[r := mkConversation (id c) (messages c) (orString payloadPrompt "")
                    (createdAt c) (updatedAt c)]> (objects srv))
          srv
  | None => srv
  end.

Definition _handleWebSocketClear (srv : Server) (sessionId : string) (date : string)
    : Server :=
  match Map_get (conversations srv) sessionId with
  | Some r =>
      let c := objects srv r in
      setObjects
        (<[r := mkConversation (id c) [] (systemPrompt c) (createdAt c) date]>
           (objects srv))
        srv
  | None => srv
  end.

(** *** Notions *)

(** A sequence of rate-limit checks, each for a session at a time: the
    checks with their answers, and the server afterwards. *)
Fixpoint serve (srv : Server) (calls : list (string * Z))
    : list (string * Z * bool) * Server :=
  match calls with
  | [] => ([], srv)
  | (sessionId, now) :: rest =>
      let (ok, srv1) := _checkRateLimit srv sessionId now in
      let (answers, srv2) := serve srv1 rest in
      ((sessionId, now, ok) :: answers, srv2)
  end.

(** The times of the admitted checks of a session. *)
Definition admitted (sessionId : string) (answers : list (string * Z * bool)) : list Z :=
  flat_map (fun a => match a with
                     | (s, t, ok) => if String.eqb s sessionId && ok then [t] else []
                     end) answers.

(** The admitted times that lie less than a minute before [now]. *)
Definition recent (now : Z) (times : list Z) : list Z :=
  List.filter (fun t => (now - t <? 60000)%Z) times.

(** The clock does not run backwards. *)
Fixpoint ascending (last : Z) (calls : list (string * Z)) : Prop :=
  match calls with
  | [] => True
  | (_, now) :: rest => (last <= now)%Z /\ ascending now rest
  end.

Definition timesOf (srv : Server) (sessionId : string) : list Z :=
  match Map_get (rateLimits srv) sessionId with
  | Some ts => ts
  | None => []
  end.

(** A server that has served nothing yet. Its chat client is built from
    the configured system prompt and takes its own default when that is
    empty. *)
Definition fresh (c : ServerConfig) : Server :=
  mkServer c (fun _ => mkConversation "" [] "" "" "") 0 [] []
    (orString (Some (cfg_systemPrompt c)) "You are a helpful assistant.").

(** The map names every id once, and only objects that exist. *)
Definition wellKept (srv : Server) : Prop :=
  List.NoDup (Map_keys (conversations srv))
  /\ Forall (fun r => r < nextRef srv) (Map_values (conversations srv)).

End ChatServer.

(** ** The Guardrails settings of [config.js] *)

Module Settings.

Import Guardrails.

(** An option that is absent, or spelled out with the given value. *)
Definition unsetOr {A} (o : option A) (d : A) : Prop := o = None \/ o = Some d.

(** Options that only spell out defaults of the constructor. *)
Definition spellsDefaults (o : Options) : Prop :=
  unsetOr (opt_maxMessageLength o) 10000%Z
  /\ unsetOr (opt_minMessageLength o) 1%Z
  /\ unsetOr (opt_enableContentFilter o) true
  /\ unsetOr (opt_blockedPatterns o) []
  /\ unsetOr (opt_allowedPatterns o) None
  /\ unsetOr (opt_enableProfanityFilter o) true
  /\ unsetOr (opt_enableOutputModeration o) true
  /\ unsetOr (opt_maxResponseLength o) 50000%Z
  /\ unsetOr (opt_policies o) (Some [])
  /\ unsetOr (opt_logViolations o) true
  /\ unsetOr (opt_violationAction o) Reject
  /\ opt_profanityPatterns o = None
  /\ opt_harmfulPatterns o = None.

(** [defaultConfig.guardrails] *)
Definition guardrailsSettings : Options :=
  mkOptions (Some 10000%Z) (Some 1%Z) (Some true) (Some []) (Some None) (Some true)
            (Some true) (Some 50000%Z) (Some (Some [])) (Some true) (Some Reject)
            None None.

End Settings.
(** * Properties *)

(** ** The matcher only moves forward *)

Module RegexFacts.

Import JSString Regex.

Lemma rounds_forward step :
  (forall i c x, In x (step i c) -> i <= fst x) ->
  forall n i c x, In x (rounds step n i c) -> i <= fst x.
Proof.
  intros Hstep n. induction n as [|n IH]; intros i c x Hx; simpl in Hx.
  - destruct Hx as [<-|[]]. simpl. lia.
  - apply in_app_or in Hx. destruct Hx as [Hx|[<-|[]]]; [|simpl; lia].
    apply in_flat_map in Hx. destruct Hx as (y & Hy & Hx).
    unfold progress in Hx. destruct (fst y =? i); [destruct Hx|].
    apply Hstep in Hy. apply IH in Hx. lia.
Qed.

Lemma run_forward s ic r :
  forall i c x, In x (run s ic r i c) -> i <= fst x.
Proof.
  induction r as [|a| |a IHa b IHb|a IHa b IHb|a IHa|a IHa|n a IHa| | |];
    intros i c x Hx; simpl in Hx.
  - destruct Hx as [<-|[]]. simpl. lia.
  - destruct (get i s); [|destruct Hx].
    destruct (Ascii.eqb _ _); [|destruct Hx].
    destruct Hx as [<-|[]]. simpl. lia.
  - destruct (get i s) as [b|]; [|destruct Hx].
    destruct (isLineTerminator b); [destruct Hx|].
    destruct Hx as [<-|[]]. simpl. lia.
  - apply in_flat_map in Hx. destruct Hx as (y & Hy & Hx).
    apply IHa in Hy. apply IHb in Hx. lia.
  - apply in_app_or in Hx. destruct Hx as [Hx|Hx]; eauto.
  - revert Hx. apply rounds_forward. intros j c' y Hy. eapply IHa, Hy.
  - apply in_app_or in Hx. destruct Hx as [Hx|[<-|[]]]; [|simpl; lia].
    apply in_flat_map in Hx. destruct Hx as (y & Hy & Hx).
    unfold progress in Hx. destruct (fst y =? i); [destruct Hx|].
    destruct Hx as [<-|[]]. simpl. eapply IHa, Hy.
  - apply in_map_iff in Hx. destruct Hx as (y & <- & Hy). simpl. eapply IHa, Hy.
  - destruct (isWordBoundary s i); [|destruct Hx].
    destruct Hx as [<-|[]]. simpl. lia.
  - destruct (i =? 0); [|destruct Hx].
    destruct Hx as [<-|[]]. simpl. lia.
  - destruct (i =? String.length s); [|destruct Hx].
    destruct Hx as [<-|[]]. simpl. lia.
Qed.

Lemma matchAt_forward s ic r i e c :
  matchAt s ic r i = Some (e, c) -> i <= e.
Proof.
  unfold matchAt. intros H.
  destruct (run s ic r i noCaptures) as [|x l] eqn:E; [discriminate|].
  simpl in H. injection H as ->.
  change e with (fst (e, c)). apply (run_forward s ic r i noCaptures).
  rewrite E. now left.
Qed.

Lemma scan_bounds s ic r n :
  forall i b e c, scan s ic r i n = Some (b, e, c) -> i <= b /\ b <= e.
Proof.
  induction n as [|n IH]; intros i b e c H; simpl in H; [discriminate|].
  destruct (matchAt s ic r i) as [[e' c']|] eqn:E.
  - injection H as <- <- <-. apply matchAt_forward in E. lia.
  - apply IH in H. lia.
Qed.

Lemma get_length s : forall i c, get i s = Some c -> i < String.length s.
Proof.
  induction s as [|a s IH]; intros [|i] c H; simpl in *; try discriminate; try lia.
  apply IH in H. lia.
Qed.

(** A match never ends beyond the text. *)
Lemma rounds_inside step len :
  (forall i c x, i <= len -> In x (step i c) -> fst x <= len) ->
  forall n i c x, i <= len -> In x (rounds step n i c) -> fst x <= len.
Proof.
  intros Hstep n. induction n as [|n IH]; intros i c x Hi Hx; simpl in Hx.
  - destruct Hx as [<-|[]]. exact Hi.
  - apply in_app_or in Hx. destruct Hx as [Hx|[<-|[]]]; [|exact Hi].
    apply in_flat_map in Hx. destruct Hx as (y & Hy & Hx).
    unfold progress in Hx. destruct (fst y =? i); [destruct Hx|].
    apply Hstep in Hy; [|exact Hi]. apply IH in Hx; assumption.
Qed.

Lemma run_inside s ic r :
  forall i c x, i <= String.length s -> In x (run s ic r i c) ->
                fst x <= String.length s.
Proof.
  induction r as [|a| |a IHa b IHb|a IHa b IHb|a IHa|a IHa|n a IHa| | |];
    intros i c x Hi Hx; simpl in Hx.
  - destruct Hx as [<-|[]]. exact Hi.
  - destruct (get i s) eqn:G; [|destruct Hx]. apply get_length in G.
    destruct (Ascii.eqb _ _); [|destruct Hx].
    destruct Hx as [<-|[]]. simpl. lia.
  - destruct (get i s) as [b|] eqn:G; [|destruct Hx]. apply get_length in G.
    destruct (isLineTerminator b); [destruct Hx|].
    destruct Hx as [<-|[]]. simpl. lia.
  - apply in_flat_map in Hx. destruct Hx as (y & Hy & Hx).
    apply IHa in Hy; [|exact Hi]. apply IHb in Hx; assumption.
  - apply in_app_or in Hx. destruct Hx as [Hx|Hx]; eauto.
  - revert Hx. apply rounds_inside; [|exact Hi].
    intros j c' y Hj Hy. eapply IHa; eassumption.
  - apply in_app_or in Hx. destruct Hx as [Hx|[<-|[]]]; [|exact Hi].
    apply in_flat_map in Hx. destruct Hx as (y & Hy & Hx).
    unfold progress in Hx. destruct (fst y =? i); [destruct Hx|].
    destruct Hx as [<-|[]]. simpl. eapply IHa; eassumption.
  - apply in_map_iff in Hx. destruct Hx as (y & <- & Hy). simpl.
    eapply IHa; eassumption.
  - destruct (isWordBoundary s i); [|destruct Hx].
    destruct Hx as [<-|[]]. exact Hi.
  - destruct (i =? 0); [|destruct Hx].
    destruct Hx as [<-|[]]. exact Hi.
  - destruct (i =? String.length s); [|destruct Hx].
    destruct Hx as [<-|[]]. exact Hi.
Qed.

Lemma flat_map_same {A B} (f g : A -> list B) l :
  (forall x, In x l -> f x = g x) -> flat_map f l = flat_map g l.
Proof.
  induction l as [|x l IH]; intros H; simpl; [reflexivity|].
  rewrite H by now left. rewrite IH; [reflexivity|].
  intros y Hy. apply H. now right.
Qed.

(** The rounds of a star are counted by the characters left: a further
    round changes nothing. *)
Lemma rounds_exact step len :
  (forall i c x, In x (step i c) -> i <= fst x) ->
  (forall i c x, i <= len -> In x (step i c) -> fst x <= len) ->
  forall n i c, i <= len -> len - i <= n ->
                rounds step (S n) i c = rounds step n i c.
Proof.
  intros Hfwd Hin n. induction n as [|n IH]; intros i c Hi Hn.
  - simpl. replace (flat_map _ (step i c)) with (@nil (nat * captures));
      [reflexivity|].
    symmetry. rewrite (flat_map_same _ (fun _ => [])).
    + induction (step i c); simpl; auto.
    + intros y Hy. unfold progress.
      pose proof (Hfwd _ _ _ Hy). pose proof (Hin _ _ _ Hi Hy).
      replace (fst y =? i) with true by (symmetry; apply Nat.eqb_eq; lia).
      reflexivity.
  - change (rounds step (S (S n)) i c)
      with (flat_map (progress i (rounds step (S n))) (step i c) ++ [(i, c)]).
    change (rounds step (S n) i c)
      with (flat_map (progress i (rounds step n)) (step i c) ++ [(i, c)]).
    f_equal. apply flat_map_same. intros y Hy. unfold progress.
    destruct (fst y =? i) eqn:E; [reflexivity|].
    apply Nat.eqb_neq in E.
    pose proof (Hfwd _ _ _ Hy). pose proof (Hin _ _ _ Hi Hy).
    apply IH; lia.
Qed.

Lemma star_fuel_exact s ic a i c n :
  i <= String.length s -> String.length s - i <= n ->
  rounds (fun j c' => run s ic a j (clearCaptures (groups a) c')) n i c
  = run s ic (Star a) i c.
Proof.
  intros Hi Hn. simpl.
  induction Hn as [|n Hn IH]; [reflexivity|].
  rewrite <- IH. apply rounds_exact with (len := String.length s); try assumption.
  - intros j c' x Hx. eapply run_forward, Hx.
  - intros j c' x Hj Hx. eapply run_inside; eassumption.
Qed.

End RegexFacts.

(** ** The parser on the texts of the examples *)

Module ParserFacts.

Import Regex Parser Host Guardrails.

(** The sources of the two default patterns denote their matchers. *)
Lemma default_sources :
  parsePattern (source defaultProfanity) = Some (matcher defaultProfanity)
  /\ parsePattern (source defaultHarmful) = Some (matcher defaultHarmful).
Proof. split; reflexivity. Qed.

(** An unclosed group is not a pattern, however long the parser may run. *)
Lemma unclosed_group_rejected fuel :
  match disjunction fuel "(" 0 with
  | Some (_, EmptyString, _) => False
  | _ => True
  end.
Proof.
  do 5 (destruct fuel as [|fuel]; [exact I|]). exact I.
Qed.

End ParserFacts.

(** ** RegExp objects: what [exec], [test] and [match] do to [lastIndex] *)

Module HostFacts.

Import JSString Regex Host RegexFacts.

Lemma substring_zero s : forall i, substring i 0 s = "".
Proof.
  induction s as [|c s IH]; intros [|i]; simpl; auto.
Qed.

Lemma slice_same s i : slice s i i = "".
Proof. unfold slice. rewrite Nat.sub_diag. apply substring_zero. Qed.

Lemma shape_setLastIndex n R : shape (setLastIndex n R) = shape R.
Proof. reflexivity. Qed.

Lemma shape_global R R' : shape R' = shape R -> global R' = global R.
Proof. unfold shape. congruence. Qed.

Lemma shape_sticky R R' : shape R' = shape R -> sticky R' = sticky R.
Proof. unfold shape. congruence. Qed.

Lemma shape_stateful R R' : shape R' = shape R -> stateful R' = stateful R.
Proof.
  intros H. unfold stateful. now rewrite (shape_global _ _ H), (shape_sticky _ _ H).
Qed.

Lemma shape_matchesText R R' s :
  shape R' = shape R -> matchesText R' s = matchesText R s.
Proof.
  unfold shape, matchesText. intros H. injection H as _ -> _ -> ->. reflexivity.
Qed.

Lemma global_stateful R : global R = true -> stateful R = true.
Proof. unfold stateful. now intros ->. Qed.

Lemma stateless_flags R : stateful R = false -> global R = false /\ sticky R = false.
Proof. unfold stateful. now destruct (global R), (sticky R). Qed.

(** [exec] changes nothing but [lastIndex]. *)
Lemma exec_shape R s : shape (snd (RegExpBuiltinExec R s)) = shape R.
Proof.
  unfold RegExpBuiltinExec.
  destruct (String.length s <? _).
  - simpl. destruct (stateful R); reflexivity.
  - destruct (scan _ _ _ _ _) as [[[i e] c]|]; simpl;
      destruct (stateful R); reflexivity.
Qed.

(** Without [g] and [y], [exec] leaves the object as it is and does not
    read [lastIndex]. *)
Lemma exec_stateless R s :
  stateful R = false -> snd (RegExpBuiltinExec R s) = R.
Proof.
  intros H. unfold RegExpBuiltinExec. rewrite H.
  destruct (String.length s <? 0).
  - reflexivity.
  - destruct (scan _ _ _ _ _) as [[[i e] c]|]; reflexivity.
Qed.

Lemma exec_stateless_any n R s :
  stateful R = false ->
  fst (RegExpBuiltinExec (setLastIndex n R) s) = fst (RegExpBuiltinExec R s).
Proof.
  intros H. unfold RegExpBuiltinExec, positions.
  change (stateful (setLastIndex n R)) with (stateful R).
  change (sticky (setLastIndex n R)) with (sticky R).
  change (ignoreCase (setLastIndex n R)) with (ignoreCase R).
  change (matcher (setLastIndex n R)) with (matcher R).
  rewrite H.
  destruct (String.length s <? 0); [reflexivity|].
  destruct (scan _ _ _ _ _) as [[[i e] c]|]; reflexivity.
Qed.

(** After a failed [exec] the object is at rest. *)
Lemma exec_miss_atRest R s :
  fst (RegExpBuiltinExec R s) = None -> atRest (snd (RegExpBuiltinExec R s)).
Proof.
  unfold RegExpBuiltinExec, atRest.
  destruct (String.length s <? _).
  - simpl. intros _. destruct (stateful R) eqn:G; simpl; [reflexivity|congruence].
  - destruct (scan _ _ _ _ _) as [[[i e] c]|]; simpl; [discriminate|].
    intros _. destruct (stateful R) eqn:G; simpl; [reflexivity|congruence].
Qed.

(** On an object at rest, [exec] succeeds exactly when the text contains
    a match. *)
Lemma exec_atRest R s :
  atRest R ->
  match fst (RegExpBuiltinExec R s) with Some _ => true | None => false end
  = matchesText R s.
Proof.
  intros H. unfold RegExpBuiltinExec, matchesText, positions.
  assert ((if stateful R then lastIndex R else 0) = 0) as ->.
  { destruct (stateful R) eqn:G; auto. }
  replace (String.length s <? 0) with false
    by (symmetry; apply Nat.ltb_ge; lia).
  rewrite Nat.sub_0_r.
  destruct (scan _ _ _ _ _) as [[[i e] c]|]; reflexivity.
Qed.

(** A successful [exec] of a regex with [g] or [y] moves [lastIndex] to
    the end of the match, which is not before its start. *)
Lemma exec_hit R s a R' :
  stateful R = true ->
  RegExpBuiltinExec R s = (Some a, R') ->
  exists i e c,
    a = execArray s (matcher R) i e c /\ R' = setLastIndex e R /\
    lastIndex R <= i /\ i <= e.
Proof.
  intros G. unfold RegExpBuiltinExec. rewrite G.
  destruct (String.length s <? _); [discriminate|].
  destruct (scan _ _ _ _ _) as [[[i e] c]|] eqn:E; [|discriminate].
  intros H. injection H as <- <-.
  apply scan_bounds in E. exists i, e, c. tauto.
Qed.

Lemma exec_past_end R s :
  String.length s < lastIndex R -> stateful R = true ->
  RegExpBuiltinExec R s = (None, setLastIndex 0 R).
Proof.
  intros H G. unfold RegExpBuiltinExec. rewrite G.
  apply Nat.ltb_lt in H. rewrite H. reflexivity.
Qed.

Lemma matchLoop_shape fuel :
  forall R s acc, shape (snd (matchLoop fuel R s acc)) = shape R.
Proof.
  induction fuel as [|fuel IH]; intros R s acc; simpl; [reflexivity|].
  pose proof (exec_shape R s) as Hs.
  destruct (RegExpBuiltinExec R s) as [[a|] R']; simpl in Hs; [|exact Hs].
  rewrite IH. destruct (isEmpty _); [rewrite shape_setLastIndex|]; exact Hs.
Qed.

(** The loop of [match] has fuel for every round: it ends with the failed
    [exec] that stores 0. *)
Lemma matchLoop_ends fuel :
  forall R s acc,
    stateful R = true ->
    S (S (String.length s) - lastIndex R) <= fuel ->
    lastIndex (snd (matchLoop fuel R s acc)) = 0.
Proof.
  induction fuel as [|fuel IH]; intros R s acc G Hf; [lia|].
  simpl.
  destruct (RegExpBuiltinExec R s) as [[a|] R'] eqn:E.
  - destruct (exec_hit R s a R' G E) as (i & e & c & -> & -> & Hi & He).
    assert (lastIndex R <= String.length s) as Hin.
    { destruct (Nat.le_gt_cases (lastIndex R) (String.length s)); [assumption|].
      rewrite exec_past_end in E by assumption. discriminate. }
    simpl. destruct (isEmpty (slice s i e)) eqn:Em.
    + apply IH; [exact G|]. simpl. lia.
    + apply IH; [exact G|]. simpl.
      assert (i <> e) by (intros ->; rewrite slice_same in Em; discriminate).
      lia.
  - simpl. pose proof (exec_miss_atRest R s) as Hr. rewrite E in Hr.
    simpl in Hr. apply Hr; [reflexivity|].
    pose proof (exec_shape R s) as Hs. rewrite E in Hs. simpl in Hs.
    apply shape_stateful in Hs. congruence.
Qed.

(** With that fuel, more fuel gives the same result. *)
Lemma matchLoop_fuel fuel :
  forall R s acc,
    stateful R = true ->
    S (S (String.length s) - lastIndex R) <= fuel ->
    matchLoop (S fuel) R s acc = matchLoop fuel R s acc.
Proof.
  induction fuel as [|fuel IH]; intros R s acc G Hf; [lia|].
  change (matchLoop (S (S fuel)) R s acc)
    with (match RegExpBuiltinExec R s with
          | (None, R') => (acc, R')
          | (Some a, R') =>
              let matchStr := match elems a with Some t :: _ => t | _ => "" end in
              let R'' := if isEmpty matchStr
                         then setLastIndex (S (lastIndex R')) R' else R' in
              matchLoop (S fuel) R'' s (acc ++ [Some matchStr])
          end).
  change (matchLoop (S fuel) R s acc)
    with (match RegExpBuiltinExec R s with
          | (None, R') => (acc, R')
          | (Some a, R') =>
              let matchStr := match elems a with Some t :: _ => t | _ => "" end in
              let R'' := if isEmpty matchStr
                         then setLastIndex (S (lastIndex R')) R' else R' in
              matchLoop fuel R'' s (acc ++ [Some matchStr])
          end).
  destruct (RegExpBuiltinExec R s) as [[a|] R'] eqn:E; [|reflexivity].
  destruct (exec_hit R s a R' G E) as (i & e & c & -> & -> & Hi & He).
  assert (lastIndex R <= String.length s) as Hin.
  { destruct (Nat.le_gt_cases (lastIndex R) (String.length s)); [assumption|].
    rewrite exec_past_end in E by assumption. discriminate. }
  cbv zeta. cbn [elems execArray]. destruct (isEmpty (slice s i e)) eqn:Em.
  - apply IH; [exact G|]. simpl. lia.
  - apply IH; [exact G|]. simpl.
    assert (i <> e) by (intros ->; rewrite slice_same in Em; discriminate).
    lia.
Qed.

Lemma RegExp_match_shape R s : shape (snd (RegExp_match R s)) = shape R.
Proof.
  unfold RegExp_match. destruct (global R).
  - pose proof (matchLoop_shape (String.length s + 2) (setLastIndex 0 R) s []) as H.
    destruct (matchLoop _ _ _ _) as [acc R']. exact H.
  - pose proof (exec_shape R s) as H.
    destruct (RegExpBuiltinExec R s) as [a R']. exact H.
Qed.

Lemma resets_stateless R : resets R -> global R = false -> stateful R = false.
Proof.
  unfold resets, stateful. intros H G. rewrite G. simpl.
  destruct (sticky R); [|reflexivity]. rewrite H in G by reflexivity. discriminate.
Qed.

(** [match] leaves the object at rest, unless the regex is sticky and
    has no [g]. *)
Lemma RegExp_match_atRest R s : resets R -> atRest (snd (RegExp_match R s)).
Proof.
  intros Hr. unfold RegExp_match. destruct (global R) eqn:G.
  - pose proof (matchLoop_ends (String.length s + 2) (setLastIndex 0 R) s []
                  (global_stateful _ G)) as H.
    destruct (matchLoop _ _ _ _) as [acc R']. simpl in *.
    intros _. apply H. lia.
  - pose proof (exec_stateless R s (resets_stateless R Hr G)) as H.
    destruct (RegExpBuiltinExec R s) as [a R']. simpl in *. subst R'.
    intros G'. rewrite (resets_stateless R Hr G) in G'. discriminate.
Qed.

(** What [match] returns does not depend on [lastIndex], unless the
    regex is sticky and has no [g]. *)
Lemma RegExp_match_any n R s :
  resets R ->
  fst (RegExp_match (setLastIndex n R) s) = fst (RegExp_match R s).
Proof.
  intros Hr. unfold RegExp_match. simpl. destruct (global R) eqn:G.
  - reflexivity.
  - pose proof (exec_stateless_any n R s (resets_stateless R Hr G)) as H.
    destruct (RegExpBuiltinExec (setLastIndex n R) s) as [a R'].
    destruct (RegExpBuiltinExec R s) as [b R'']. simpl in *. now subst.
Qed.

(** A [match] on an object at rest does not depend on [lastIndex]
    either. *)
Lemma RegExp_match_rest R R' s :
  shape R' = shape R -> atRest R -> atRest R' ->
  fst (RegExp_match R' s) = fst (RegExp_match R s).
Proof.
  intros Hs H H'.
  assert (R' = setLastIndex (lastIndex R') R) as E.
  { destruct R, R'. unfold shape in Hs. simpl in *. now injection Hs as -> -> -> -> ->. }
  destruct (stateful R) eqn:G.
  - rewrite E. rewrite (H' (eq_trans (shape_stateful _ _ Hs) G)).
    rewrite <- (H G). now destruct R.
  - rewrite E. destruct (stateless_flags R G) as (Gg & Gs).
    apply RegExp_match_any. unfold resets. congruence.
Qed.

End HostFacts.

(** ** The validator and the order of the input pipeline *)

Module ValidatorFacts.

Import JSString Regex Host Guardrails Examples.

Lemma validateInput_string e m :
  validateInput e m = Valid -> exists s, m = MString s.
Proof. destruct m as [s|]; [eauto|discriminate]. Qed.

Lemma validateInput_ordered e m :
  validateInput e m = firstFailing (validationChecks e) m.
Proof.
  destruct m as [s|]; simpl; [|reflexivity].
  destruct (lengthZ s <? _)%Z; [reflexivity|].
  destruct (lengthZ s >? _)%Z; [reflexivity|].
  destruct (isEmpty (trim s)); reflexivity.
Qed.

(** The code that the validator reports is the first of the codes of the
    checks that fail. *)
Lemma validateInput_first_code e m :
  match validateInput e m with
  | Valid => failedCodes e m = []
  | Invalid _ code => head (failedCodes e m) = Some code
  end.
Proof.
  rewrite validateInput_ordered. unfold failedCodes, validationChecks.
  cbn [firstFailing List.filter fst snd].
  destruct m as [s|]; cbn [textOf]; [|reflexivity].
  destruct (lengthZ s <? _)%Z; [reflexivity|].
  destruct (lengthZ s >? _)%Z; [reflexivity|].
  destruct (isEmpty (trim s)); reflexivity.
Qed.

(** C7. A message longer than [maxMessageLength] is denied by
    [moderateInput] with the verdict of the validator, whether or not it
    matches a blocked pattern: the code is never BLOCKED_PATTERN and the
    state is the one that [_logViolation] leaves, so the pattern filter has
    not run. The code is MESSAGE_TOO_LONG when the message is not also
    shorter than [minMessageLength], as it never is in a configuration
    with [minMessageLength <= maxMessageLength]; it is MESSAGE_TOO_SHORT
    when the message is shorter than [minMessageLength], the check that
    comes first. Within the validator the checks INVALID_TYPE,
    MESSAGE_TOO_SHORT, MESSAGE_TOO_LONG and EMPTY_MESSAGE are tried in this
    order and the first one that fails decides. *)
Theorem validator_precedes_pattern_filter (parse : string -> option regex) :
  (forall e s st,
     (lengthZ s > maxMessageLength (config e))%Z ->
     let code :=
       if (lengthZ s <? minMessageLength (config e))%Z
       then "MESSAGE_TOO_SHORT" else "MESSAGE_TOO_LONG" in
     exists reason,
       validateInput e (MString s) = Invalid reason code
       /\ moderateInput parse e (MString s) st
          = (Normal (Denied (mkDenial reason code
                                      (Some (violationAction (config e))) None None)),
             snd (_logViolation e "input_validation"
                    (DValidation (Invalid reason code)) st))
       /\ code <> "BLOCKED_PATTERN"
       /\ ((minMessageLength (config e) <= lengthZ s)%Z -> code = "MESSAGE_TOO_LONG")
       /\ ((minMessageLength (config e) <= maxMessageLength (config e))%Z ->
           code = "MESSAGE_TOO_LONG"))
  /\ (forall e m, validateInput e m = firstFailing (validationChecks e) m).
Proof.
  split; [|apply validateInput_ordered].
  intros e s st Hlong code.
  assert (forall reason cd,
            validateInput e (MString s) = Invalid reason cd ->
            moderateInput parse e (MString s) st
            = (Normal (Denied (mkDenial reason cd
                                        (Some (violationAction (config e))) None None)),
               snd (_logViolation e "input_validation"
                      (DValidation (Invalid reason cd)) st))) as Hdeny.
  { intros reason cd Hv. unfold moderateInput. rewrite Hv.
    unfold bind, _logViolation, deny.
    destruct (logViolations (config e)); reflexivity. }
  subst code. unfold validateInput in *.
  destruct (lengthZ s <? minMessageLength (config e))%Z eqn:Eshort.
  - eexists. split; [reflexivity|]. split; [apply Hdeny; reflexivity|].
    split; [discriminate|]. apply Z.ltb_lt in Eshort. split; intros Hmm; lia.
  - replace (lengthZ s >? maxMessageLength (config e))%Z with true in *
      by (symmetry; apply Z.gtb_lt; lia).
    eexists. split; [reflexivity|]. split; [apply Hdeny; reflexivity|].
    split; [discriminate|]. split; reflexivity.
Qed.

Lemma validator_precedes_pattern_filter_witness :
  exists reason,
    moderateInput Parser.parsePattern tight (MString "this is spam") initial
    = (Normal (Denied (mkDenial reason "MESSAGE_TOO_LONG" (Some Reject) None None)),
       mkState (heap initial) 0
               [mkLogRecord "input_validation"
                  (DValidation (Invalid reason "MESSAGE_TOO_LONG"))]).
Proof.
  destruct (proj1 (validator_precedes_pattern_filter Parser.parsePattern)
                  tight "this is spam" initial eq_refl)
    as (reason & _ & Hrun & _).
  exists reason. exact Hrun.
Defined.

(** C7 (counterexample). With [minMessageLength: 100],
    [maxMessageLength: 10] and "spam" blocked, the message
    'this is spam' is longer than [maxMessageLength] and matches the
    blocked pattern, and [moderateInput] denies it with MESSAGE_TOO_SHORT,
    not MESSAGE_TOO_LONG. *)
Lemma too_long_message_reported_too_short :
  (lengthZ "this is spam" > maxMessageLength (config inverted))%Z
  /\ patternMatches Parser.parsePattern (heap ready) (PString "spam") "this is spam" = true
  /\ In (PString "spam") (blockedPatterns (config inverted))
  /\ fst (moderateInput Parser.parsePattern inverted (MString "this is spam") ready)
     = Normal (Denied (mkDenial "Message too short. Minimum length: 100"
                                "MESSAGE_TOO_SHORT" (Some Reject) None None)).
Proof.
  split; [reflexivity|]. split; [vm_compute; reflexivity|].
  split; [now left|]. vm_compute. reflexivity.
Qed.

End ValidatorFacts.

(** ** The policy engine *)

Module PolicyFacts.

Import JSString Regex Host Guardrails Examples.

Lemma raisesOn_result p content context msg :
  raisesOn p content context msg ->
  _evaluatePolicy p content context
  = Normal (Some (mkPolicyResult false (Some ("Policy error: " ++ msg)%string)
                                 (Some "POLICY_ERROR"))).
Proof.
  destruct p as [n f|n r [chk|]| |]; simpl; try contradiction;
    intros ->; reflexivity.
Qed.

Lemma raisesOn_violation p content context msg :
  raisesOn p content context msg ->
  violationOf content context p
  = [mkViolation (policyName p) (Some ("Policy error: " ++ msg)%string) "POLICY_ERROR"].
Proof.
  unfold violationOf, resultOf.
  destruct p as [n f|n r [chk|]| |]; simpl; try contradiction;
    intros ->; reflexivity.
Qed.

(** One round of the loop adds what the policy contributes. *)
Lemma policyLoop_step p rest content context found :
  answers p content context ->
  policyLoop (p :: rest) content context found
  = policyLoop rest content context (found ++ violationOf content context p).
Proof.
  unfold answers, violationOf, resultOf. simpl.
  destruct p as [n f|n r [chk|]| |]; simpl.
  - destruct (coerce _ _) as [res|]; [intros _|contradiction].
    destruct (passed res); simpl; [rewrite app_nil_r|]; reflexivity.
  - destruct (coerce _ _) as [res|]; [intros _|contradiction].
    destruct (passed res); simpl; [rewrite app_nil_r|]; reflexivity.
  - intros _. rewrite app_nil_r. reflexivity.
  - contradiction.
  - intros _. rewrite app_nil_r. reflexivity.
Qed.

(** The loop with its accumulator collects the violations of all
    policies, in order. *)
Lemma policyLoop_collects ps content context :
  forall found,
    Forall (fun q => answers q content context) ps ->
    policyLoop ps content context found
    = Normal (found ++ violationsOf ps content context).
Proof.
  induction ps as [|p ps IH]; intros found Hall.
  - simpl. rewrite app_nil_r. reflexivity.
  - inversion Hall as [|? ? Hp Hps]; subst.
    rewrite policyLoop_step by assumption.
    rewrite IH by assumption.
    unfold violationsOf. simpl. rewrite <- app_assoc. reflexivity.
Qed.

Lemma applyPolicies_failed e content context ps v vs :
  policies (config e) = Some ps ->
  Forall (fun q => answers q content context) ps ->
  violationsOf ps content context = v :: vs ->
  applyPolicies e content context
  = Normal (Failed (v :: vs)
              ("Violated " ++ showNat (List.length (v :: vs)) ++ " policy/policies")%string
              "POLICY_VIOLATION").
Proof.
  intros Hps Hall Hv. unfold applyPolicies. rewrite Hps.
  destruct ps as [|p ps]; [discriminate|].
  rewrite policyLoop_collects by assumption.
  change ([] ++ violationsOf (p :: ps) content context)
    with (violationsOf (p :: ps) content context).
  rewrite Hv. reflexivity.
Qed.

(** When the predicate of one policy raises and the other entries answer
    the call (functions or objects whose predicate returns a boolean or a
    result object, or raises), [applyPolicies] records that policy with
    code POLICY_ERROR and the reason ["Policy error: " ++ message]; the
    policies before and after it are evaluated as usual, and the result is
    a failure that carries the violations of all policies in list order.
    With two policies, the first raising and the second passing, the result
    carries the POLICY_ERROR violation and nothing else. *)
Lemma policy_error_recorded :
  (forall e content context before p after msg,
     policies (config e) = Some (before ++ p :: after) ->
     raisesOn p content context msg ->
     Forall (fun q => answers q content context) (before ++ after) ->
     let vs := violationsOf before content context
               ++ mkViolation (policyName p)
                    (Some ("Policy error: " ++ msg)%string) "POLICY_ERROR"
               :: violationsOf after content context in
     applyPolicies e content context
     = Normal (Failed vs
                 ("Violated " ++ showNat (List.length vs) ++ " policy/policies")%string
                 "POLICY_VIOLATION"))
  /\ (forall e content context first second msg result,
        policies (config e) = Some [first; second] ->
        raisesOn first content context msg ->
        resultOf second content context = Some result ->
        passed result = true ->
        applyPolicies e content context
        = Normal (Failed [mkViolation (policyName first)
                            (Some ("Policy error: " ++ msg)%string) "POLICY_ERROR"]
                    "Violated 1 policy/policies" "POLICY_VIOLATION")).
Proof.
  split.
  - intros e content context before p after msg Hps Hraise Hall vs.
    assert (Forall (fun q => answers q content context) (before ++ p :: after)) as Hall'.
    { apply Forall_app in Hall. destruct Hall as [Hb Ha].
      apply Forall_app. split; [assumption|]. constructor; [|assumption].
      unfold answers. rewrite (raisesOn_result _ _ _ _ Hraise). exact I. }
    assert (violationsOf (before ++ p :: after) content context = vs) as Hvs.
    { unfold violationsOf. rewrite flat_map_app. simpl.
      rewrite (raisesOn_violation _ _ _ _ Hraise). reflexivity. }
    destruct vs as [|v vs'] eqn:E.
    + subst vs. destruct (violationsOf before content context); discriminate.
    + eapply applyPolicies_failed; eassumption.
  - intros e content context first second msg result Hps Hraise Hres Hpass.
    assert (answers second content context) as Hans.
    { unfold answers. unfold resultOf in Hres.
      destruct second as [n f|n r [chk|]| |]; simpl; try discriminate;
        rewrite Hres; exact I. }
    assert (violationOf content context second = []) as Hv.
    { unfold violationOf. rewrite Hres, Hpass. reflexivity. }
    eapply applyPolicies_failed; [eassumption| |].
    + constructor; [|constructor; [assumption|constructor]].
      unfold answers. rewrite (raisesOn_result _ _ _ _ Hraise). exact I.
    + unfold violationsOf. simpl.
      rewrite (raisesOn_violation _ _ _ _ Hraise), Hv. reflexivity.
Qed.

Lemma policy_error_recorded_example :
  applyPolicies (guarded [noSpam; failing; passing; noSpam]) "spam" Output
  = Normal (Failed [mkViolation "unnamed" (Some "Policy check failed") "POLICY_VIOLATION";
                    mkViolation "failing" (Some "Policy error: boom") "POLICY_ERROR";
                    mkViolation "unnamed" (Some "Policy check failed") "POLICY_VIOLATION"]
              "Violated 3 policy/policies" "POLICY_VIOLATION").
Proof.
  apply (proj1 policy_error_recorded (guarded [noSpam; failing; passing; noSpam])
               "spam" Output [noSpam] failing [passing; noSpam] "boom").
  - reflexivity.
  - reflexivity.
  - repeat constructor.
Qed.

(** C6 (failing input). With [policies: [failing, null]], where the
    predicate of the first policy raises, the evaluation of the second
    entry reads [policy.check] of [null] outside the [try]:
    [applyPolicies] throws a TypeError, the POLICY_ERROR violation of the
    first policy is lost with the list, and [moderateInput] and
    [moderateOutput] throw as well; the same happens with the entries the
    other way round. Beside a policy that passes, or an entry of another
    invalid format, the raise is recorded as one POLICY_ERROR violation. *)
Theorem policy_error_lost_beside_null :
  raisesOn failing "hello" Input "boom"
  /\ applyPolicies (guarded [failing; PNull]) "hello" Input = Throw TypeError
  /\ applyPolicies (guarded [PNull; failing]) "hello" Input = Throw TypeError
  /\ fst (moderateInput Parser.parsePattern (guarded [failing; PNull])
            (MString "hello") ready)
     = Throw TypeError
  /\ fst (moderateOutput Parser.parsePattern (guarded [failing; PNull]) "hello" ready)
     = Throw TypeError
  /\ applyPolicies (guarded [failing; passing]) "hello" Input
     = Normal (Failed [mkViolation "failing" (Some "Policy error: boom") "POLICY_ERROR"]
                 "Violated 1 policy/policies" "POLICY_VIOLATION")
  /\ applyPolicies (guarded [failing; POther]) "hello" Input
     = Normal (Failed [mkViolation "failing" (Some "Policy error: boom") "POLICY_ERROR"]
                 "Violated 1 policy/policies" "POLICY_VIOLATION").
Proof.
  repeat split; vm_compute; reflexivity.
Qed.

(** The policies of the data model answer every call. *)
Lemma wellFormed_answers p content context :
  wellFormed p content context -> answers p content context.
Proof.
  unfold wellFormed, answers.
  destruct p as [n f|n r [chk|]| |]; simpl; try contradiction.
  - destruct (f content context) as [[b|ps rs cd|]|msg]; simpl; auto.
  - destruct (chk content context) as [[b|ps rs cd|]|msg]; simpl; auto.
Qed.

(** An entry that is neither a function nor an object with a callable
    [check], and is not [null] or [undefined], passes. *)
Lemma malformed_policy_passes p content context :
  p = POther \/ (exists n r, p = PObject n r None) ->
  _evaluatePolicy p content context
  = Normal (Some (mkPolicyResult true (Some "Invalid policy format") None)).
Proof.
  intros [->|(n & r & ->)]; reflexivity.
Qed.

(** C10 (failing input). With [policies: [null]] the evaluation of the
    entry reads [policy.check] of [null]: [_evaluatePolicy],
    [applyPolicies], [moderateInput] and [moderateOutput] throw a
    TypeError instead of treating the entry as passed. *)
Theorem null_policy_throws :
  _evaluatePolicy PNull "hello" Input = Throw TypeError
  /\ applyPolicies nullPolicy "hello" Input = Throw TypeError
  /\ fst (moderateInput Parser.parsePattern nullPolicy (MString "hello") ready)
     = Throw TypeError
  /\ fst (moderateOutput Parser.parsePattern nullPolicy "hello" ready)
     = Throw TypeError.
Proof.
  repeat split; vm_compute; reflexivity.
Qed.

End PolicyFacts.

(** ** The configuration *)

Module ConfigFacts.

Import JSString Regex Host Guardrails Examples.

(** C9. [configure] merges the partial into the live configuration field
    by field: a field that the partial names takes the new value, a field
    that it does not name keeps its value; this includes the keys
    [profanityPatterns] and [harmfulPatterns] of the configuration. The
    two pattern sets that the checks read follow the test
    [if (options.profanityPatterns)]: a partial that holds an array for
    [profanityPatterns] or [harmfulPatterns] replaces the set (the old
    patterns are gone, the new list is not appended to them) and the
    profanity and harmful-content checks of the new engine run on the new
    list; a partial that lacks the key, or holds [null] or [undefined] for
    it, leaves the set and the checks as they were. *)
Theorem configure_shallow_merge (parse : string -> option regex) e o :
  let e' := configure e o in
  merged (opt_maxMessageLength o) (maxMessageLength (config e)) (maxMessageLength (config e'))
  /\ merged (opt_minMessageLength o) (minMessageLength (config e)) (minMessageLength (config e'))
  /\ merged (opt_enableContentFilter o) (enableContentFilter (config e))
            (enableContentFilter (config e'))
  /\ merged (opt_blockedPatterns o) (blockedPatterns (config e)) (blockedPatterns (config e'))
  /\ merged (opt_allowedPatterns o) (allowedPatterns (config e)) (allowedPatterns (config e'))
  /\ merged (opt_enableProfanityFilter o) (enableProfanityFilter (config e))
            (enableProfanityFilter (config e'))
  /\ merged (opt_enableOutputModeration o) (enableOutputModeration (config e))
            (enableOutputModeration (config e'))
  /\ merged (opt_maxResponseLength o) (maxResponseLength (config e))
            (maxResponseLength (config e'))
  /\ merged (opt_policies o) (policies (config e)) (policies (config e'))
  /\ merged (opt_logViolations o) (logViolations (config e)) (logViolations (config e'))
  /\ merged (opt_violationAction o) (violationAction (config e))
            (violationAction (config e'))
  /\ mergedKey (opt_profanityPatterns o) (cfg_profanityPatterns (config e))
               (cfg_profanityPatterns (config e'))
  /\ mergedKey (opt_harmfulPatterns o) (cfg_harmfulPatterns (config e))
               (cfg_harmfulPatterns (config e'))
  /\ replaced (opt_profanityPatterns o) (profanityPatterns e) (profanityPatterns e')
  /\ replaced (opt_harmfulPatterns o) (harmfulPatterns e) (harmfulPatterns e')
  /\ (forall ps content,
        opt_profanityPatterns o = Some (Some ps) ->
        checkProfanity parse e' content
        = checkProfanity parse (mkEngine (config e') ps []) content)
  /\ (forall ps content,
        opt_harmfulPatterns o = Some (Some ps) ->
        checkHarmfulContent e' content
        = checkHarmfulContent (mkEngine (config e') [] ps) content)
  /\ (forall content,
        opt_profanityPatterns o = None \/ opt_profanityPatterns o = Some None ->
        checkProfanity parse e' content
        = checkProfanity parse (mkEngine (config e') (profanityPatterns e) []) content)
  /\ (forall content,
        opt_harmfulPatterns o = None \/ opt_harmfulPatterns o = Some None ->
        checkHarmfulContent e' content
        = checkHarmfulContent (mkEngine (config e') [] (harmfulPatterns e)) content).
Proof.
  intros e'. subst e'. unfold merged, mergedKey, replaced, configure. simpl.
  repeat split;
    try (match goal with |- match ?x with _ => _ end => destruct x as [[?|]|]; reflexivity end);
    try (match goal with |- match ?x with _ => _ end => destruct x; reflexivity end).
  - intros ps content ->. reflexivity.
  - intros ps content ->. reflexivity.
  - intros content [->| ->]; reflexivity.
  - intros content [->| ->]; reflexivity.
Qed.

(** After [configure({profanityPatterns: ['darn']})] the default
    profanity pattern is gone. *)
Lemma configure_shallow_merge_witness :
  fst (checkProfanity Parser.parsePattern (configure defaultEngine onlyDarn) "damn" ready)
  = Normal NoProfanity
  /\ fst (checkProfanity Parser.parsePattern defaultEngine "damn" ready)
     = Normal (Profanity [Some "damn"] "Content contains profanity" "PROFANITY_DETECTED").
Proof.
  split; [|reflexivity].
  destruct (configure_shallow_merge Parser.parsePattern defaultEngine onlyDarn)
    as (_ & _ & _ & _ & _ & _ & _ & _ & _ & _ & _ & _ & _ & _ & _ & H & _).
  rewrite (H [PString "darn"] "damn" eq_refl). reflexivity.
Defined.

(** C9 (counterexample). [configure({profanityPatterns: null})] names
    [profanityPatterns]: the key of the configuration takes the value
    [null], but the pattern set that the checks read is not replaced, and
    the profanity check still finds "damn" with the default pattern. *)
Lemma null_pattern_set_is_not_replaced :
  let e' := configure defaultEngine noProfanity in
  opt_profanityPatterns noProfanity = Some None
  /\ cfg_profanityPatterns (config defaultEngine) = None
  /\ cfg_profanityPatterns (config e') = Some None
  /\ profanityPatterns e' = profanityPatterns defaultEngine
  /\ profanityPatterns e' = [PRegExp 0]
  /\ fst (checkProfanity Parser.parsePattern e' "damn" ready)
     = Normal (Profanity [Some "damn"] "Content contains profanity" "PROFANITY_DETECTED").
Proof.
  repeat split.
Qed.

(** [configure({maxMessageLength: 20})] changes that field only. *)
Lemma configure_one_field :
  configure defaultEngine shorter
  = withConfig (mkConfig 20 1 true [] None true true 50000 (Some []) true Reject None None).
Proof. reflexivity. Qed.

Lemma configure_nothing e : configure e noOptions = e.
Proof. destruct e as [[] ? ?]. reflexivity. Qed.

(** [new Guardrails()] *)
Lemma constructor_defaults :
  constructor noOptions initial = (Normal defaultEngine, ready).
Proof. reflexivity. Qed.

(** The constructor never throws, and a key of the options wins over the
    default, also when its value is 0. *)
Lemma constructor_returns o st : exists e st', constructor o st = (Normal e, st').
Proof.
  unfold constructor, bind, alloc, ret.
  destruct (opt_profanityPatterns o) as [[?|]|], (opt_harmfulPatterns o) as [[?|]|]; eauto.
Qed.

End ConfigFacts.

(** ** What the stored [lastIndex] does to repeated calls *)

Module RepeatFacts.

Import JSString Regex Host Guardrails Examples.

(** The default harmful pattern matches the text "kill", at rest. *)
Lemma kill_matches : matchesText defaultHarmful "kill" = true.
Proof. reflexivity. Qed.

(** C1 (failing input). On the engine of [new Guardrails()], the first
    call of [moderateInput("kill")] is denied with HARMFUL_CONTENT and
    leaves the [lastIndex] of the default harmful regex (flags gi) at 4;
    the second call with the same text starts its search there, finds
    nothing, and returns [{allowed: true}]. Likewise [moderateOutput] with
    [blockedPatterns: [/ssn/gi]]: the first call on "my ssn" is denied
    with BLOCKED_PATTERN, the second is allowed. *)
Theorem repeated_call_changes_verdict :
  let once := moderateInput Parser.parsePattern defaultEngine (MString "kill") ready in
  let again := moderateInput Parser.parsePattern defaultEngine (MString "kill") (snd once) in
  let out1 := moderateOutput Parser.parsePattern secretive "my ssn" stocked in
  let out2 := moderateOutput Parser.parsePattern secretive "my ssn" (snd out1) in
  constructor noOptions initial = (Normal defaultEngine, ready)
  /\ fst once
     = Normal (Denied (mkDenial "Content may contain harmful or violent language"
                                "HARMFUL_CONTENT" (Some Reject) None None))
  /\ lastIndex (heap (snd once) 1) = 4
  /\ fst again = Normal Allowed
  /\ fst out1
     = Normal (Denied (mkDenial "Content matches blocked pattern" "BLOCKED_PATTERN"
                                (Some Reject) None None))
  /\ fst out2 = Normal Allowed.
Proof.
  repeat split; vm_compute; reflexivity.
Qed.

(** The allowlist of the specification, [/^HELLO/i] without [g]:
    "hello world" passes, "goodbye" fails, call after call. *)
Lemma allowlist_without_g :
  let once := checkBlockedPatterns Parser.parsePattern greeterStart "hello world" stocked in
  fst once = Normal NotBlocked
  /\ fst (checkBlockedPatterns Parser.parsePattern greeterStart "hello world" (snd once))
     = Normal NotBlocked
  /\ fst (checkBlockedPatterns Parser.parsePattern greeterStart "goodbye" stocked)
     = Normal (Blocked None "Content does not match any allowed pattern"
                       "NOT_ALLOWED_PATTERN").
Proof.
  repeat split; vm_compute; reflexivity.
Qed.

(** C8 (failing input). With content filtering enabled, no blocked
    pattern and [allowedPatterns: [/hello/gi]], the text "hello world"
    matches the allowed pattern; the first call of [checkBlockedPatterns]
    lets it pass and leaves [lastIndex] at 5, and the second call blocks
    the same text with NOT_ALLOWED_PATTERN. *)
Theorem allowlist_blocks_matching_text :
  let once := checkBlockedPatterns Parser.parsePattern greeter "hello world" stocked in
  let again := checkBlockedPatterns Parser.parsePattern greeter "hello world" (snd once) in
  enableContentFilter (config greeter) = true
  /\ blockedPatterns (config greeter) = []
  /\ patternMatches Parser.parsePattern (heap stocked) (PRegExp 3) "hello world" = true
  /\ patternMatches Parser.parsePattern (heap (snd once)) (PRegExp 3) "hello world" = true
  /\ fst once = Normal NotBlocked
  /\ lastIndex (heap (snd once) 3) = 5
  /\ fst again
     = Normal (Blocked None "Content does not match any allowed pattern"
                       "NOT_ALLOWED_PATTERN").
Proof.
  repeat split; vm_compute; reflexivity.
Qed.

End RepeatFacts.

(** ** Logging and the output pipeline *)

Module OutputFacts.

Import JSString Regex Host Guardrails Examples.

(** The length check of [moderateOutput] returns its denial without
    calling [_logViolation]: the state is untouched. *)
Lemma response_too_long_silent (parse : string -> option regex) e content st :
  enableOutputModeration (config e) = true ->
  (lengthZ content > maxResponseLength (config e))%Z ->
  moderateOutput parse e content st
  = (Normal (Denied (mkDenial ("Response too long. Maximum length: "
                                 ++ showZ (maxResponseLength (config e)))%string
                              "RESPONSE_TOO_LONG" None None None)),
     st).
Proof.
  intros Hon Hlong. unfold moderateOutput. rewrite Hon. simpl.
  replace (lengthZ content >? maxResponseLength (config e))%Z with true
    by (symmetry; apply Z.gtb_lt; lia).
  reflexivity.
Qed.

(** C4 (failing input). With [logViolations] true and
    [maxResponseLength] 5, [moderateOutput] denies a response of fifteen
    characters with RESPONSE_TOO_LONG and writes nothing to the console,
    whereas the denial of [moderateInput] for a message that is too long
    writes a record. *)
Theorem response_too_long_is_not_logged :
  logViolations (config terse) = true
  /\ moderateOutput Parser.parsePattern terse "a long response" ready
     = (Normal (Denied (mkDenial "Response too long. Maximum length: 5"
                                 "RESPONSE_TOO_LONG" None None None)),
        ready)
  /\ console ready = []
  /\ console (snd (moderateInput Parser.parsePattern tight (MString "a long message") ready))
     = [mkLogRecord "input_validation"
          (DValidation (Invalid "Message too long. Maximum length: 10"
                                "MESSAGE_TOO_LONG"))].
Proof.
  repeat split.
Qed.

End OutputFacts.

(** ** Patterns that do not compile *)

Module CompileFacts.

Import JSString Regex Host Guardrails Examples.

Section WithParser.

Variable parse : string -> option regex.

Lemma testPattern_invalid bad content st :
  parse bad = None ->
  testPattern parse (PString bad) content st = (Throw SyntaxError, st).
Proof.
  intros H. unfold testPattern, newRegExp. rewrite H. reflexivity.
Qed.

Lemma checkBlockedPatterns_invalid e bad rest content st :
  parse bad = None ->
  enableContentFilter (config e) = true ->
  blockedPatterns (config e) = PString bad :: rest ->
  checkBlockedPatterns parse e content st = (Throw SyntaxError, st).
Proof.
  intros Hbad Hon Hps. unfold checkBlockedPatterns. rewrite Hon, Hps.
  cbn [negb firstBlocked]. unfold bind.
  rewrite testPattern_invalid by assumption. reflexivity.
Qed.

(** C5, as the code has it. A pattern string that does not compile is
    accepted by the constructor and by [configure], which store it as it
    is and never fault. It is compiled inside [checkBlockedPatterns]:
    when it is the first blocked pattern and content filtering is
    enabled, every call of [moderateInput] on a message that passes
    validation, and every call of [moderateOutput] (output moderation
    enabled) on a response within [maxResponseLength], throws the
    SyntaxError of the compilation, and leaves the state as it was. *)
Theorem invalid_pattern_faults_at_moderation bad rest :
  parse bad = None ->
  (forall o st,
     opt_blockedPatterns o = Some (PString bad :: rest) ->
     exists e st',
       constructor o st = (Normal e, st')
       /\ blockedPatterns (config e) = PString bad :: rest)
  /\ (forall e o,
        opt_blockedPatterns o = Some (PString bad :: rest) ->
        blockedPatterns (config (configure e o)) = PString bad :: rest)
  /\ (forall e m st,
        blockedPatterns (config e) = PString bad :: rest ->
        enableContentFilter (config e) = true ->
        validateInput e m = Valid ->
        moderateInput parse e m st = (Throw SyntaxError, st))
  /\ (forall e content st,
        blockedPatterns (config e) = PString bad :: rest ->
        enableContentFilter (config e) = true ->
        enableOutputModeration (config e) = true ->
        (lengthZ content <= maxResponseLength (config e))%Z ->
        moderateOutput parse e content st = (Throw SyntaxError, st)).
Proof.
  intros Hbad. repeat split.
  - intros o st Ho. unfold constructor, bind, alloc, ret.
    destruct (opt_profanityPatterns o) as [[?|]|], (opt_harmfulPatterns o) as [[?|]|];
      eexists; eexists; (split; [reflexivity|]); simpl; rewrite Ho; reflexivity.
  - intros e o Ho. unfold configure. simpl. rewrite Ho. reflexivity.
  - intros e m st Hps Hon Hvalid. unfold moderateInput. rewrite Hvalid.
    unfold bind at 1.
    rewrite (checkBlockedPatterns_invalid e bad rest) by assumption.
    reflexivity.
  - intros e content st Hps Hon Hout Hlen. unfold moderateOutput.
    rewrite Hout. simpl.
    replace (lengthZ content >? maxResponseLength (config e))%Z with false
      by (symmetry; rewrite Z.gtb_ltb; apply Z.ltb_ge; lia).
    unfold bind at 1.
    rewrite (checkBlockedPatterns_invalid e bad rest) by assumption.
    reflexivity.
Qed.

End WithParser.

Lemma invalid_pattern_faults_at_moderation_witness :
  moderateInput Parser.parsePattern (configure defaultEngine unclosed)
                (MString "hello") ready
  = (Throw SyntaxError, ready).
Proof.
  apply (invalid_pattern_faults_at_moderation Parser.parsePattern "(" [] eq_refl);
    reflexivity.
Defined.

(** C5 (counterexample). The string "(" is not a pattern. The constructor
    called with [blockedPatterns: ['(']] returns an engine, [configure]
    with the same options returns one too, and the later calls of
    [moderateInput] and [moderateOutput] throw the SyntaxError. *)
Lemma invalid_pattern_accepted_then_thrown :
  Parser.parsePattern "(" = None
  /\ (exists e st,
        constructor unclosed initial = (Normal e, st)
        /\ fst (moderateInput Parser.parsePattern e (MString "hello") st)
           = Throw SyntaxError
        /\ fst (moderateOutput Parser.parsePattern e "hello" st)
           = Throw SyntaxError)
  /\ fst (moderateInput Parser.parsePattern (configure defaultEngine unclosed)
                        (MString "hello") ready)
     = Throw SyntaxError.
Proof.
  split; [reflexivity|]. split; [|reflexivity].
  eexists. eexists. split; [reflexivity|]. split; reflexivity.
Qed.

End CompileFacts.

(** ** The checks as steps on the state *)

Module StepFacts.

Import JSString Regex Host HostFacts Guardrails.

Lemma quiet_refl {Rec} (st : State Rec) : quiet st st.
Proof. split; [reflexivity|]. split; [reflexivity|]. intros l. reflexivity. Qed.

Lemma quiet_trans {Rec} (a b c : State Rec) : quiet a b -> quiet b c -> quiet a c.
Proof.
  intros (C1 & N1 & S1) (C2 & N2 & S2).
  split; [congruence|]. split; [congruence|].
  intros l. rewrite S2. apply S1.
Qed.

Lemma quiet_matchesText {Rec} (st st' : State Rec) l s :
  quiet st st' -> matchesText (heap st' l) s = matchesText (heap st l) s.
Proof. intros (_ & _ & H). apply shape_matchesText, H. Qed.

(** Two objects of the same shape differ in [lastIndex] only. *)
Lemma shape_eq R R' : shape R' = shape R -> R' = setLastIndex (lastIndex R') R.
Proof.
  destruct R, R'. unfold shape, setLastIndex. simpl. intros H.
  injection H as -> -> -> -> ->. reflexivity.
Qed.

Lemma shape_resets R R' : shape R' = shape R -> resets R -> resets R'.
Proof.
  intros H Hr. unfold resets. rewrite (shape_sticky _ _ H), (shape_global _ _ H).
  exact Hr.
Qed.

Lemma matchedTexts_shape R R' s :
  shape R' = shape R -> resets R -> matchedTexts R' s = matchedTexts R s.
Proof.
  intros H Hr. rewrite (shape_eq _ _ H). unfold matchedTexts.
  rewrite RegExp_match_any by assumption. reflexivity.
Qed.

Lemma bind_normal {Rec A B} (m : M Rec A) (k : A -> M Rec B) st a st' :
  m st = (Normal a, st') -> bind m k st = k a st'.
Proof. unfold bind. intros ->. reflexivity. Qed.

Lemma bind_throw {Rec A B} (m : M Rec A) (k : A -> M Rec B) st err st' :
  m st = (Throw err, st') -> bind m k st = (Throw err, st').
Proof. unfold bind. intros ->. reflexivity. Qed.

(** A step that has returned or thrown: read off its result and state. *)
Ltac returned H := unfold ret, throw in H; injection H as <- <-.

Lemma setHeap_same {Rec} l R (st : State Rec) : heap (setHeap l R st) l = R.
Proof. unfold setHeap. simpl. apply fn_lookup_insert. Qed.

Lemma setHeap_other {Rec} l l' R (st : State Rec) :
  l <> l' -> heap (setHeap l R st) l' = heap st l'.
Proof. intros H. unfold setHeap. simpl. apply fn_lookup_insert_ne, H. Qed.

Lemma setHeap_quiet {Rec} l R (st : State Rec) :
  shape R = shape (heap st l) -> quiet st (setHeap l R st).
Proof.
  intros H. split; [reflexivity|]. split; [reflexivity|]. intros l'.
  destruct (Nat.eq_dec l l') as [<-|Hne].
  - rewrite setHeap_same. exact H.
  - rewrite setHeap_other by assumption. reflexivity.
Qed.

Lemma setHeap_atRest {Rec} l R (st : State Rec) l' :
  atRest R -> atRest (heap st l') -> atRest (heap (setHeap l R st) l').
Proof.
  intros HR H. destruct (Nat.eq_dec l l') as [<-|Hne].
  - rewrite setHeap_same. exact HR.
  - rewrite setHeap_other by assumption. exact H.
Qed.

(** [R.test(s)]: the answer and what it does to the heap. *)
Lemma test_spec {Rec} l s (st : State Rec) :
  exists b st',
    test l s st = (Normal b, st')
    /\ quiet st st'
    /\ (forall l', l' <> l -> heap st' l' = heap st l')
    /\ (b = false -> forall l', atRest (heap st l') -> atRest (heap st' l'))
    /\ (atRest (heap st l) -> b = matchesText (heap st l) s).
Proof.
  unfold test.
  pose proof (exec_shape (heap st l) s) as Hshape.
  pose proof (exec_miss_atRest (heap st l) s) as Hmiss.
  pose proof (exec_atRest (heap st l) s) as Hrest.
  destruct (RegExpBuiltinExec (heap st l) s) as [a R']. simpl in *.
  eexists. eexists. split; [reflexivity|].
  split; [|split; [|split]].
  - apply setHeap_quiet, Hshape.
  - intros l' Hne. apply setHeap_other. congruence.
  - intros Hb l' Hl'. apply setHeap_atRest; [|assumption].
    apply Hmiss. destruct a; [discriminate|reflexivity].
  - intros H. apply Hrest, H.
Qed.

(** [s.match(R)]: the array and the state it leaves; when the regex is
    not sticky without [g], every object that was at rest still is. *)
Lemma matchObject_spec {Rec} l s (st : State Rec) :
  exists st',
    matchObject l s st = (Normal (fst (RegExp_match (heap st l) s)), st')
    /\ quiet st st'
    /\ heap st' = <[l := snd (RegExp_match (heap st l) s)]> (heap st)
    /\ (resets (heap st l) -> forall l', atRest (heap st l') -> atRest (heap st' l')).
Proof.
  unfold matchObject.
  pose proof (RegExp_match_shape (heap st l) s) as Hshape.
  pose proof (RegExp_match_atRest (heap st l) s) as Hrest.
  destruct (RegExp_match (heap st l) s) as [a R']. simpl in *.
  eexists. split; [reflexivity|]. split; [|split].
  - apply setHeap_quiet, Hshape.
  - reflexivity.
  - intros Hr l' Hl'. apply (setHeap_atRest l R' st l'); auto.
Qed.

End StepFacts.

(** ** What each check does to the state, and when it fires *)

Module CheckFacts.

Import JSString Regex Host HostFacts StepFacts Guardrails.

Section WithParser.

Variable parse : string -> option regex.

Lemma patternTexts_quiet (st st' : St) s p :
  quiet st st' ->
  (forall l, p = PRegExp l -> resets (heap st l)) ->
  patternTexts parse (heap st') s p = patternTexts parse (heap st) s p.
Proof.
  intros (_ & _ & H) Hr. destruct p as [src|l]; simpl; [reflexivity|].
  apply matchedTexts_shape; [apply H|]. now apply Hr.
Qed.

Lemma quiet_resets (st st' : St) l :
  quiet st st' -> resets (heap st l) -> resets (heap st' l).
Proof. intros (_ & _ & H). apply shape_resets, H. Qed.

Lemma testPattern_run p s (st : St) r st' :
  testPattern parse p s st = (r, st') ->
  quiet st st'
  /\ (forall l, p <> PRegExp l -> heap st' l = heap st l)
  /\ (r = Normal false -> forall l, atRest (heap st l) -> atRest (heap st' l))
  /\ (compiles parse p -> (forall l, p = PRegExp l -> atRest (heap st l)) ->
      r = Normal (patternMatches parse (heap st) p s)).
Proof.
  destruct p as [src|l]; simpl.
  - unfold newRegExp. destruct (parse src) as [rx|] eqn:E.
    + intros H. returned H.
      split; [apply quiet_refl|]. split; [reflexivity|]. split; [auto|].
      intros _ _. f_equal. apply exec_atRest. intros _. reflexivity.
    + intros H. returned H.
      split; [apply quiet_refl|]. split; [reflexivity|]. split; [auto|].
      intros Hc. contradiction.
  - destruct (test_spec l s st) as (b & st1 & -> & Hq & Hframe & Hmiss & Hres).
    intros H. injection H as <- <-.
    split; [assumption|]. split; [|split].
    + intros l' Hne. apply Hframe. congruence.
    + intros Hb. apply Hmiss. congruence.
    + intros _ Hrest. f_equal. apply Hres, Hrest. reflexivity.
Qed.

Lemma firstBlocked_run ps s :
  forall (st : St) r st',
    firstBlocked parse ps s st = (r, st') ->
    quiet st st'
    /\ (r = Normal None -> forall l, atRest (heap st l) -> atRest (heap st' l)).
Proof.
  induction ps as [|p ps IH]; intros st r st' H; simpl in H.
  - injection H as <- <-. split; [apply quiet_refl|auto].
  - unfold bind in H.
    destruct (testPattern parse p s st) as [[b|err] st1] eqn:E;
      destruct (testPattern_run _ _ _ _ _ E) as (Hq & _ & Hmiss & _).
    + destruct b.
      * injection H as <- <-. split; [assumption|discriminate].
      * apply IH in H. destruct H as (Hq' & Hmiss').
        split; [eapply quiet_trans; eassumption|].
        intros Hr l Hl. apply Hmiss'; [assumption|]. apply Hmiss; auto.
    + injection H as <- <-. split; [assumption|discriminate].
Qed.

Lemma someAllowed_run ps s :
  forall (st : St) r st',
    someAllowed parse ps s st = (r, st') ->
    quiet st st'
    /\ (forall l, ~ In (PRegExp l) ps -> heap st' l = heap st l).
Proof.
  induction ps as [|p ps IH]; intros st r st' H; simpl in H.
  - injection H as <- <-. split; [apply quiet_refl|auto].
  - unfold bind in H.
    destruct (testPattern parse p s st) as [[b|err] st1] eqn:E;
      destruct (testPattern_run _ _ _ _ _ E) as (Hq & Hframe & _ & _).
    + destruct b.
      * injection H as <- <-. split; [assumption|].
        intros l Hl. apply Hframe. intros ->. apply Hl. now left.
      * apply IH in H. destruct H as (Hq' & Hframe').
        split; [eapply quiet_trans; eassumption|].
        intros l Hl. rewrite Hframe' by (intros Hin; apply Hl; now right).
        apply Hframe. intros ->. apply Hl. now left.
    + injection H as <- <-. split; [assumption|].
      intros l Hl. apply Hframe. intros ->. apply Hl. now left.
Qed.

Lemma patternToString_run p (st : St) :
  exists text, patternToString p st = (Normal text, st).
Proof. destruct p; simpl; eauto. Qed.

(** The pattern filter writes nothing to the console, and when it lets a
    text pass, every object outside the allowlist that was at rest still
    is. *)
Lemma checkBlockedPatterns_run e s (st : St) r st' :
  checkBlockedPatterns parse e s st = (r, st') ->
  quiet st st'
  /\ (r = Normal NotBlocked ->
      forall l, ~ In (PRegExp l) (allowedList e) ->
                atRest (heap st l) -> atRest (heap st' l)).
Proof.
  unfold checkBlockedPatterns, allowedList.
  destruct (enableContentFilter (config e)); cbn [negb].
  2:{ intros H. returned H. split; [apply quiet_refl|auto]. }
  destruct (firstBlocked parse (blockedPatterns (config e)) s st)
    as [[hit|err] st1] eqn:E;
    destruct (firstBlocked_run _ _ _ _ _ E) as (Hq & Hmiss).
  2:{ rewrite (bind_throw _ _ _ _ _ E). intros H. injection H as <- <-.
      split; [assumption|discriminate]. }
  rewrite (bind_normal _ _ _ _ _ E).
  destruct hit as [p|].
  - destruct (patternToString_run p st1) as (text & Ht).
    rewrite (bind_normal _ _ _ _ _ Ht). unfold ret.
    intros H. injection H as <- <-. split; [assumption|discriminate].
  - destruct (allowedPatterns (config e)) as [[|p ps]|].
    + intros H. returned H.
      split; [assumption|]. intros _ l _. auto.
    + destruct (someAllowed parse (p :: ps) s st1) as [[b|err] st2] eqn:E2;
        destruct (someAllowed_run _ _ _ _ _ E2) as (Hq2 & Hframe).
      * rewrite (bind_normal _ _ _ _ _ E2). intros H.
        assert (st' = st2) as ->
            by (destruct b; unfold ret in H; injection H; auto).
        split; [eapply quiet_trans; eassumption|].
        intros _ l Hl Hrest. rewrite Hframe by assumption. auto.
      * rewrite (bind_throw _ _ _ _ _ E2). intros H. injection H as <- <-.
        split; [eapply quiet_trans; eassumption|discriminate].
    + intros H. returned H.
      split; [assumption|]. intros _ l _. auto.
Qed.


Lemma matchPattern_run p s (st : St) r st' :
  matchPattern parse p s st = (r, st') ->
  quiet st st'
  /\ heap st' = afterMatch (heap st) s p
  /\ ((forall l, p = PRegExp l -> resets (heap st l)) ->
      forall l, atRest (heap st l) -> atRest (heap st' l))
  /\ (compiles parse p ->
      exists m, r = Normal m /\ textsOf m = patternTexts parse (heap st) s p).
Proof.
  destruct p as [src|l]; simpl.
  - unfold newRegExp. destruct (parse src) as [rx|] eqn:E.
    + intros H. returned H.
      split; [apply quiet_refl|]. split; [reflexivity|]. split; [auto|].
      intros _. eexists. split; reflexivity.
    + intros H. returned H.
      split; [apply quiet_refl|]. split; [reflexivity|]. split; [auto|].
      intros Hc. contradiction.
  - destruct (matchObject_spec l s st) as (st1 & -> & Hq & Hh & Hrest).
    intros H. injection H as <- <-.
    split; [assumption|]. split; [assumption|]. split.
    + intros Hr. apply Hrest, Hr. reflexivity.
    + intros _. eexists. split; reflexivity.
Qed.

Lemma collected_texts found m :
  match m with Some a => found ++ a | None => found end = found ++ textsOf m.
Proof. destruct m; simpl; [reflexivity|]. now rewrite app_nil_r. Qed.

(** The loop over the profanity patterns collects the texts that the
    patterns find, one after the other; it writes nothing and, when no
    pattern is sticky without [g], leaves at rest what was at rest. *)
Lemma collectMatches_run ps s :
  forall found (st : St) r st',
    collectMatches parse ps s found st = (r, st') ->
    quiet st st'
    /\ ((forall l, In (PRegExp l) ps -> resets (heap st l)) ->
        forall l, atRest (heap st l) -> atRest (heap st' l))
    /\ (Forall (compiles parse) ps ->
        r = Normal (found ++ textsFound parse (heap st) s ps)).
Proof.
  induction ps as [|p ps IH]; intros found st r st' H; cbn [collectMatches] in H.
  - returned H.
    split; [apply quiet_refl|]. split; [auto|].
    intros _. simpl. now rewrite app_nil_r.
  - destruct (matchPattern parse p s st) as [[m|err] st1] eqn:E;
      destruct (matchPattern_run _ _ _ _ _ E) as (Hq & Hh & Hrest & Hres).
    + rewrite (bind_normal _ _ _ _ _ E) in H. rewrite collected_texts in H.
      apply IH in H. destruct H as (Hq' & Hrest' & Hres').
      split; [eapply quiet_trans; eassumption|]. split.
      * intros Hr l Hl. apply Hrest'.
        -- intros l' Hl'. apply (quiet_resets st st1 l' Hq). apply Hr. now right.
        -- apply Hrest; [|exact Hl]. intros l' ->. apply Hr. now left.
      * intros Hall. inversion Hall as [|? ? Hp Hps]; subst.
        rewrite (Hres' Hps). destruct (Hres Hp) as (m' & Hm & Ht).
        injection Hm as <-. rewrite Ht, Hh. cbn [textsFound]. rewrite <- app_assoc.
        reflexivity.
    + rewrite (bind_throw _ _ _ _ _ E) in H. injection H as <- <-.
      split; [assumption|]. split.
      * intros Hr. apply Hrest. intros l' ->. apply Hr. now left.
      * intros Hall. inversion Hall as [|? ? Hp Hps]; subst.
        destruct (Hres Hp) as (m' & Hm & _). discriminate.
Qed.

Lemma checkProfanity_run e s (st : St) r st' :
  checkProfanity parse e s st = (r, st') ->
  quiet st st'
  /\ ((forall l, In (PRegExp l) (profanityPatterns e) -> resets (heap st l)) ->
      forall l, atRest (heap st l) -> atRest (heap st' l))
  /\ (enableProfanityFilter (config e) = true ->
      Forall (compiles parse) (profanityPatterns e) ->
      r = Normal
            (match textsFound parse (heap st) s (profanityPatterns e) with
             | [] => NoProfanity
             | found => Profanity (dedupe found) "Content contains profanity"
                                  "PROFANITY_DETECTED"
             end)).
Proof.
  unfold checkProfanity.
  destruct (enableProfanityFilter (config e)); cbn [negb].
  2:{ intros H. returned H.
      split; [apply quiet_refl|]. split; [auto|discriminate]. }
  destruct (collectMatches parse (profanityPatterns e) s [] st)
    as [[found|err] st1] eqn:E;
    destruct (collectMatches_run _ _ _ _ _ _ E) as (Hq & Hrest & Hres).
  - rewrite (bind_normal _ _ _ _ _ E). intros H.
    assert (st' = st1) as ->
        by (destruct found; unfold ret in H; injection H; auto).
    split; [assumption|]. split; [assumption|].
    intros _ Hall. specialize (Hres Hall). injection Hres as Hf.
    simpl in Hf. rewrite <- Hf.
    destruct found; unfold ret in H; injection H as <-; reflexivity.
  - rewrite (bind_throw _ _ _ _ _ E). intros H. injection H as <- <-.
    split; [assumption|]. split; [assumption|].
    intros _ Hall. specialize (Hres Hall). discriminate.
Qed.

(** When no pattern is sticky without [g], the patterns find what each
    finds by itself, whatever the [lastIndex] of the objects. *)
Lemma textsFound_flat (st : St) s ps :
  forall h,
    (forall l, shape (h l) = shape (heap st l)) ->
    (forall l, In (PRegExp l) ps -> resets (heap st l)) ->
    textsFound parse h s ps = flat_map (patternTexts parse (heap st) s) ps.
Proof.
  induction ps as [|p ps IH]; intros h Hs Hr; [reflexivity|].
  cbn [textsFound flat_map]. f_equal.
  - destruct p as [src|l]; [reflexivity|]. cbn [patternTexts].
    apply matchedTexts_shape; [apply Hs|]. apply Hr. now left.
  - apply IH.
    + intros l. destruct p as [src|l0]; cbn [afterMatch]; [apply Hs|].
      destruct (Nat.eq_dec l0 l) as [<-|Hne].
      * rewrite fn_lookup_insert, RegExp_match_shape. apply Hs.
      * rewrite fn_lookup_insert_ne by assumption. apply Hs.
    + intros l Hl. apply Hr. now right.
Qed.

Lemma existsb_same {A} (f g : A -> bool) l :
  (forall x, f x = g x) -> existsb f l = existsb g l.
Proof.
  intros H. induction l as [|x l IH]; simpl; [reflexivity|].
  now rewrite H, IH.
Qed.

Lemma patternMatches_quiet (st st' : St) s p :
  quiet st st' -> patternMatches parse (heap st') p s = patternMatches parse (heap st) p s.
Proof.
  intros Hq. destruct p as [src|l]; simpl; [reflexivity|].
  apply quiet_matchesText, Hq.
Qed.

(** On patterns that compile and objects at rest, the loop over the
    blocked patterns finds nothing when no pattern matches the text. *)
Lemma firstBlocked_none ps s :
  forall (st : St),
    Forall (compiles parse) ps ->
    (forall l, In (PRegExp l) ps -> atRest (heap st l)) ->
    (forall p, In p ps -> patternMatches parse (heap st) p s = false) ->
    exists st', firstBlocked parse ps s st = (Normal None, st').
Proof.
  induction ps as [|p ps IH]; intros st Hall Hrest Hno; cbn [firstBlocked].
  - unfold ret. eauto.
  - inversion Hall as [|? ? Hp Hps]; subst.
    destruct (testPattern parse p s st) as [r st1] eqn:E.
    destruct (testPattern_run _ _ _ _ _ E) as (Hq & _ & Hmiss & Hres).
    rewrite Hres in E by (auto; intros l ->; apply Hrest; now left).
    rewrite (Hno p (or_introl eq_refl)) in E.
    rewrite (bind_normal _ _ _ _ _ E).
    apply IH; [assumption| |].
    + intros l Hl. eapply Hmiss; [|apply Hrest; now right].
      rewrite Hres by (auto; intros l' ->; apply Hrest; now left).
      now rewrite (Hno p (or_introl eq_refl)).
    + intros q Hq'. rewrite (patternMatches_quiet st st1) by assumption.
      apply Hno. now right.
Qed.

(** On patterns that compile and objects at rest, [some] over the allowed
    patterns answers whether one of them matches the text. *)
Lemma someAllowed_atRest ps s :
  forall (st : St),
    Forall (compiles parse) ps ->
    (forall l, In (PRegExp l) ps -> atRest (heap st l)) ->
    fst (someAllowed parse ps s st)
    = Normal (existsb (fun p => patternMatches parse (heap st) p s) ps).
Proof.
  induction ps as [|p ps IH]; intros st Hall Hrest; cbn [someAllowed existsb].
  - reflexivity.
  - inversion Hall as [|? ? Hp Hps]; subst.
    destruct (testPattern parse p s st) as [r st1] eqn:E.
    destruct (testPattern_run _ _ _ _ _ E) as (Hq & _ & Hmiss & Hres).
    rewrite Hres in E by (auto; intros l ->; apply Hrest; now left).
    rewrite (bind_normal _ _ _ _ _ E).
    destruct (patternMatches parse (heap st) p s) eqn:Em; [reflexivity|].
    rewrite IH; [|assumption|].
    + cbn [orb]. f_equal. apply existsb_same. intros q.
      apply patternMatches_quiet, Hq.
    + intros l Hl. eapply Hmiss; [|apply Hrest; now right].
      rewrite Hres by (auto; intros l' ->; apply Hrest; now left). reflexivity.
Qed.

(** The allowlist gate on an engine whose patterns compile and whose
    objects are at rest: with content filtering enabled and no blocked
    pattern matching, a non-empty allowlist blocks the text with
    NOT_ALLOWED_PATTERN exactly when none of its patterns matches; an
    absent or empty allowlist blocks nothing. *)
Lemma allowlist_gate_at_rest e s (st : St) :
  enableContentFilter (config e) = true ->
  Forall (compiles parse) (blockedPatterns (config e) ++ allowedList e) ->
  (forall l, In (PRegExp l) (blockedPatterns (config e) ++ allowedList e) ->
             atRest (heap st l)) ->
  (forall p, In p (blockedPatterns (config e)) ->
             patternMatches parse (heap st) p s = false) ->
  fst (checkBlockedPatterns parse e s st)
  = Normal
      (match allowedList e with
       | [] => NotBlocked
       | ps =>
           if existsb (fun p => patternMatches parse (heap st) p s) ps
           then NotBlocked
           else Blocked None "Content does not match any allowed pattern"
                        "NOT_ALLOWED_PATTERN"
       end).
Proof.
  intros Hon Hall Hrest Hno. apply Forall_app in Hall. destruct Hall as [Hb Ha].
  unfold checkBlockedPatterns. rewrite Hon. cbn [negb].
  destruct (firstBlocked_none (blockedPatterns (config e)) s st Hb) as (st1 & E).
  { intros l Hl. apply Hrest, in_or_app. now left. }
  { assumption. }
  destruct (firstBlocked_run _ _ _ _ _ E) as (Hq & Hkeep).
  rewrite (bind_normal _ _ _ _ _ E).
  unfold allowedList in *.
  destruct (allowedPatterns (config e)) as [[|p ps]|]; try reflexivity.
  pose proof (someAllowed_atRest (p :: ps) s st1 Ha) as Hsome.
  destruct (someAllowed parse (p :: ps) s st1) as [r st2] eqn:E2.
  simpl fst in Hsome. rewrite Hsome in E2.
  2:{ intros l Hl. apply Hkeep; [reflexivity|]. apply Hrest, in_or_app. now right. }
  rewrite (existsb_same _ (fun q => patternMatches parse (heap st) q s)) in E2
    by (intros q; apply patternMatches_quiet, Hq).
  rewrite (bind_normal _ _ _ _ _ E2).
  destruct (existsb (fun q => patternMatches parse (heap st) q s) (p :: ps));
    reflexivity.
Qed.

End WithParser.

(** The harmful-content check. *)
Lemma anyHarmful_run ps s :
  forall (st : St) r st', anyHarmful ps s st = (r, st') -> quiet st st'.
Proof.
  induction ps as [|[src|l] ps IH]; intros st r st' H; cbn [anyHarmful] in H.
  - returned H. apply quiet_refl.
  - returned H. apply quiet_refl.
  - destruct (test_spec l s st) as (b & st1 & E & Hq & _).
    rewrite (bind_normal _ _ _ _ _ E) in H. destruct b.
    + returned H. assumption.
    + apply IH in H. eapply quiet_trans; eassumption.
Qed.


Lemma checkHarmfulContent_run e s (st : St) r st' :
  checkHarmfulContent e s st = (r, st') -> quiet st st'.
Proof.
  unfold checkHarmfulContent.
  destruct (enableContentFilter (config e)); cbn [negb].
  2:{ intros H. returned H. apply quiet_refl. }
  destruct (anyHarmful (harmfulPatterns e) s st) as [[b|err] st1] eqn:E;
    pose proof (anyHarmful_run _ _ _ _ _ E) as Hq.
  - rewrite (bind_normal _ _ _ _ _ E). intros H.
    destruct b; unfold ret in H; injection H as <- <-; assumption.
  - rewrite (bind_throw _ _ _ _ _ E). intros H. injection H as <- <-. assumption.
Qed.



End CheckFacts.

(** ** The input pipeline *)

Module InputFacts.

Import JSString Regex Host HostFacts StepFacts CheckFacts Guardrails Examples.

Section WithParser.

Variable parse : string -> option regex.



End WithParser.





End InputFacts.

(** * Further properties *)

(** ** The validator, the constructor and [configure] *)

Module MoreConfigFacts.

Import JSString Regex Host Guardrails Examples Notions.

Lemma allWhite_allChars s : allWhite s = allChars isWhiteSpace s.
Proof. induction s as [|c s IH]; simpl; [reflexivity|]. now rewrite IH. Qed.

Lemma dropWhile_empty p s : dropWhile p s = "" <-> allChars p s = true.
Proof.
  induction s as [|c s IH]; simpl; [tauto|].
  destruct (p c); simpl; [exact IH|]. split; discriminate.
Qed.

Lemma allChars_dropWhile p s : allChars p (dropWhile p s) = true -> allChars p s = true.
Proof.
  induction s as [|c s IH]; simpl; [auto|].
  destruct (p c) eqn:E; simpl; [exact IH|]. rewrite E. simpl. auto.
Qed.

Lemma allChars_rev_acc p s :
  forall acc, allChars p (rev_acc s acc) = allChars p s && allChars p acc.
Proof.
  induction s as [|c s IH]; intros acc; simpl; [reflexivity|].
  rewrite IH. simpl. destruct (p c), (allChars p s); reflexivity.
Qed.

Lemma allChars_rev p s : allChars p (rev s) = allChars p s.
Proof. unfold rev. rewrite allChars_rev_acc. simpl. apply andb_true_r. Qed.

Lemma rev_acc_empty s : forall acc, rev_acc s acc = "" -> s = "" /\ acc = "".
Proof.
  induction s as [|c s IH]; intros acc H; simpl in H; [auto|].
  apply IH in H. destruct H as [_ H]. discriminate.
Qed.

(** [s.trim()] is empty exactly when [s] holds nothing but white space. *)
Lemma trim_empty s : isEmpty (trim s) = allWhite s.
Proof.
  rewrite allWhite_allChars. unfold trim.
  destruct (allChars isWhiteSpace s) eqn:E.
  - apply dropWhile_empty in E. rewrite E. reflexivity.
  - destruct (rev (dropWhile isWhiteSpace (rev (dropWhile isWhiteSpace s)))) eqn:R;
      [|reflexivity].
    exfalso. unfold rev in R at 1. apply rev_acc_empty in R. destruct R as [R _].
    apply dropWhile_empty in R. rewrite allChars_rev in R.
    apply allChars_dropWhile in R. congruence.
Qed.

Lemma valid_message e m :
  validateInput e m = Valid ->
  exists s,
    m = MString s
    /\ (minMessageLength (config e) <= lengthZ s <= maxMessageLength (config e))%Z
    /\ allWhite s = false.
Proof.
  destruct m as [s|]; simpl; [|discriminate].
  destruct (lengthZ s <? _)%Z eqn:E1; [discriminate|].
  destruct (lengthZ s >? _)%Z eqn:E2; [discriminate|].
  rewrite trim_empty. destruct (allWhite s) eqn:E3; [discriminate|].
  intros _. exists s. apply Z.ltb_ge in E1. rewrite Z.gtb_ltb in E2.
  apply Z.ltb_ge in E2. repeat split; assumption.
Qed.

(** X1. [validateInput] accepts exactly the strings whose length lies
    between [minMessageLength] and [maxMessageLength] (both included) and
    that hold a character other than white space. *)
Theorem validateInput_valid_iff e m :
  validateInput e m = Valid
  <-> exists s,
        m = MString s
        /\ (minMessageLength (config e) <= lengthZ s <= maxMessageLength (config e))%Z
        /\ allWhite s = false.
Proof.
  split.
  - apply valid_message.
  - intros (s & -> & [Hlo Hhi] & Hw). simpl.
    replace (lengthZ s <? minMessageLength (config e))%Z with false
      by (symmetry; apply Z.ltb_ge; lia).
    replace (lengthZ s >? maxMessageLength (config e))%Z with false
      by (symmetry; rewrite Z.gtb_ltb; apply Z.ltb_ge; lia).
    rewrite trim_empty, Hw. reflexivity.
Qed.

Lemma validateInput_valid_iff_witness :
  validateInput defaultEngine (MString "hi") = Valid.
Proof.
  apply (proj2 (validateInput_valid_iff defaultEngine (MString "hi"))).
  exists "hi". split; [reflexivity|]. split; [|reflexivity].
  split; vm_compute; discriminate.
Defined.

(** X2. A text of white space only, with a length inside the bounds, is
    rejected with EMPTY_MESSAGE; this includes the empty string when
    [minMessageLength] is 0 or less. *)
Theorem blank_message_is_empty e s :
  allWhite s = true ->
  (minMessageLength (config e) <= lengthZ s <= maxMessageLength (config e))%Z ->
  validateInput e (MString s) = Invalid "Message cannot be empty" "EMPTY_MESSAGE".
Proof.
  intros Hw [Hlo Hhi]. simpl.
  replace (lengthZ s <? minMessageLength (config e))%Z with false
    by (symmetry; apply Z.ltb_ge; lia).
  replace (lengthZ s >? maxMessageLength (config e))%Z with false
    by (symmetry; rewrite Z.gtb_ltb; apply Z.ltb_ge; lia).
  rewrite trim_empty, Hw. reflexivity.
Qed.

Lemma blank_message_is_empty_witness :
  validateInput defaultEngine (MString "   ")
  = Invalid "Message cannot be empty" "EMPTY_MESSAGE".
Proof.
  apply blank_message_is_empty; [reflexivity|]. split; vm_compute; discriminate.
Defined.

Lemma spread_override {A} (a b : option A) (old : A) :
  spread a (spread b old) = spread (override a b) old.
Proof. destruct a, b; reflexivity. Qed.

Lemma override_assoc {A} (a b old : option A) :
  override a (override b old) = override (override a b) old.
Proof. destruct a, b; reflexivity. Qed.

Lemma override_same {A} (a : option A) : override a a = a.
Proof. destruct a; reflexivity. Qed.

Lemma configure_config e o1 o2 :
  config (configure (configure e o1) o2) = config (configure e (overlay o1 o2)).
Proof.
  unfold configure, overlay. cbn [config profanityPatterns harmfulPatterns
    maxMessageLength minMessageLength enableContentFilter blockedPatterns
    allowedPatterns enableProfanityFilter enableOutputModeration
    maxResponseLength policies logViolations violationAction
    cfg_profanityPatterns cfg_harmfulPatterns
    opt_maxMessageLength opt_minMessageLength opt_enableContentFilter
    opt_blockedPatterns opt_allowedPatterns opt_enableProfanityFilter
    opt_enableOutputModeration opt_maxResponseLength opt_policies
    opt_logViolations opt_violationAction opt_profanityPatterns
    opt_harmfulPatterns].
  rewrite !spread_override, !override_assoc. reflexivity.
Qed.

Lemma engine_eq (e e2 : Engine) :
  config e = config e2 ->
  profanityPatterns e = profanityPatterns e2 ->
  harmfulPatterns e = harmfulPatterns e2 ->
  e = e2.
Proof. destruct e, e2. simpl. intros -> -> ->. reflexivity. Qed.

(** X3. Two calls of [configure] give the configuration of one call with
    the two partials laid over each other, the keys of the later one
    winning. They give the same engine as that one call when the later
    partial holds no [null] or [undefined] for [profanityPatterns] or
    [harmfulPatterns]; when it does, the set of the first call stays, where
    the one call keeps the set of the engine. Repeating a call changes
    nothing, and a call with no keys changes nothing. *)
Theorem configure_composes e o1 o2 :
  config (configure (configure e o1) o2) = config (configure e (overlay o1 o2))
  /\ (opt_profanityPatterns o2 <> Some None ->
      opt_harmfulPatterns o2 <> Some None ->
      configure (configure e o1) o2 = configure e (overlay o1 o2))
  /\ (opt_profanityPatterns o2 = Some None ->
      profanityPatterns (configure (configure e o1) o2)
      = profanityPatterns (configure e o1)
      /\ profanityPatterns (configure e (overlay o1 o2)) = profanityPatterns e)
  /\ (opt_harmfulPatterns o2 = Some None ->
      harmfulPatterns (configure (configure e o1) o2) = harmfulPatterns (configure e o1)
      /\ harmfulPatterns (configure e (overlay o1 o2)) = harmfulPatterns e)
  /\ configure (configure e o1) o1 = configure e o1
  /\ configure e noOptions = e.
Proof.
  split; [apply configure_config|]. split; [|split; [|split; [|split]]].
  - intros Hp Hh. apply engine_eq; [apply configure_config| |].
    + unfold configure, overlay. cbn [profanityPatterns opt_profanityPatterns].
      destruct (opt_profanityPatterns o2) as [[ps|]|]; [reflexivity|congruence|].
      reflexivity.
    + unfold configure, overlay. cbn [harmfulPatterns opt_harmfulPatterns].
      destruct (opt_harmfulPatterns o2) as [[ps|]|]; [reflexivity|congruence|].
      reflexivity.
  - intros Hp. unfold configure, overlay. cbn [profanityPatterns opt_profanityPatterns].
    rewrite Hp. split; reflexivity.
  - intros Hh. unfold configure, overlay. cbn [harmfulPatterns opt_harmfulPatterns].
    rewrite Hh. split; reflexivity.
  - apply engine_eq.
    + rewrite configure_config. unfold configure, overlay.
      cbn [config opt_maxMessageLength opt_minMessageLength opt_enableContentFilter
        opt_blockedPatterns opt_allowedPatterns opt_enableProfanityFilter
        opt_enableOutputModeration opt_maxResponseLength opt_policies
        opt_logViolations opt_violationAction opt_profanityPatterns
        opt_harmfulPatterns].
      rewrite !override_same. reflexivity.
    + unfold configure. cbn [profanityPatterns].
      destruct (opt_profanityPatterns o1) as [[ps|]|]; reflexivity.
    + unfold configure. cbn [harmfulPatterns].
      destruct (opt_harmfulPatterns o1) as [[ps|]|]; reflexivity.
  - destruct e as [[] ? ?]. reflexivity.
Qed.

(** [configure({profanityPatterns: ['darn']})] and then
    [configure({profanityPatterns: null})] leave the set ['darn'], where
    the one call with the two partials laid over each other keeps the
    default pattern. *)
Lemma configure_null_after_array :
  profanityPatterns (configure (configure defaultEngine onlyDarn) noProfanity)
  = [PString "darn"]
  /\ profanityPatterns (configure defaultEngine (overlay onlyDarn noProfanity))
     = [PRegExp 0].
Proof. split; reflexivity. Qed.

(** The constructor takes every key that the options have, whatever its
    value, and the default for every key that they lack; it allocates a
    fresh RegExp object for each pattern set that the options lack and
    leaves the objects that exist alone. *)
Lemma constructor_config o (st : St) :
  exists e st',
    constructor o st = (Normal e, st')
    /\ config e
       = {| maxMessageLength := spread (opt_maxMessageLength o) 10000%Z;
            minMessageLength := spread (opt_minMessageLength o) 1%Z;
            enableContentFilter := spread (opt_enableContentFilter o) true;
            blockedPatterns := spread (opt_blockedPatterns o) [];
            allowedPatterns := spread (opt_allowedPatterns o) None;
            enableProfanityFilter := spread (opt_enableProfanityFilter o) true;
            enableOutputModeration := spread (opt_enableOutputModeration o) true;
            maxResponseLength := spread (opt_maxResponseLength o) 50000%Z;
            policies := spread (opt_policies o) (Some []);
            logViolations := spread (opt_logViolations o) true;
            violationAction := spread (opt_violationAction o) Reject;
            cfg_profanityPatterns := opt_profanityPatterns o;
            cfg_harmfulPatterns := opt_harmfulPatterns o |}
    /\ console st' = console st
    /\ (forall l, l < nextLoc st -> heap st' l = heap st l).
Proof.
  assert (forall (x : option Z) d, spread x (orNumber x d) = spread x d) as H1
      by (intros [v|] d; reflexivity).
  assert (forall (x : option bool), spread x (notFalse x) = spread x true) as H2
      by (intros [[|]|]; reflexivity).
  assert (forall A (x : option A) d, spread x (orElse x d) = spread x d) as H3
      by (intros A [v|] d; reflexivity).
  unfold constructor, bind, alloc, ret.
  destruct (opt_profanityPatterns o) as [[?|]|], (opt_harmfulPatterns o) as [[?|]|];
    eexists; eexists; (split; [reflexivity|]);
    cbn [config console heap nextLoc]; rewrite !H1, !H2, !H3;
    (split; [destruct (opt_policies o) as [[?|]|]; reflexivity|]);
    (split; [reflexivity|]); intros k Hk;
    rewrite ?fn_lookup_insert_ne by lia; reflexivity.
Qed.

(** X4. The defaults of the constructor apply to absent keys only: a key
    that the options have is taken as it is, also when its value is 0. With
    [maxMessageLength: 0] the engine therefore accepts no message at all. *)
Theorem zero_limit_is_kept o (st : St) e st' :
  constructor o st = (Normal e, st') ->
  opt_maxMessageLength o = Some 0%Z ->
  maxMessageLength (config e) = 0%Z
  /\ forall m, validateInput e m <> Valid.
Proof.
  intros Hc Ho. destruct (constructor_config o st) as (e0 & st0 & Hc0 & Hcfg & _).
  rewrite Hc in Hc0. injection Hc0 as <- <-.
  assert (maxMessageLength (config e) = 0%Z) as Hmax
      by (rewrite Hcfg; simpl; rewrite Ho; reflexivity).
  split; [exact Hmax|].
  intros m Hv. apply valid_message in Hv.
  destruct Hv as (s & -> & [Hlo Hhi] & Hw). rewrite Hmax in Hhi.
  destruct s as [|c s]; [discriminate|].
  unfold lengthZ in Hhi. simpl String.length in Hhi. lia.
Qed.

Lemma zero_limit_is_kept_witness :
  let e := mkEngine (mkConfig 0 1 true [] None true true 50000 (Some []) true Reject
                              None None) [PRegExp 0] [PRegExp 1] in
  maxMessageLength (config e) = 0%Z /\ forall m, validateInput e m <> Valid.
Proof.
  exact (zero_limit_is_kept
           (mkOptions (Some 0%Z) None None None None None None None None None None
                      None None) initial _ ready eq_refl eq_refl).
Defined.

(** X5. Without pattern options, [new Guardrails(options)] creates its
    two default regexes as new objects, with [lastIndex] 0, at the next two
    free locations; no object that existed before is touched. Engines built
    one after the other therefore share no RegExp object. *)
Theorem constructor_fresh_regexes o (st : St) e st' :
  constructor o st = (Normal e, st') ->
  opt_profanityPatterns o = None ->
  opt_harmfulPatterns o = None ->
  profanityPatterns e = [PRegExp (nextLoc st)]
  /\ harmfulPatterns e = [PRegExp (S (nextLoc st))]
  /\ heap st' (nextLoc st) = defaultProfanity
  /\ heap st' (S (nextLoc st)) = defaultHarmful
  /\ nextLoc st' = S (S (nextLoc st))
  /\ (forall l, l < nextLoc st -> heap st' l = heap st l).
Proof.
  unfold constructor, bind, alloc, ret. intros H Hp Hh. rewrite Hp, Hh in H.
  injection H as <- <-. cbn [profanityPatterns harmfulPatterns heap nextLoc].
  repeat split.
  - rewrite fn_lookup_insert_ne by lia. apply fn_lookup_insert.
  - apply fn_lookup_insert.
  - intros l Hl. rewrite !fn_lookup_insert_ne by lia. reflexivity.
Qed.

Lemma constructor_fresh_regexes_witness :
  profanityPatterns defaultEngine = [PRegExp 0]
  /\ harmfulPatterns defaultEngine = [PRegExp 1]
  /\ heap ready 0 = defaultProfanity
  /\ heap ready 1 = defaultHarmful
  /\ nextLoc ready = 2
  /\ (forall l, l < 0 -> heap ready l = heap initial l).
Proof.
  apply (constructor_fresh_regexes noOptions initial defaultEngine ready);
    reflexivity.
Defined.

End MoreConfigFacts.

(** ** The policy engine, in full *)

Module MorePolicyFacts.

Import JSString Regex Host Guardrails Examples Notions PolicyFacts.

(** X6. When every configured policy answers the call, [applyPolicies]
    reports the violations of the policies that fail, all of them and in
    configuration order (a failing policy does not stop the later ones),
    together with their number; it passes exactly when no policy fails. *)
Theorem applyPolicies_collects_all e content context ps :
  policies (config e) = Some ps ->
  Forall (fun q => answers q content context) ps ->
  applyPolicies e content context
  = Normal (match violationsOf ps content context with
            | [] => Passed
            | vs => Failed vs
                      ("Violated " ++ showNat (List.length vs) ++ " policy/policies")%string
                      "POLICY_VIOLATION"
            end).
Proof.
  intros Hps Hall. unfold applyPolicies. rewrite Hps.
  destruct ps as [|p ps]; [reflexivity|].
  rewrite policyLoop_collects by assumption.
  change ([] ++ violationsOf (p :: ps) content context)
    with (violationsOf (p :: ps) content context).
  destruct (violationsOf (p :: ps) content context); reflexivity.
Qed.

Lemma applyPolicies_collects_all_witness :
  applyPolicies (guarded [noSpam; passing; noSpam]) "spam" Input
  = Normal (Failed [mkViolation "unnamed" (Some "Policy check failed") "POLICY_VIOLATION";
                    mkViolation "unnamed" (Some "Policy check failed") "POLICY_VIOLATION"]
              "Violated 2 policy/policies" "POLICY_VIOLATION").
Proof.
  apply (applyPolicies_collects_all (guarded [noSpam; passing; noSpam]) "spam" Input
           [noSpam; passing; noSpam] eq_refl).
  repeat constructor.
Defined.

Lemma policyLoop_prefix before content context :
  forall rest found,
    Forall (fun q => answers q content context) before ->
    policyLoop (before ++ rest) content context found
    = policyLoop rest content context (found ++ violationsOf before content context).
Proof.
  induction before as [|p ps IH]; intros rest found Hall.
  - simpl. now rewrite app_nil_r.
  - inversion Hall as [|? ? Hp Hps]; subst.
    rewrite <- app_comm_cons, policyLoop_step by assumption.
    rewrite IH by assumption. unfold violationsOf. simpl.
    now rewrite <- app_assoc.
Qed.

(** X7. A predicate that returns [undefined] (or [null]) is not caught by
    the try of [_evaluatePolicy]: [applyPolicies] throws a TypeError when
    it reads [passed] of the result, and so do [moderateInput] and
    [moderateOutput] when they reach the policies; the violations found
    before are lost. *)
Theorem silent_predicate_throws e content context before p after :
  policies (config e) = Some (before ++ p :: after) ->
  Forall (fun q => answers q content context) before ->
  returnsNothing p content context ->
  applyPolicies e content context = Throw TypeError.
Proof.
  intros Hps Hall Hp. unfold applyPolicies. rewrite Hps.
  assert (policyLoop (before ++ p :: after) content context [] = Throw TypeError) as ->.
  { rewrite policyLoop_prefix by assumption. cbn [policyLoop].
    destruct p as [n f|n r [chk|]| |]; simpl in Hp; try contradiction;
      simpl; rewrite Hp; reflexivity. }
  destruct (before ++ p :: after) eqn:E; [|reflexivity].
  destruct before; discriminate.
Qed.

Lemma silent_predicate_throws_witness :
  applyPolicies (guarded [noSpam; PFunction "forgetful" (fun _ _ => Returns RNullish)])
                "spam" Input
  = Throw TypeError.
Proof.
  apply (silent_predicate_throws _ "spam" Input [noSpam]
           (PFunction "forgetful" (fun _ _ => Returns RNullish)) []).
  - reflexivity.
  - repeat constructor.
  - reflexivity.
Defined.

End MorePolicyFacts.

(** ** What a moderation call can change *)

Module FrameFacts.

Import JSString Regex Host HostFacts StepFacts CheckFacts Guardrails Examples Notions.

Section Steps.

Variable W : LogRecord -> Prop.

Lemma touchesOnly_refl L (st : St) : touchesOnly L W st st.
Proof.
  repeat split; try reflexivity. exists []. split; [now rewrite app_nil_r|constructor].
Qed.

Lemma touchesOnly_trans L (a b c : St) :
  touchesOnly L W a b -> touchesOnly L W b c -> touchesOnly L W a c.
Proof.
  intros (N1 & S1 & F1 & logs1 & C1 & W1) (N2 & S2 & F2 & logs2 & C2 & W2).
  split; [congruence|]. split; [|split].
  - intros l. rewrite S2. apply S1.
  - intros l Hl. rewrite F2 by assumption. now apply F1.
  - exists (logs1 ++ logs2). split.
    + rewrite C2, C1. now rewrite app_assoc.
    + apply Forall_app. now split.
Qed.

Lemma touchesOnly_mono (L L' : loc -> Prop) (st st' : St) :
  (forall l, L l -> L' l) -> touchesOnly L W st st' -> touchesOnly L' W st st'.
Proof.
  intros Hsub (N & S & F & C). repeat split; try assumption.
  intros l Hl. apply F. intros HL. apply Hl, Hsub, HL.
Qed.

Lemma quiet_touchesOnly L (st st' : St) :
  quiet st st' -> (forall l, ~ L l -> heap st' l = heap st l) -> touchesOnly L W st st'.
Proof.
  intros (C & N & S) F. repeat split; try assumption.
  exists []. split; [now rewrite app_nil_r|constructor].
Qed.

Lemma keeps_mono {A} (L L' : loc -> Prop) (m : Run A) :
  (forall l, L l -> L' l) -> keeps (touchesOnly L W) m -> keeps (touchesOnly L' W) m.
Proof. intros Hsub H st. eapply touchesOnly_mono; [exact Hsub|apply H]. Qed.

Lemma keeps_ret {A} L (a : A) : keeps (touchesOnly L W) (ret a).
Proof. intros st. apply touchesOnly_refl. Qed.

Lemma keeps_throw {A} L err : keeps (touchesOnly L W) (@throw LogRecord A err).
Proof. intros st. apply touchesOnly_refl. Qed.

Lemma keeps_lift {A} L (c : Completion A) : keeps (touchesOnly L W) (lift c).
Proof. intros st. apply touchesOnly_refl. Qed.

Lemma keeps_bind {A B} L (m : Run A) (k : A -> Run B) :
  keeps (touchesOnly L W) m -> (forall a, keeps (touchesOnly L W) (k a)) ->
  keeps (touchesOnly L W) (bind m k).
Proof.
  intros Hm Hk st. unfold bind. specialize (Hm st).
  destruct (m st) as [[a|err] st1]; simpl in Hm.
  - eapply touchesOnly_trans; [exact Hm|apply Hk].
  - exact Hm.
Qed.

Lemma test_keeps (L : loc -> Prop) l s : L l -> keeps (touchesOnly L W) (test l s).
Proof.
  intros HL st. destruct (test_spec l s st) as (b & st' & E & Hq & Hf & _).
  rewrite E. apply quiet_touchesOnly; [exact Hq|].
  intros l' Hl'. apply Hf. intros ->. contradiction.
Qed.

Lemma matchObject_keeps (L : loc -> Prop) l s :
  L l -> keeps (touchesOnly L W) (matchObject l s).
Proof.
  intros HL st. destruct (matchObject_spec l s st) as (st' & E & Hq & _).
  assert (forall l', l' <> l -> heap (snd (matchObject l s st)) l' = heap st l') as Hf.
  { intros l' Hl'. unfold matchObject. destruct (RegExp_match (heap st l) s).
    simpl. apply fn_lookup_insert_ne. congruence. }
  rewrite E in *. apply quiet_touchesOnly; [exact Hq|].
  intros l' Hl'. apply Hf. intros ->. contradiction.
Qed.

Lemma logged_state e type details (st : St) :
  nextLoc (logged e type details st) = nextLoc st
  /\ heap (logged e type details st) = heap st
  /\ console (logged e type details st)
     = console st ++ (if logViolations (config e) then [mkLogRecord type details] else []).
Proof.
  unfold logged, _logViolation. destruct (logViolations (config e)); simpl.
  - repeat split.
  - repeat split. now rewrite app_nil_r.
Qed.

Lemma logViolation_logged e type details (st : St) :
  _logViolation e type details st = (Normal tt, logged e type details st).
Proof.
  unfold logged, _logViolation. destruct (logViolations (config e)); reflexivity.
Qed.

Lemma logViolation_keeps L e type details :
  (logViolations (config e) = true -> W (mkLogRecord type details)) ->
  keeps (touchesOnly L W) (_logViolation e type details).
Proof.
  intros HW st. destruct (logged_state e type details st) as (N & H & C).
  fold (logged e type details st).
  split; [exact N|]. split; [|split].
  - intros l. now rewrite H.
  - intros l _. now rewrite H.
  - eexists. split; [exact C|].
    destruct (logViolations (config e)); repeat constructor. now apply HW.
Qed.

Lemma anyHarmful_keeps (L : loc -> Prop) ps s :
  (forall l, In (PRegExp l) ps -> L l) -> keeps (touchesOnly L W) (anyHarmful ps s).
Proof.
  induction ps as [|[src|l] rest IH]; intros HL; cbn [anyHarmful].
  - apply keeps_ret.
  - apply keeps_throw.
  - apply keeps_bind.
    + apply test_keeps, HL. now left.
    + intros [|]; [apply keeps_ret|]. apply IH. intros l' Hl'. apply HL. now right.
Qed.

Lemma checkHarmfulContent_keeps e s :
  keeps (touchesOnly (harmfulObjects e) W) (checkHarmfulContent e s).
Proof.
  unfold checkHarmfulContent. destruct (negb (enableContentFilter (config e))).
  - apply keeps_ret.
  - apply keeps_bind.
    + apply anyHarmful_keeps. auto.
    + intros [|]; apply keeps_ret.
Qed.

Variable parse : string -> option regex.

Lemma testPattern_keeps (L : loc -> Prop) p s :
  (forall l, p = PRegExp l -> L l) -> keeps (touchesOnly L W) (testPattern parse p s).
Proof.
  intros HL st. destruct (testPattern parse p s st) as [r st'] eqn:E.
  destruct (testPattern_run _ _ _ _ _ _ E) as (Hq & Hf & _).
  apply quiet_touchesOnly; [exact Hq|].
  intros l Hl. apply Hf. intros ->. apply Hl, HL. reflexivity.
Qed.

Lemma firstBlocked_keeps (L : loc -> Prop) ps s :
  (forall l, In (PRegExp l) ps -> L l) -> keeps (touchesOnly L W) (firstBlocked parse ps s).
Proof.
  induction ps as [|p rest IH]; intros HL; cbn [firstBlocked].
  - apply keeps_ret.
  - apply keeps_bind.
    + apply testPattern_keeps. intros l ->. apply HL. now left.
    + intros [|]; [apply keeps_ret|]. apply IH. intros l Hl. apply HL. now right.
Qed.

Lemma someAllowed_keeps (L : loc -> Prop) ps s :
  (forall l, In (PRegExp l) ps -> L l) -> keeps (touchesOnly L W) (someAllowed parse ps s).
Proof.
  induction ps as [|p rest IH]; intros HL; cbn [someAllowed].
  - apply keeps_ret.
  - apply keeps_bind.
    + apply testPattern_keeps. intros l ->. apply HL. now left.
    + intros [|]; [apply keeps_ret|]. apply IH. intros l Hl. apply HL. now right.
Qed.

Lemma patternToString_keeps L p : keeps (touchesOnly L W) (patternToString p).
Proof.
  intros st. destruct (patternToString_run p st) as (text & E). rewrite E.
  apply touchesOnly_refl.
Qed.

Lemma checkBlockedPatterns_keeps e s :
  keeps (touchesOnly (filterObjects e) W) (checkBlockedPatterns parse e s).
Proof.
  unfold checkBlockedPatterns. destruct (negb (enableContentFilter (config e))).
  - apply keeps_ret.
  - apply keeps_bind.
    + apply firstBlocked_keeps. intros l Hl. apply in_or_app. now left.
    + intros [p|].
      * apply keeps_bind; [apply patternToString_keeps|]. intros text. apply keeps_ret.
      * destruct (allowedPatterns (config e)) as [[|q qs]|] eqn:Ea; try apply keeps_ret.
        apply keeps_bind.
        -- apply someAllowed_keeps. intros l Hl. apply in_or_app. right.
           unfold allowedList. now rewrite Ea.
        -- intros [|]; apply keeps_ret.
Qed.

Lemma matchPattern_keeps (L : loc -> Prop) p s :
  (forall l, p = PRegExp l -> L l) -> keeps (touchesOnly L W) (matchPattern parse p s).
Proof.
  intros HL. destruct p as [src|l]; cbn [matchPattern].
  - unfold newRegExp. destruct (parse src); [apply keeps_ret|apply keeps_throw].
  - apply matchObject_keeps, HL. reflexivity.
Qed.

Lemma collectMatches_keeps (L : loc -> Prop) ps s :
  (forall l, In (PRegExp l) ps -> L l) ->
  forall found, keeps (touchesOnly L W) (collectMatches parse ps s found).
Proof.
  induction ps as [|p rest IH]; intros HL found; cbn [collectMatches].
  - apply keeps_ret.
  - apply keeps_bind.
    + apply matchPattern_keeps. intros l ->. apply HL. now left.
    + intros m. apply IH. intros l Hl. apply HL. now right.
Qed.

Lemma checkProfanity_keeps e s :
  keeps (touchesOnly (profanityObjects e) W) (checkProfanity parse e s).
Proof.
  unfold checkProfanity. destruct (negb (enableProfanityFilter (config e))).
  - apply keeps_ret.
  - apply keeps_bind.
    + apply collectMatches_keeps. auto.
    + intros [|x xs]; apply keeps_ret.
Qed.

Lemma filterObjects_mentions e l : filterObjects e l -> mentions e l.
Proof.
  unfold filterObjects, mentions. rewrite !in_app_iff. tauto.
Qed.

Lemma profanityObjects_mentions e l : profanityObjects e l -> mentions e l.
Proof.
  unfold profanityObjects, mentions. rewrite !in_app_iff. tauto.
Qed.

Lemma harmfulObjects_mentions e l : harmfulObjects e l -> mentions e l.
Proof.
  unfold harmfulObjects, mentions. rewrite !in_app_iff. tauto.
Qed.

Lemma harmfulAndPolicies_keeps e content :
  (forall t d, In t inputLogTypes -> logViolations (config e) = true ->
               W (mkLogRecord t d)) ->
  keeps (touchesOnly (mentions e) W)
    (let! harmfulCheck := checkHarmfulContent e content in
     match harmfulCheck with
     | Harmful reason code =>
         let! _u := _logViolation e "harmful_content" (DHarmful harmfulCheck) in
         ret (deny e reason code None None)
     | NotHarmful =>
         let! policyCheck := lift (applyPolicies e content Input) in
         match policyCheck with
         | Failed vs reason code =>
             let! _u := _logViolation e "policy_violation" (DPolicy policyCheck) in
             ret (deny e reason code None (Some vs))
         | Passed => ret Allowed
         end
     end).
Proof.
  intros HW. apply keeps_bind.
  - eapply keeps_mono; [apply harmfulObjects_mentions|apply checkHarmfulContent_keeps].
  - intros [|reason code].
    + apply keeps_bind; [apply keeps_lift|].
      intros [|vs reason code]; [apply keeps_ret|].
      apply keeps_bind; [apply logViolation_keeps, HW; simpl; tauto|].
      intros _u. apply keeps_ret.
    + apply keeps_bind; [apply logViolation_keeps, HW; simpl; tauto|].
      intros _u. apply keeps_ret.
Qed.

Lemma moderateInput_keeps e m :
  (forall t d, In t inputLogTypes -> logViolations (config e) = true ->
               W (mkLogRecord t d)) ->
  keeps (touchesOnly (mentions e) W) (moderateInput parse e m).
Proof.
  intros HW. unfold moderateInput. destruct (validateInput e m) as [|reason code].
  - cbv zeta. apply keeps_bind.
    + eapply keeps_mono; [apply filterObjects_mentions|apply checkBlockedPatterns_keeps].
    + intros [|pat reason code].
      * apply keeps_bind.
        -- eapply keeps_mono; [apply profanityObjects_mentions|apply checkProfanity_keeps].
        -- intros [|ms reason code].
           ++ apply harmfulAndPolicies_keeps, HW.
           ++ apply keeps_bind; [apply logViolation_keeps, HW; simpl; tauto|]. intros _u.
              destruct (isReject (violationAction (config e)));
                [apply keeps_ret|apply harmfulAndPolicies_keeps, HW].
      * apply keeps_bind; [apply logViolation_keeps, HW; simpl; tauto|].
        intros _u. apply keeps_ret.
  - apply keeps_bind; [apply logViolation_keeps, HW; simpl; tauto|].
    intros _u. apply keeps_ret.
Qed.

Lemma moderateOutput_keeps e s :
  (forall t d, In t outputLogTypes -> logViolations (config e) = true ->
               W (mkLogRecord t d)) ->
  keeps (touchesOnly (filterObjects e) W) (moderateOutput parse e s).
Proof.
  intros HW. unfold moderateOutput. destruct (negb (enableOutputModeration (config e))).
  - apply keeps_ret.
  - destruct (lengthZ s >? maxResponseLength (config e))%Z.
    + apply keeps_ret.
    + apply keeps_bind; [apply checkBlockedPatterns_keeps|].
      intros [|pat reason code].
      * apply keeps_bind; [apply keeps_lift|].
        intros [|vs reason code]; [apply keeps_ret|].
        apply keeps_bind; [apply logViolation_keeps, HW; simpl; tauto|].
        intros _u. apply keeps_ret.
      * apply keeps_bind; [apply logViolation_keeps, HW; simpl; tauto|].
        intros _u. apply keeps_ret.
Qed.

End Steps.

Lemma writes_nothing e types (logs : list LogRecord) :
  logViolations (config e) = false -> Forall (writes e types) logs -> logs = [].
Proof.
  intros Hoff Hall. destruct Hall as [|r rest (Hon & _) _]; [reflexivity|congruence].
Qed.

(** X8. A moderation call, whether it returns or throws, creates no
    object, changes no object but in its [lastIndex], and leaves alone every
    object that the engine does not name; [moderateOutput] moreover leaves
    alone the objects of the profanity and harmful-content patterns, whose
    checks it does not run. The call only adds to the console: records of
    the five input types, or of the two output types, and none at all when
    [logViolations] is false. *)
Theorem moderation_changes_only_lastIndex (parse : string -> option regex) e (st : St) :
  (forall m,
     let st' := snd (moderateInput parse e m st) in
     nextLoc st' = nextLoc st
     /\ sameObjects st st'
     /\ (forall l, ~ mentions e l -> heap st' l = heap st l)
     /\ (exists logs, console st' = console st ++ logs
                      /\ Forall (writes e inputLogTypes) logs)
     /\ (logViolations (config e) = false -> console st' = console st))
  /\ (forall s,
        let st' := snd (moderateOutput parse e s st) in
        nextLoc st' = nextLoc st
        /\ sameObjects st st'
        /\ (forall l, ~ filterObjects e l -> heap st' l = heap st l)
        /\ (exists logs, console st' = console st ++ logs
                         /\ Forall (writes e outputLogTypes) logs)
        /\ (logViolations (config e) = false -> console st' = console st)).
Proof.
  split.
  - intros m st'.
    destruct (moderateInput_keeps (writes e inputLogTypes) parse e m) with (st := st)
      as (N & S & F & logs & C & HW).
    { intros t d Ht Hon. split; assumption. }
    fold st' in N, S, F, C. repeat split; try assumption; eauto.
    intros Hoff. rewrite C, (writes_nothing _ _ _ Hoff HW). apply app_nil_r.
  - intros s st'.
    destruct (moderateOutput_keeps (writes e outputLogTypes) parse e s) with (st := st)
      as (N & S & F & logs & C & HW).
    { intros t d Ht Hon. split; assumption. }
    fold st' in N, S, F, C. repeat split; try assumption; eauto.
    intros Hoff. rewrite C, (writes_nothing _ _ _ Hoff HW). apply app_nil_r.
Qed.

End FrameFacts.

(** ** The verdicts and the log *)

Module VerdictFacts.

Import JSString Regex Host HostFacts StepFacts CheckFacts Guardrails Examples Notions
  FrameFacts.

Lemma validateInput_codes e m reason code :
  validateInput e m = Invalid reason code ->
  In code ["INVALID_TYPE"; "MESSAGE_TOO_SHORT"; "MESSAGE_TOO_LONG"; "EMPTY_MESSAGE"].
Proof.
  unfold validateInput. destruct m as [s|].
  - destruct (lengthZ s <? minMessageLength (config e))%Z.
    { intros H. injection H as _ <-. simpl. tauto. }
    destruct (lengthZ s >? maxMessageLength (config e))%Z.
    { intros H. injection H as _ <-. simpl. tauto. }
    destruct (isEmpty (trim s)); [|discriminate].
    intros H. injection H as _ <-. simpl. tauto.
  - intros H. injection H as _ <-. simpl. tauto.
Qed.

Lemma checkHarmfulContent_shape e s (st : St) reason code st' :
  checkHarmfulContent e s st = (Normal (Harmful reason code), st') ->
  reason = "Content may contain harmful or violent language"
  /\ code = "HARMFUL_CONTENT".
Proof.
  unfold checkHarmfulContent. destruct (negb (enableContentFilter (config e))).
  - discriminate.
  - unfold bind. destruct (anyHarmful (harmfulPatterns e) s st) as [[[|]|err] st1];
      unfold ret; intros H; try discriminate.
    injection H as <- <- _. split; reflexivity.
Qed.

Lemma applyPolicies_shape e s context vs reason code :
  applyPolicies e s context = Normal (Failed vs reason code) ->
  vs <> []
  /\ reason = ("Violated " ++ showNat (List.length vs) ++ " policy/policies")%string
  /\ code = "POLICY_VIOLATION".
Proof.
  unfold applyPolicies. destruct (policies (config e)) as [[|p ps]|]; try discriminate.
  destruct (policyLoop (p :: ps) s context []) as [[|v found]|err]; try discriminate.
  intros H. injection H as <- <- <-. repeat split. discriminate.
Qed.

Section WithParser.

Variable parse : string -> option regex.

Lemma checkBlockedPatterns_shape e s (st : St) pat reason code st' :
  checkBlockedPatterns parse e s st = (Normal (Blocked pat reason code), st') ->
  (pat <> None /\ reason = "Content matches blocked pattern" /\ code = "BLOCKED_PATTERN")
  \/ (pat = None /\ reason = "Content does not match any allowed pattern"
      /\ code = "NOT_ALLOWED_PATTERN").
Proof.
  unfold checkBlockedPatterns. destruct (negb (enableContentFilter (config e))).
  - discriminate.
  - unfold bind at 1.
    destruct (firstBlocked parse (blockedPatterns (config e)) s st) as [[[p|]|err] st1];
      try discriminate.
    + destruct (patternToString_run p st1) as (text & E).
      rewrite (bind_normal _ _ _ _ _ E). unfold ret. intros H.
      injection H as <- <- <- _. left. repeat split. discriminate.
    + destruct (allowedPatterns (config e)) as [[|q qs]|]; try discriminate.
      unfold bind. destruct (someAllowed parse (q :: qs) s st1) as [[[|]|err] st2];
        unfold ret; intros H; try discriminate.
      injection H as <- <- <- _. right. repeat split.
Qed.

Lemma checkProfanity_shape e s (st : St) ms reason code st' :
  checkProfanity parse e s st = (Normal (Profanity ms reason code), st') ->
  reason = "Content contains profanity" /\ code = "PROFANITY_DETECTED"
  /\ exists found, found <> [] /\ ms = dedupe found.
Proof.
  unfold checkProfanity. destruct (negb (enableProfanityFilter (config e))).
  - discriminate.
  - unfold bind.
    destruct (collectMatches parse (profanityPatterns e) s [] st) as [[[|x xs]|err] st1];
      unfold ret; intros H; try discriminate.
    injection H as <- <- <- _. repeat split. exists (x :: xs). split; [discriminate|reflexivity].
Qed.

Lemma isReject_false a : a <> Reject -> isReject a = false.
Proof. destruct a; [congruence|reflexivity..]. Qed.

Lemma isReject_true a : isReject a = true -> a = Reject.
Proof. destruct a; [reflexivity|discriminate..]. Qed.

(** Every run of [moderateInput] that returns follows one of the six
    paths. *)
Lemma moderateInput_path e m (st : St) v st' :
  moderateInput parse e m st = (Normal v, st') -> InputPath parse e m st v st'.
Proof.
  unfold moderateInput. destruct (validateInput e m) as [|reason code] eqn:Hv.
  - cbv zeta. set (content := textOf m).
    destruct (checkBlockedPatterns parse e content st) as [[bc|err] st1] eqn:Eb;
      [rewrite (bind_normal _ _ _ _ _ Eb)|rewrite (bind_throw _ _ _ _ _ Eb); discriminate].
    destruct bc as [|pat reason code].
    + destruct (checkProfanity parse e content st1) as [[pc|err] st2] eqn:Ep;
        [rewrite (bind_normal _ _ _ _ _ Ep)|rewrite (bind_throw _ _ _ _ _ Ep); discriminate].
      assert (forall stx,
                goesOn e pc -> stx = afterProfanity e pc st2 ->
                bind (checkHarmfulContent e content)
                  (fun harmfulCheck =>
                     match harmfulCheck with
                     | Harmful reason code =>
                         let! _u := _logViolation e "harmful_content" (DHarmful harmfulCheck) in
                         ret (deny e reason code None None)
                     | NotHarmful =>
                         let! policyCheck := lift (applyPolicies e content Input) in
                         match policyCheck with
                         | Failed vs reason code =>
                             let! _u := _logViolation e "policy_violation"
                                          (DPolicy policyCheck) in
                             ret (deny e reason code None (Some vs))
                         | Passed => ret Allowed
                         end
                     end) stx = (Normal v, st') ->
                InputPath parse e m st v st') as Hrest.
      { intros stx Hgo -> H.
        destruct (checkHarmfulContent e content (afterProfanity e pc st2))
          as [[hc|err] st3] eqn:Eh;
          [rewrite (bind_normal _ _ _ _ _ Eh) in H
          |rewrite (bind_throw _ _ _ _ _ Eh) in H; discriminate].
        destruct hc as [|reason code].
        - unfold lift, bind at 1 in H.
          destruct (applyPolicies e content Input) as [[|vs reason code]|err] eqn:Epol;
            try discriminate.
          + unfold ret in H. injection H as <- <-. eapply Pass; eassumption.
          + rewrite (bind_normal _ _ _ _ _ (logViolation_logged _ _ _ _)) in H.
            unfold ret in H. injection H as <- <-. eapply StopPolicy; eassumption.
        - rewrite (bind_normal _ _ _ _ _ (logViolation_logged _ _ _ _)) in H.
          unfold ret in H. injection H as <- <-. eapply StopHarmful; eassumption. }
      destruct pc as [|ms reason code].
      * apply Hrest; [now left|reflexivity].
      * rewrite (bind_normal _ _ _ _ _ (logViolation_logged _ _ _ _)).
        destruct (isReject (violationAction (config e))) eqn:Er.
        -- unfold ret. intros H. injection H as <- <-.
           eapply StopProfanity; try eassumption. now apply isReject_true.
        -- apply Hrest; [|reflexivity]. right. intros Habs.
           rewrite Habs in Er. discriminate.
    + rewrite (bind_normal _ _ _ _ _ (logViolation_logged _ _ _ _)).
      unfold ret. intros H. injection H as <- <-. eapply StopBlocked; eassumption.
  - rewrite (bind_normal _ _ _ _ _ (logViolation_logged _ _ _ _)).
    unfold ret. intros H. injection H as <- <-. now apply StopValidation.
Qed.

(** X9. A denial of [moderateInput] always carries the configured
    [violationAction] and one of nine codes; a policy's own code (such as
    POLICY_ERROR) is never the code of the verdict. It lists [matches]
    exactly when the code is PROFANITY_DETECTED, which happens only under
    the action 'reject', and [violations] exactly when the code is
    POLICY_VIOLATION, in which case the list is not empty and the reason
    counts it. *)
Theorem input_denial_shape e m (st : St) d st' :
  moderateInput parse e m st = (Normal (Denied d), st') ->
  action d = Some (violationAction (config e))
  /\ In (code d) inputCodes
  /\ (code d = "PROFANITY_DETECTED"
      <-> exists ms, matches d = Some ms)
  /\ (code d = "PROFANITY_DETECTED" -> violationAction (config e) = Reject)
  /\ (code d = "POLICY_VIOLATION"
      <-> exists vs, violations d = Some vs)
  /\ (forall vs, violations d = Some vs ->
        vs <> []
        /\ reason d
           = ("Violated " ++ showNat (List.length vs) ++ " policy/policies")%string).
Proof.
  intros H. apply moderateInput_path in H.
  inversion H as [rsn cd Hv Hd
                 |pat rsn cd st1 Hv Hb Hd
                 |ms rsn cd st1 st2 Hv Hb Hp Hr Hd
                 |pc rsn cd st1 st2 st3 Hv Hb Hp Hg Hh Hd
                 |pc vs rsn cd st1 st2 st3 Hv Hb Hp Hg Hh Hpol Hd
                 |]; subst;
    cbn [action Guardrails.code matches violations Guardrails.reason].
  - apply validateInput_codes in Hv.
    split; [reflexivity|]. split; [simpl in *; tauto|].
    simpl in Hv.
    repeat split; try (intros (? & ?) || intros ? ?); try discriminate;
      intros ->; exfalso; intuition discriminate.
  - apply checkBlockedPatterns_shape in Hb.
    split; [reflexivity|].
    destruct Hb as [(_ & -> & ->)|(_ & -> & ->)];
      (split; [simpl; tauto|]);
      repeat split; try (intros (? & ?) || intros ? ?); discriminate.
  - apply checkProfanity_shape in Hp. destruct Hp as (-> & -> & _).
    split; [reflexivity|]. split; [simpl; tauto|].
    repeat split; eauto; try (intros (? & ?) || intros ? ?); discriminate.
  - apply checkHarmfulContent_shape in Hh. destruct Hh as (-> & ->).
    split; [reflexivity|]. split; [simpl; tauto|].
    repeat split; try (intros (? & ?) || intros ? ?); discriminate.
  - apply applyPolicies_shape in Hpol. destruct Hpol as (Hne & -> & ->).
    split; [reflexivity|]. split; [simpl; tauto|].
    split; [split; [discriminate|intros (? & ?); discriminate]|].
    split; [discriminate|].
    split; [split; eauto|].
    intros vs' Hvs. injection Hvs as <-. split; [assumption|reflexivity].
Qed.

Lemma afterProfanity_console e pc (st2 : St) :
  logViolations (config e) = true ->
  goesOn e pc ->
  exists earlier,
    console (afterProfanity e pc st2) = console st2 ++ earlier
    /\ (earlier = []
        \/ (violationAction (config e) <> Reject
            /\ exists ms r c,
                 earlier = [mkLogRecord "profanity" (DProfanity (Profanity ms r c))])).
Proof.
  intros Hon Hgo. destruct pc as [|ms r c]; cbn [afterProfanity].
  - exists []. split; [now rewrite app_nil_r|now left].
  - destruct (logged_state e "profanity" (DProfanity (Profanity ms r c)) st2) as (_ & _ & C).
    rewrite Hon in C. eexists. split; [exact C|]. right.
    destruct Hgo as [Habs|Hact]; [discriminate|]. split; [assumption|]. eauto.
Qed.

(** X10. With [logViolations] on, every denial that [moderateInput]
    returns is on the console: the last record written carries the reason
    and the code of the verdict. Before it the call has written nothing, or
    (under 'warn' or 'allow') the one record of a profanity hit; an allowed
    call has written nothing or that one record. *)
Theorem input_denials_are_logged e m (st : St) v st' :
  logViolations (config e) = true ->
  moderateInput parse e m st = (Normal v, st') ->
  exists earlier,
    (earlier = []
     \/ (violationAction (config e) <> Reject
         /\ exists ms r c,
              earlier = [mkLogRecord "profanity" (DProfanity (Profanity ms r c))]))
    /\ match v with
       | Allowed => console st' = console st ++ earlier
       | Denied d =>
           exists rec,
             console st' = console st ++ earlier ++ [rec]
             /\ detailsCode (details rec) = Some (reason d, Guardrails.code d)
       end.
Proof.
  intros Hon H. apply moderateInput_path in H.
  inversion H as [rsn cd Hv Hd
                 |pat rsn cd st1 Hv Hb Hd
                 |ms rsn cd st1 st2 Hv Hb Hp Hr Hd
                 |pc rsn cd st1 st2 st3 Hv Hb Hp Hg Hh Hd
                 |pc vs rsn cd st1 st2 st3 Hv Hb Hp Hg Hh Hpol Hd
                 |pc st1 st2 st3 Hv Hb Hp Hg Hh Hpol Hd]; subst.
  - exists []. split; [now left|]. unfold deny. exists (mkLogRecord "input_validation" (DValidation (Invalid rsn cd))). split; [|reflexivity].
    destruct (logged_state e "input_validation" (DValidation (Invalid rsn cd)) st)
      as (_ & _ & C).
    rewrite Hon in C. exact C.
  - exists []. split; [now left|]. unfold deny. exists (mkLogRecord "blocked_pattern" (DBlocked (Blocked pat rsn cd))). split; [|reflexivity].
    destruct (checkBlockedPatterns_run _ _ _ _ _ _ Hb) as ((C1 & _) & _).
    destruct (logged_state e "blocked_pattern" (DBlocked (Blocked pat rsn cd)) st1)
      as (_ & _ & C).
    rewrite Hon, C1 in C. exact C.
  - exists []. split; [now left|]. unfold deny. exists (mkLogRecord "profanity" (DProfanity (Profanity ms rsn cd))). split; [|reflexivity].
    destruct (checkBlockedPatterns_run _ _ _ _ _ _ Hb) as ((C1 & _) & _).
    destruct (checkProfanity_run _ _ _ _ _ _ Hp) as ((C2 & _) & _).
    destruct (logged_state e "profanity" (DProfanity (Profanity ms rsn cd)) st2)
      as (_ & _ & C).
    rewrite Hon, C2, C1 in C. exact C.
  - destruct (afterProfanity_console e pc st2 Hon Hg) as (earlier & Ce & He).
    exists earlier. split; [exact He|]. unfold deny. exists (mkLogRecord "harmful_content" (DHarmful (Harmful rsn cd))). split; [|reflexivity].
    destruct (checkBlockedPatterns_run _ _ _ _ _ _ Hb) as ((C1 & _) & _).
    destruct (checkProfanity_run _ _ _ _ _ _ Hp) as ((C2 & _) & _).
    destruct (checkHarmfulContent_run _ _ _ _ _ Hh) as (C3 & _).
    destruct (logged_state e "harmful_content" (DHarmful (Harmful rsn cd)) st3)
      as (_ & _ & C).
    rewrite Hon, C3, Ce, C2, C1, <- app_assoc in C. exact C.
  - destruct (afterProfanity_console e pc st2 Hon Hg) as (earlier & Ce & He).
    exists earlier. split; [exact He|]. unfold deny. exists (mkLogRecord "policy_violation" (DPolicy (Failed vs rsn cd))). split; [|reflexivity].
    destruct (checkBlockedPatterns_run _ _ _ _ _ _ Hb) as ((C1 & _) & _).
    destruct (checkProfanity_run _ _ _ _ _ _ Hp) as ((C2 & _) & _).
    destruct (checkHarmfulContent_run _ _ _ _ _ Hh) as (C3 & _).
    destruct (logged_state e "policy_violation" (DPolicy (Failed vs rsn cd)) st3)
      as (_ & _ & C).
    rewrite Hon, C3, Ce, C2, C1, <- app_assoc in C. exact C.
  - destruct (afterProfanity_console e pc st2 Hon Hg) as (earlier & Ce & He).
    exists earlier. split; [exact He|].
    destruct (checkBlockedPatterns_run _ _ _ _ _ _ Hb) as ((C1 & _) & _).
    destruct (checkProfanity_run _ _ _ _ _ _ Hp) as ((C2 & _) & _).
    destruct (checkHarmfulContent_run _ _ _ _ _ Hh) as (C3 & _).
    rewrite C3, Ce, C2, C1. reflexivity.
Qed.

(** X11. A denial of [moderateOutput] carries one of four codes and never
    [matches]. The length denial RESPONSE_TOO_LONG has no [action] and
    leaves the state as it was; the other denials carry the configured
    [violationAction] and are written to the console when [logViolations]
    is on, with the reason and code of the verdict. An allowed response
    writes nothing. *)
Theorem output_verdict_shape e s (st : St) v st' :
  moderateOutput parse e s st = (Normal v, st') ->
  match v with
  | Allowed => console st' = console st
  | Denied d =>
      enableOutputModeration (config e) = true
      /\ In (Guardrails.code d) outputCodes
      /\ matches d = None
      /\ (Guardrails.code d = "RESPONSE_TOO_LONG" ->
          action d = None /\ st' = st
          /\ (lengthZ s > maxResponseLength (config e))%Z)
      /\ (Guardrails.code d <> "RESPONSE_TOO_LONG" ->
          action d = Some (violationAction (config e))
          /\ exists rec,
               console st'
               = console st ++ (if logViolations (config e) then [rec] else [])
               /\ detailsCode (details rec) = Some (reason d, Guardrails.code d))
  end.
Proof.
  unfold moderateOutput.
  destruct (enableOutputModeration (config e)) eqn:Hon; cbn [negb].
  2:{ unfold ret. intros H. injection H as <- <-. reflexivity. }
  destruct (lengthZ s >? maxResponseLength (config e))%Z eqn:Hlen.
  { unfold ret. intros H. injection H as <- <-.
    cbn [Guardrails.code matches action]. split; [reflexivity|].
    split; [simpl; tauto|]. split; [reflexivity|]. split.
    - intros _. repeat split. now apply Z.gtb_gt.
    - intros Habs. now contradiction Habs. }
  destruct (checkBlockedPatterns parse e s st) as [[bc|err] st1] eqn:Eb;
    [rewrite (bind_normal _ _ _ _ _ Eb)|rewrite (bind_throw _ _ _ _ _ Eb); discriminate].
  destruct (checkBlockedPatterns_run _ _ _ _ _ _ Eb) as ((C1 & _) & _).
  destruct bc as [|pat rsn cd].
  - unfold lift, bind at 1.
    destruct (applyPolicies e s Output) as [[|vs rsn cd]|err] eqn:Epol; try discriminate.
    + unfold ret. intros H. injection H as <- <-. exact C1.
    + rewrite (bind_normal _ _ _ _ _ (logViolation_logged _ _ _ _)).
      unfold ret. intros H. injection H as <- <-.
      apply applyPolicies_shape in Epol. destruct Epol as (_ & -> & ->).
      unfold deny. cbn [Guardrails.code matches action Guardrails.reason].
      split; [reflexivity|]. split; [simpl; tauto|]. split; [reflexivity|]. split.
      * discriminate.
      * intros _. split; [reflexivity|].
        exists (mkLogRecord "output_policy_violation"
                  (DPolicy (Failed vs
                     ("Violated " ++ showNat (List.length vs) ++ " policy/policies")%string
                     "POLICY_VIOLATION"))).
        split; [|reflexivity].
        match goal with
        | |- console (logged ?e ?t ?d ?x) = _ =>
            destruct (logged_state e t d x) as (_ & _ & C)
        end.
        rewrite C1 in C. rewrite C. destruct (logViolations (config e)); reflexivity.
  - rewrite (bind_normal _ _ _ _ _ (logViolation_logged _ _ _ _)).
    unfold ret. intros H. injection H as <- <-.
    unfold deny. cbn [Guardrails.code matches action Guardrails.reason].
    split; [reflexivity|].
    assert (cd = "BLOCKED_PATTERN" \/ cd = "NOT_ALLOWED_PATTERN") as Hcd.
    { destruct (checkBlockedPatterns_shape _ _ _ _ _ _ _ Eb) as [(_ & _ & ->)|(_ & _ & ->)];
        tauto. }
    split; [destruct Hcd as [E|E]; rewrite E; simpl; tauto|].
    split; [reflexivity|]. split.
    + intros ->. destruct Hcd; discriminate.
    + intros _. split; [reflexivity|].
      exists (mkLogRecord "output_blocked_pattern" (DBlocked (Blocked pat rsn cd))).
      split; [|reflexivity].
      match goal with
      | |- console (logged ?e ?t ?d ?x) = _ =>
          destruct (logged_state e t d x) as (_ & _ & C)
      end.
      rewrite C1 in C. rewrite C. destruct (logViolations (config e)); reflexivity.
Qed.

End WithParser.

Lemma input_denial_shape_witness :
  let d := mkDenial "Content contains profanity" "PROFANITY_DETECTED" (Some Reject)
                    (Some [Some "Damn"; Some "damn"]) None in
  action d = Some Reject
  /\ In (Guardrails.code d) inputCodes
  /\ (Guardrails.code d = "PROFANITY_DETECTED" <-> exists ms, matches d = Some ms)
  /\ (Guardrails.code d = "PROFANITY_DETECTED" -> Reject = Reject)
  /\ (Guardrails.code d = "POLICY_VIOLATION" <-> exists vs, violations d = Some vs)
  /\ (forall vs, violations d = Some vs ->
        vs <> []
        /\ reason d
           = ("Violated " ++ showNat (List.length vs) ++ " policy/policies")%string).
Proof.
  intros d.
  assert (moderateInput Parser.parsePattern defaultEngine (MString "Damn it, damn") ready
          = (Normal (Denied d),
             snd (moderateInput Parser.parsePattern defaultEngine
                    (MString "Damn it, damn") ready))) as E
    by (vm_compute; reflexivity).
  exact (input_denial_shape Parser.parsePattern defaultEngine _ ready d _ E).
Defined.

Lemma input_denials_are_logged_witness :
  let st' := snd (moderateInput Parser.parsePattern warning (MString "damn kill") ready) in
  exists earlier,
    (earlier = []
     \/ (Warn <> Reject
         /\ exists ms r c,
              earlier = [mkLogRecord "profanity" (DProfanity (Profanity ms r c))]))
    /\ exists rec,
         console st' = console ready ++ earlier ++ [rec]
         /\ detailsCode (details rec)
            = Some ("Content may contain harmful or violent language", "HARMFUL_CONTENT").
Proof.
  intros st'.
  assert (moderateInput Parser.parsePattern warning (MString "damn kill") ready
          = (Normal (Denied (mkDenial "Content may contain harmful or violent language"
                                      "HARMFUL_CONTENT" (Some Warn) None None)), st')) as E
    by (vm_compute; reflexivity).
  exact (input_denials_are_logged Parser.parsePattern warning _ ready _ st' eq_refl E).
Defined.

Lemma output_verdict_shape_witness :
  let st' := snd (moderateOutput Parser.parsePattern secretive "my ssn" stocked) in
  let d := mkDenial "Content matches blocked pattern" "BLOCKED_PATTERN" (Some Reject)
                    None None in
  true = true
  /\ In (Guardrails.code d) outputCodes
  /\ matches d = None
  /\ (Guardrails.code d = "RESPONSE_TOO_LONG" ->
      action d = None /\ st' = stocked
      /\ (lengthZ "my ssn" > maxResponseLength (config secretive))%Z)
  /\ (Guardrails.code d <> "RESPONSE_TOO_LONG" ->
      action d = Some Reject
      /\ exists rec,
           console st' = console stocked ++ [rec]
           /\ detailsCode (details rec) = Some (reason d, Guardrails.code d)).
Proof.
  intros st' d.
  assert (moderateOutput Parser.parsePattern secretive "my ssn" stocked
          = (Normal (Denied d), st')) as E
    by (vm_compute; reflexivity).
  exact (output_verdict_shape Parser.parsePattern secretive _ stocked _ st' E).
Defined.

End VerdictFacts.

(** ** What a verdict depends on *)

Module StableFacts.

Import JSString Regex Host HostFacts StepFacts CheckFacts Guardrails Examples Notions
  FrameFacts VerdictFacts.

Lemma setLastIndex_own R : setLastIndex (lastIndex R) R = R.
Proof. destruct R; reflexivity. Qed.

Lemma shape_toString R R2 : shape R = shape R2 -> RegExp_toString R = RegExp_toString R2.
Proof.
  unfold shape, RegExp_toString, flagsOf. intros H. injection H as -> _ -> -> ->.
  reflexivity.
Qed.

Lemma alike_cases R R2 :
  alike R R2 -> R = R2 \/ (stateful R2 = false /\ R = setLastIndex (lastIndex R) R2).
Proof.
  intros (Hs & Hl). pose proof (shape_eq _ _ Hs) as E.
  destruct (stateful R) eqn:Hg.
  - left. rewrite E, (Hl eq_refl). apply setLastIndex_own.
  - right. split; [|exact E]. rewrite <- (shape_stateful _ _ Hs). exact Hg.
Qed.

Lemma alike_refl R : alike R R.
Proof. split; reflexivity. Qed.

Lemma alike_without_g n R : stateful R = false -> alike (setLastIndex n R) R.
Proof.
  intros Hg. split; [apply shape_setLastIndex|].
  rewrite (shape_stateful _ _ (shape_setLastIndex n R)). congruence.
Qed.

Lemma exec_alike R R2 s :
  alike R R2 ->
  fst (RegExpBuiltinExec R s) = fst (RegExpBuiltinExec R2 s)
  /\ alike (snd (RegExpBuiltinExec R s)) (snd (RegExpBuiltinExec R2 s)).
Proof.
  intros H. destruct (alike_cases _ _ H) as [->|(Hg & ->)].
  - split; [reflexivity|apply alike_refl].
  - split; [now apply exec_stateless_any|].
    rewrite (exec_stateless R2 s Hg).
    rewrite (exec_stateless (setLastIndex (lastIndex R) R2) s)
      by (rewrite (shape_stateful _ _ (shape_setLastIndex _ R2)); exact Hg).
    now apply alike_without_g.
Qed.

Lemma match_without_g R s : stateful R = false -> snd (RegExp_match R s) = R.
Proof.
  intros Hg. unfold RegExp_match. rewrite (proj1 (stateless_flags R Hg)).
  pose proof (exec_stateless R s Hg) as E.
  destruct (RegExpBuiltinExec R s) as [a R']. exact E.
Qed.

Lemma match_alike R R2 s :
  alike R R2 ->
  fst (RegExp_match R s) = fst (RegExp_match R2 s)
  /\ alike (snd (RegExp_match R s)) (snd (RegExp_match R2 s)).
Proof.
  intros H. destruct (alike_cases _ _ H) as [->|(Hg & ->)].
  - split; [reflexivity|apply alike_refl].
  - split.
    { apply RegExp_match_any. intros Hy.
      rewrite (proj2 (stateless_flags R2 Hg)) in Hy. discriminate. }
    rewrite (match_without_g R2 s Hg).
    rewrite (match_without_g (setLastIndex (lastIndex R) R2) s)
      by (rewrite (shape_stateful _ _ (shape_setLastIndex _ R2)); exact Hg).
    now apply alike_without_g.
Qed.

Lemma match_resetting R R2 s :
  resetting R R2 ->
  fst (RegExp_match R s) = fst (RegExp_match R2 s)
  /\ resetting (snd (RegExp_match R s)) (snd (RegExp_match R2 s)).
Proof.
  intros (H & Hr). split.
  - rewrite (shape_eq _ _ H). now apply RegExp_match_any.
  - split.
    + rewrite !RegExp_match_shape. exact H.
    + apply (shape_resets R2); [|exact Hr]. apply RegExp_match_shape.
Qed.

Section Congruence.

Variable Rel : RegExp -> RegExp -> Prop.
Variable L : loc -> Prop.

Hypothesis Rel_shape : forall R R2, Rel R R2 -> shape R = shape R2.

Lemma related_setHeap l R R2 (st st2 : St) :
  related Rel L st st2 -> Rel R R2 -> related Rel L (setHeap l R st) (setHeap l R2 st2).
Proof.
  intros H HR l' Hl'. destruct (Nat.eq_dec l l') as [->|Hne].
  - now rewrite !setHeap_same.
  - rewrite !setHeap_other by assumption. now apply H.
Qed.

Lemma respects_ret {A} (a : A) : respects Rel L (ret a).
Proof. intros st st2 H. split; [reflexivity|exact H]. Qed.

Lemma respects_throw {A} err : respects Rel L (@throw LogRecord A err).
Proof. intros st st2 H. split; [reflexivity|exact H]. Qed.

Lemma respects_lift {A} (c : Completion A) : respects Rel L (lift c).
Proof. intros st st2 H. split; [reflexivity|exact H]. Qed.

Lemma respects_bind {A B} (m : Run A) (k : A -> Run B) :
  respects Rel L m -> (forall a, respects Rel L (k a)) -> respects Rel L (bind m k).
Proof.
  intros Hm Hk st st2 H. unfold bind. destruct (Hm st st2 H) as (E & H1).
  destruct (m st) as [[a|err] st1], (m st2) as [[a2|err2] st1']; simpl in E, H1;
    try discriminate.
  - injection E as <-. now apply Hk.
  - injection E as <-. simpl. split; [reflexivity|exact H1].
Qed.

Lemma logViolation_respects e type details :
  respects Rel L (_logViolation e type details).
Proof.
  intros st st2 H. unfold _logViolation. destruct (logViolations (config e)).
  - split; [reflexivity|exact H].
  - split; [reflexivity|exact H].
Qed.

Lemma patternToString_respects p :
  (forall l, p = PRegExp l -> L l) -> respects Rel L (patternToString p).
Proof.
  intros HL st st2 H. destruct p as [src|l]; simpl.
  - split; [reflexivity|exact H].
  - split; [|exact H]. f_equal. apply shape_toString, Rel_shape, H, HL. reflexivity.
Qed.

Section Matching.

Hypothesis match_leaf :
  forall R R2 s, Rel R R2 ->
    fst (RegExp_match R s) = fst (RegExp_match R2 s)
    /\ Rel (snd (RegExp_match R s)) (snd (RegExp_match R2 s)).

Variable parse : string -> option regex.

Lemma matchObject_respects l s : L l -> respects Rel L (@matchObject LogRecord l s).
Proof.
  intros HL st st2 H. unfold matchObject.
  destruct (match_leaf (heap st l) (heap st2 l) s (H l HL)) as (E & HR).
  destruct (RegExp_match (heap st l) s) as [a R'],
           (RegExp_match (heap st2 l) s) as [a2 R2'].
  simpl in E, HR. subst a2. split; [reflexivity|]. now apply related_setHeap.
Qed.

Lemma matchPattern_respects p s :
  (forall l, p = PRegExp l -> L l) -> respects Rel L (matchPattern parse p s).
Proof.
  intros HL. destruct p as [src|l]; cbn [matchPattern].
  - unfold newRegExp. destruct (parse src); [apply respects_ret|apply respects_throw].
  - apply matchObject_respects, HL. reflexivity.
Qed.

Lemma collectMatches_respects ps s :
  (forall l, In (PRegExp l) ps -> L l) ->
  forall found, respects Rel L (collectMatches parse ps s found).
Proof.
  induction ps as [|p rest IH]; intros HL found; cbn [collectMatches].
  - apply respects_ret.
  - apply respects_bind.
    + apply matchPattern_respects. intros l ->. apply HL. now left.
    + intros m. apply IH. intros l Hl. apply HL. now right.
Qed.

Lemma checkProfanity_respects e s :
  (forall l, profanityObjects e l -> L l) -> respects Rel L (checkProfanity parse e s).
Proof.
  intros HL. unfold checkProfanity. destruct (negb (enableProfanityFilter (config e))).
  - apply respects_ret.
  - apply respects_bind.
    + apply collectMatches_respects. exact HL.
    + intros [|x xs]; apply respects_ret.
Qed.

Section Testing.

Hypothesis exec_leaf :
  forall R R2 s, Rel R R2 ->
    fst (RegExpBuiltinExec R s) = fst (RegExpBuiltinExec R2 s)
    /\ Rel (snd (RegExpBuiltinExec R s)) (snd (RegExpBuiltinExec R2 s)).

Lemma test_respects l s : L l -> respects Rel L (@test LogRecord l s).
Proof.
  intros HL st st2 H. unfold test.
  destruct (exec_leaf (heap st l) (heap st2 l) s (H l HL)) as (E & HR).
  destruct (RegExpBuiltinExec (heap st l) s) as [a R'],
           (RegExpBuiltinExec (heap st2 l) s) as [a2 R2'].
  simpl in E, HR. subst a2. split; [reflexivity|]. now apply related_setHeap.
Qed.

Lemma testPattern_respects p s :
  (forall l, p = PRegExp l -> L l) -> respects Rel L (testPattern parse p s).
Proof.
  intros HL. destruct p as [src|l]; cbn [testPattern].
  - unfold newRegExp. destruct (parse src); [apply respects_ret|apply respects_throw].
  - apply test_respects, HL. reflexivity.
Qed.

Lemma firstBlocked_respects ps s :
  (forall l, In (PRegExp l) ps -> L l) -> respects Rel L (firstBlocked parse ps s).
Proof.
  induction ps as [|p rest IH]; intros HL; cbn [firstBlocked].
  - apply respects_ret.
  - apply respects_bind.
    + apply testPattern_respects. intros l ->. apply HL. now left.
    + intros [|]; [apply respects_ret|]. apply IH. intros l Hl. apply HL. now right.
Qed.

Lemma someAllowed_respects ps s :
  (forall l, In (PRegExp l) ps -> L l) -> respects Rel L (someAllowed parse ps s).
Proof.
  induction ps as [|p rest IH]; intros HL; cbn [someAllowed].
  - apply respects_ret.
  - apply respects_bind.
    + apply testPattern_respects. intros l ->. apply HL. now left.
    + intros [|]; [apply respects_ret|]. apply IH. intros l Hl. apply HL. now right.
Qed.

Lemma firstBlocked_member ps s :
  forall (st : St) p st',
    firstBlocked parse ps s st = (Normal (Some p), st') -> In p ps.
Proof.
  induction ps as [|q rest IH]; intros st p st'; cbn [firstBlocked].
  - discriminate.
  - unfold bind at 1. destruct (testPattern parse q s st) as [[[|]|err] st1];
      try discriminate.
    + unfold ret. intros H. injection H as <- _. now left.
    + intros H. right. eapply IH, H.
Qed.

Lemma checkBlockedPatterns_respects e s :
  (forall l, filterObjects e l -> L l) -> respects Rel L (checkBlockedPatterns parse e s).
Proof.
  intros HL. unfold checkBlockedPatterns. destruct (negb (enableContentFilter (config e))).
  - apply respects_ret.
  - intros st st2 H.
    assert (forall l, In (PRegExp l) (blockedPatterns (config e)) -> L l) as HLb.
    { intros l Hl. apply HL. apply in_or_app. now left. }
    destruct (firstBlocked_respects (blockedPatterns (config e)) s HLb st st2 H) as (E & H1).
    destruct (firstBlocked parse (blockedPatterns (config e)) s st) as [[hit|err] st1] eqn:E1,
             (firstBlocked parse (blockedPatterns (config e)) s st2) as [[hit2|err2] st1'] eqn:E2;
      simpl in E, H1; try discriminate.
    2:{ rewrite (bind_throw _ _ _ _ _ E1), (bind_throw _ _ _ _ _ E2).
        injection E as <-. simpl. split; [reflexivity|exact H1]. }
    rewrite (bind_normal _ _ _ _ _ E1), (bind_normal _ _ _ _ _ E2).
    injection E as <-. destruct hit as [p|].
    + apply respects_bind; [|intros text; apply respects_ret|exact H1].
      apply patternToString_respects. intros l ->. apply HLb.
      eapply firstBlocked_member, E1.
    + destruct (allowedPatterns (config e)) as [[|q qs]|] eqn:Ea;
        try (apply respects_ret; exact H1).
      apply respects_bind; [|intros [|]; apply respects_ret|exact H1].
      apply someAllowed_respects. intros l Hl. apply HL. apply in_or_app. right.
      unfold allowedList. now rewrite Ea.
Qed.

Lemma anyHarmful_respects ps s :
  (forall l, In (PRegExp l) ps -> L l) -> respects Rel L (anyHarmful ps s).
Proof.
  induction ps as [|[src|l] rest IH]; intros HL; cbn [anyHarmful].
  - apply respects_ret.
  - apply respects_throw.
  - apply respects_bind.
    + apply test_respects, HL. now left.
    + intros [|]; [apply respects_ret|]. apply IH. intros l' Hl'. apply HL. now right.
Qed.

Lemma checkHarmfulContent_respects e s :
  (forall l, harmfulObjects e l -> L l) -> respects Rel L (checkHarmfulContent e s).
Proof.
  intros HL. unfold checkHarmfulContent. destruct (negb (enableContentFilter (config e))).
  - apply respects_ret.
  - apply respects_bind.
    + apply anyHarmful_respects. exact HL.
    + intros [|]; apply respects_ret.
Qed.

Lemma moderateInput_respects e m :
  (forall l, mentions e l -> L l) -> respects Rel L (moderateInput parse e m).
Proof.
  intros HL.
  assert (forall content,
            respects Rel L
              (let! harmfulCheck := checkHarmfulContent e content in
               match harmfulCheck with
               | Harmful reason code =>
                   let! _u := _logViolation e "harmful_content" (DHarmful harmfulCheck) in
                   ret (deny e reason code None None)
               | NotHarmful =>
                   let! policyCheck := lift (applyPolicies e content Input) in
                   match policyCheck with
                   | Failed vs reason code =>
                       let! _u := _logViolation e "policy_violation" (DPolicy policyCheck) in
                       ret (deny e reason code None (Some vs))
                   | Passed => ret Allowed
                   end
               end)) as Hrest.
  { intros content. apply respects_bind.
    - apply checkHarmfulContent_respects. intros l Hl. apply HL, harmfulObjects_mentions, Hl.
    - intros [|reason code].
      + apply respects_bind; [apply respects_lift|].
        intros [|vs reason code]; [apply respects_ret|].
        apply respects_bind; [apply logViolation_respects|]. intros _u. apply respects_ret.
      + apply respects_bind; [apply logViolation_respects|]. intros _u. apply respects_ret. }
  unfold moderateInput. destruct (validateInput e m) as [|reason code].
  - cbv zeta. apply respects_bind.
    + apply checkBlockedPatterns_respects. intros l Hl. apply HL, filterObjects_mentions, Hl.
    + intros [|pat reason code].
      * apply respects_bind.
        -- apply checkProfanity_respects. intros l Hl.
           apply HL, profanityObjects_mentions, Hl.
        -- intros [|ms reason code].
           ++ apply Hrest.
           ++ apply respects_bind; [apply logViolation_respects|]. intros _u.
              destruct (isReject (violationAction (config e)));
                [apply respects_ret|apply Hrest].
      * apply respects_bind; [apply logViolation_respects|]. intros _u. apply respects_ret.
  - apply respects_bind; [apply logViolation_respects|]. intros _u. apply respects_ret.
Qed.

Lemma moderateOutput_respects e s :
  (forall l, filterObjects e l -> L l) -> respects Rel L (moderateOutput parse e s).
Proof.
  intros HL. unfold moderateOutput. destruct (negb (enableOutputModeration (config e))).
  - apply respects_ret.
  - destruct (lengthZ s >? maxResponseLength (config e))%Z.
    + apply respects_ret.
    + apply respects_bind; [apply checkBlockedPatterns_respects, HL|].
      intros [|pat reason code].
      * apply respects_bind; [apply respects_lift|].
        intros [|vs reason code]; [apply respects_ret|].
        apply respects_bind; [apply logViolation_respects|]. intros _u. apply respects_ret.
      * apply respects_bind; [apply logViolation_respects|]. intros _u. apply respects_ret.
Qed.

End Testing.

End Matching.

End Congruence.

Lemma alike_shape R R2 : alike R R2 -> shape R = shape R2.
Proof. intros (H & _). exact H. Qed.

Lemma without_g_related (L : loc -> Prop) (st st2 : St) :
  (forall l, L l -> stateful (heap st l) = false) ->
  sameObjects st st2 ->
  related alike L st2 st.
Proof.
  intros Hg Hs l Hl. split; [apply Hs|].
  rewrite (shape_stateful _ _ (Hs l)), (Hg l Hl). discriminate.
Qed.

Lemma at_rest_related (L : loc -> Prop) (st st2 : St) :
  (forall l, L l -> atRest (heap st l)) ->
  (forall l, L l -> atRest (heap st2 l)) ->
  sameObjects st st2 ->
  related alike L st2 st.
Proof.
  intros H1 H2 Hs l Hl. split; [apply Hs|].
  intros Hg. rewrite (H2 l Hl Hg). symmetry. apply (H1 l Hl).
  rewrite <- (shape_stateful _ _ (Hs l)). exact Hg.
Qed.

Lemma anyHarmful_miss ps s :
  forall (st : St) st',
    anyHarmful ps s st = (Normal false, st') ->
    forall l, atRest (heap st l) -> atRest (heap st' l).
Proof.
  induction ps as [|[src|l] rest IH]; intros st st'; cbn [anyHarmful].
  - unfold ret. intros H. injection H as <-. auto.
  - discriminate.
  - destruct (test_spec l s st) as (b & st1 & E & _ & _ & Hrest & _).
    rewrite (bind_normal _ _ _ _ _ E). destruct b.
    + discriminate.
    + intros H l' Hl'. eapply IH; [exact H|]. now apply Hrest.
Qed.

Lemma checkHarmfulContent_miss e s (st : St) st' :
  checkHarmfulContent e s st = (Normal NotHarmful, st') ->
  forall l, atRest (heap st l) -> atRest (heap st' l).
Proof.
  unfold checkHarmfulContent. destruct (negb (enableContentFilter (config e))).
  - unfold ret. intros H. injection H as <-. auto.
  - destruct (anyHarmful (harmfulPatterns e) s st) as [[[|]|err] st1] eqn:E;
      [rewrite (bind_normal _ _ _ _ _ E)..|rewrite (bind_throw _ _ _ _ _ E)];
      try discriminate.
    unfold ret. intros H. injection H as <-. eapply anyHarmful_miss, E.
Qed.

Section WithParser.

Variable parse : string -> option regex.

Lemma moderateInput_alike e m (st st2 : St) :
  related alike (mentions e) st2 st ->
  fst (moderateInput parse e m st2) = fst (moderateInput parse e m st).
Proof.
  intros H.
  apply (moderateInput_respects alike (mentions e) alike_shape match_alike parse
           exec_alike e m (fun l Hl => Hl) st2 st H).
Qed.

Lemma moderateOutput_alike e s (st st2 : St) :
  related alike (mentions e) st2 st ->
  fst (moderateOutput parse e s st2) = fst (moderateOutput parse e s st).
Proof.
  intros H.
  apply (moderateOutput_respects alike (mentions e) alike_shape parse
           exec_alike e s (filterObjects_mentions e) st2 st H).
Qed.

(** X12. When no RegExp object of the engine has the [g] or the [y]
    flag, a verdict depends on the engine and the text alone: the stored
    [lastIndex] values play no part, so a call gives the same verdict after
    any earlier call. *)
Theorem verdicts_without_g_flag_repeat e (st st2 : St) :
  (forall l, mentions e l -> stateful (heap st l) = false) ->
  sameObjects st st2 ->
  (forall m, fst (moderateInput parse e m st2) = fst (moderateInput parse e m st))
  /\ (forall s, fst (moderateOutput parse e s st2) = fst (moderateOutput parse e s st))
  /\ (forall m earlier,
        fst (moderateInput parse e m (snd (moderateInput parse e earlier st2)))
        = fst (moderateInput parse e m st)).
Proof.
  intros Hg Hs. split; [|split].
  - intros m. apply moderateInput_alike. now apply without_g_related.
  - intros s. apply moderateOutput_alike. now apply without_g_related.
  - intros m earlier. apply moderateInput_alike. apply without_g_related; [exact Hg|].
    destruct (moderateInput_keeps (fun _ => True) parse e earlier (fun _ _ _ _ => I) st2)
      as (_ & S & _).
    intros l. rewrite S. apply Hs.
Qed.

(** X13. Take an engine without an allowlist whose objects are at rest
    (no [g] and no [y] flag, or [lastIndex] 0) and whose profanity
    patterns carry [y] only together with [g]. After a call of
    [moderateInput] that allows the message the objects are at rest again,
    and every later verdict, on input and on output, is what it would have
    been without that call. *)
Theorem allowed_call_changes_no_verdict e m (st : St) st' :
  (forall l, mentions e l -> atRest (heap st l)) ->
  (forall l, profanityObjects e l -> resets (heap st l)) ->
  allowedList e = [] ->
  moderateInput parse e m st = (Normal Allowed, st') ->
  (forall l, mentions e l -> atRest (heap st' l))
  /\ (forall m2, fst (moderateInput parse e m2 st') = fst (moderateInput parse e m2 st))
  /\ (forall s, fst (moderateOutput parse e s st') = fst (moderateOutput parse e s st)).
Proof.
  intros Hrest Hsticky Hno H.
  assert (forall l, mentions e l -> atRest (heap st' l)) as Hrest'.
  { pose proof (moderateInput_path _ _ _ _ _ _ H) as P.
    inversion P as [| | | | |pc st1 st2 st3 Hv Hb Hp Hg Hh Hpol Hd]; subst.
    intros l Hl.
    destruct (checkBlockedPatterns_run _ _ _ _ _ _ Hb) as (Hq1 & K1).
    destruct (checkProfanity_run _ _ _ _ _ _ Hp) as (_ & K2 & _).
    apply (checkHarmfulContent_miss _ _ _ _ Hh).
    assert (heap (afterProfanity e pc st2) = heap st2) as ->.
    { destruct pc; [reflexivity|]. apply logged_state. }
    apply K2.
    - intros l' Hl'. apply (quiet_resets st st1); [exact Hq1|]. apply Hsticky, Hl'.
    - apply K1; [reflexivity| |apply Hrest, Hl]. rewrite Hno. intros []. }
  assert (sameObjects st st') as Hs.
  { destruct (moderateInput_keeps (fun _ => True) parse e m (fun _ _ _ _ => I) st)
      as (_ & S & _).
    rewrite H in S. exact S. }
  split; [exact Hrest'|]. split.
  - intros m2. apply moderateInput_alike. now apply at_rest_related.
  - intros s. apply moderateOutput_alike. now apply at_rest_related.
Qed.

(** X14. When the profanity patterns carry the [y] flag only together
    with [g], the profanity check does not depend on their stored
    [lastIndex] ([String.prototype.match] resets it for a [g] regex and
    does not read it without [g] and [y]): from two states that hold the
    same objects it gives the same result, also after any earlier call of
    the check. *)
Theorem profanity_check_ignores_lastIndex e s (st st2 : St) :
  (forall l, profanityObjects e l -> resets (heap st l)) ->
  sameObjects st st2 ->
  fst (checkProfanity parse e s st2) = fst (checkProfanity parse e s st)
  /\ (forall earlier,
        fst (checkProfanity parse e s (snd (checkProfanity parse e earlier st2)))
        = fst (checkProfanity parse e s st)).
Proof.
  intros Hr Hs.
  assert (forall stb : St, sameObjects st stb ->
            fst (checkProfanity parse e s stb) = fst (checkProfanity parse e s st)) as K.
  { intros stb Hab.
    apply (checkProfanity_respects resetting (profanityObjects e) match_resetting parse e s
             (fun _ Hl => Hl) stb st).
    intros l Hl. split; [apply Hab|apply Hr, Hl]. }
  split; [now apply K|].
  intros earlier. apply K.
  destruct (checkProfanity parse e earlier st2) as [r st3] eqn:E.
  destruct (checkProfanity_run _ _ _ _ _ _ E) as ((_ & _ & S) & _).
  intros l. simpl. rewrite S. apply Hs.
Qed.

End WithParser.

Lemma verdicts_without_g_flag_repeat_witness :
  (forall m, fst (moderateInput Parser.parsePattern startOnly m moved)
             = fst (moderateInput Parser.parsePattern startOnly m stocked))
  /\ (forall s, fst (moderateOutput Parser.parsePattern startOnly s moved)
                = fst (moderateOutput Parser.parsePattern startOnly s stocked))
  /\ (forall m earlier,
        fst (moderateInput Parser.parsePattern startOnly m
               (snd (moderateInput Parser.parsePattern startOnly earlier moved)))
        = fst (moderateInput Parser.parsePattern startOnly m stocked)).
Proof.
  apply (verdicts_without_g_flag_repeat Parser.parsePattern startOnly stocked moved).
  - intros l Hl. cbv in Hl. destruct Hl as [E|[]]. injection E as <-. reflexivity.
  - intros l. unfold moved. destruct (Nat.eq_dec 4 l) as [<-|Hne].
    + rewrite setHeap_same. reflexivity.
    + rewrite setHeap_other by assumption. reflexivity.
Defined.

Lemma allowed_call_changes_no_verdict_witness :
  let st' := snd (moderateInput Parser.parsePattern defaultEngine (MString "hello") ready) in
  (forall l, mentions defaultEngine l -> atRest (heap st' l))
  /\ (forall m2, fst (moderateInput Parser.parsePattern defaultEngine m2 st')
                 = fst (moderateInput Parser.parsePattern defaultEngine m2 ready))
  /\ (forall s, fst (moderateOutput Parser.parsePattern defaultEngine s st')
                = fst (moderateOutput Parser.parsePattern defaultEngine s ready)).
Proof.
  intros st'.
  apply (allowed_call_changes_no_verdict Parser.parsePattern defaultEngine
           (MString "hello") ready st').
  - intros l Hl. cbv in Hl. destruct Hl as [E|[E|[]]]; injection E as <-;
      intros _; reflexivity.
  - intros l Hl. cbv in Hl. destruct Hl as [E|[]]. injection E as <-.
    intros Hy. discriminate Hy.
  - reflexivity.
  - vm_compute. reflexivity.
Defined.

Lemma profanity_check_ignores_lastIndex_witness :
  fst (checkProfanity Parser.parsePattern defaultEngine "damn" shifted)
  = fst (checkProfanity Parser.parsePattern defaultEngine "damn" ready)
  /\ (forall earlier,
        fst (checkProfanity Parser.parsePattern defaultEngine "damn"
               (snd (checkProfanity Parser.parsePattern defaultEngine earlier shifted)))
        = fst (checkProfanity Parser.parsePattern defaultEngine "damn" ready)).
Proof.
  apply (profanity_check_ignores_lastIndex Parser.parsePattern defaultEngine "damn"
           ready shifted).
  { intros l Hl. cbv in Hl. destruct Hl as [E|[]]. injection E as <-.
    intros Hy. discriminate Hy. }
  intros l. unfold shifted. destruct (Nat.eq_dec 0 l) as [<-|Hne].
  - rewrite setHeap_same. reflexivity.
  - rewrite setHeap_other by assumption. reflexivity.
Defined.

(** A sticky pattern without [g] is read from its stored [lastIndex]
    like one with [g]: with [blockedPatterns: [/hello/y]] three calls of
    [moderateOutput('hello')] deny, allow and deny. *)
Lemma sticky_blocked_pattern_alternates :
  let run := moderateOutput Parser.parsePattern stickyBlock "hello" in
  let denied :=
    Normal (Denied (mkDenial "Content matches blocked pattern" "BLOCKED_PATTERN"
                             (Some Reject) None None)) in
  stateful (heap stuck 6) = true
  /\ global (heap stuck 6) = false
  /\ fst (run stuck) = denied
  /\ fst (run (snd (run stuck))) = Normal Allowed
  /\ fst (run (snd (run (snd (run stuck))))) = denied.
Proof.
  repeat split; vm_compute; reflexivity.
Qed.

(** With [profanityPatterns: [/hello/y]] and [violationAction: 'warn'],
    [String.prototype.match] starts at the stored [lastIndex] and leaves
    the end of the match there: after a call that allows 'hello' the
    pattern has [lastIndex] 5, and the profanity check finds nothing in
    the same text. *)
Lemma sticky_profanity_pattern_keeps_lastIndex :
  let once := moderateInput Parser.parsePattern stickyProfanity (MString "hello") stuck in
  atRest (heap stuck 6)
  /\ fst once = Normal Allowed
  /\ lastIndex (heap (snd once) 6) = 5
  /\ fst (checkProfanity Parser.parsePattern stickyProfanity "hello" stuck)
     = Normal (Profanity [Some "hello"] "Content contains profanity" "PROFANITY_DETECTED")
  /\ fst (checkProfanity Parser.parsePattern stickyProfanity "hello" (snd once))
     = Normal NoProfanity.
Proof.
  split; [intros _; reflexivity|]. repeat split; vm_compute; reflexivity.
Qed.

End StableFacts.

(** ** More on the single checks *)

Module MoreCheckFacts.

Import JSString Regex Host HostFacts StepFacts CheckFacts Guardrails Examples Notions
  StableFacts.

Lemma anyHarmful_string before src after s :
  forall st : St,
    Forall isObject before ->
    (forall l, In (PRegExp l) before ->
               atRest (heap st l) /\ matchesText (heap st l) s = false) ->
    fst (anyHarmful (before ++ PString src :: after) s st) = Throw TypeError.
Proof.
  induction before as [|[src'|l] rest IH]; intros st Hobj Hmiss.
  - reflexivity.
  - inversion Hobj as [|? ? Habs]. contradiction.
  - rewrite <- app_comm_cons. cbn [anyHarmful].
    destruct (test_spec l s st) as (b & st1 & E & Hq & _ & Hrest & Hb).
    rewrite (bind_normal _ _ _ _ _ E).
    destruct (Hmiss l (or_introl eq_refl)) as (Hr & Hm).
    rewrite (Hb Hr), Hm in *. apply IH.
    + now inversion Hobj.
    + intros l' Hl'. destruct (Hmiss l' (or_intror Hl')) as (Hr' & Hm'). split.
      * now apply Hrest.
      * now rewrite (quiet_matchesText st st1).
Qed.

(** X15. The harmful-content check calls [test] on its patterns as they
    are: when the objects before it do not match, a string among
    [harmfulPatterns] makes [checkHarmfulContent] throw a TypeError (the
    pattern filter compiles such a string). *)
Theorem harmful_string_pattern_throws e s (st : St) before src after :
  enableContentFilter (config e) = true ->
  harmfulPatterns e = before ++ PString src :: after ->
  Forall isObject before ->
  (forall l, In (PRegExp l) before ->
             atRest (heap st l) /\ matchesText (heap st l) s = false) ->
  fst (checkHarmfulContent e s st) = Throw TypeError.
Proof.
  intros Hon Hps Hobj Hmiss. unfold checkHarmfulContent. rewrite Hon, Hps. cbn [negb].
  pose proof (anyHarmful_string before src after s st Hobj Hmiss) as E.
  unfold bind. destruct (anyHarmful (before ++ PString src :: after) s st) as [[b|err] st1];
    simpl in E; [discriminate|]. injection E as ->. reflexivity.
Qed.

Lemma harmful_string_pattern_throws_witness :
  fst (checkHarmfulContent stringly "hello" ready) = Throw TypeError.
Proof.
  apply (harmful_string_pattern_throws stringly "hello" ready [PRegExp 1] "attack" []).
  - reflexivity.
  - reflexivity.
  - repeat constructor.
  - intros l [E|[]]. injection E as <-. split; [intros _; reflexivity|].
    vm_compute. reflexivity.
Defined.

Lemma optStringEqb_eq a b : optStringEqb a b = true <-> a = b.
Proof.
  destruct a as [x|], b as [y|]; simpl; split; try congruence.
  - intros H. apply String.eqb_eq in H. congruence.
  - intros H. injection H as ->. apply String.eqb_refl.
Qed.

Lemma seen_spec x seen : existsb (optStringEqb x) seen = true <-> In x seen.
Proof.
  rewrite existsb_exists. split.
  - intros (y & Hy & E). apply optStringEqb_eq in E. now subst.
  - intros H. exists x. split; [exact H|]. now apply optStringEqb_eq.
Qed.

Lemma dedupeAcc_spec xs :
  forall seen,
    List.NoDup (dedupeAcc seen xs)
    /\ forall y, In y (dedupeAcc seen xs) <-> In y xs /\ ~ In y seen.
Proof.
  induction xs as [|x r IH]; intros seen; cbn [dedupeAcc].
  - split; [constructor|]. intros y. simpl. tauto.
  - destruct (existsb (optStringEqb x) seen) eqn:E.
    + apply seen_spec in E. destruct (IH seen) as (N & M). split; [exact N|].
      intros y. rewrite M. simpl. split; [tauto|].
      intros ([->|Hy] & Hn); [contradiction|tauto].
    + assert (~ In x seen) as Hx.
      { intros Habs. apply seen_spec in Habs. congruence. }
      destruct (IH (seen ++ [x])) as (N & M). split.
      * constructor; [|exact N]. intros Habs. apply M in Habs.
        destruct Habs as (_ & Hn). apply Hn, in_or_app. right. now left.
      * intros y. split.
        -- intros [<-|Hy]; [split; [now left|exact Hx]|].
           apply M in Hy. destruct Hy as (Hy & Hn). split; [now right|].
           intros Hs. apply Hn, in_or_app. now left.
        -- intros ([<-|Hy] & Hn); [now left|].
           destruct (optStringEqb x y) eqn:Exy.
           ++ apply optStringEqb_eq in Exy. now left.
           ++ right. apply M. split; [exact Hy|]. intros Hin.
              apply in_app_or in Hin. destruct Hin as [Hin|[Hin|[]]]; [contradiction|].
              apply optStringEqb_eq in Hin. congruence.
Qed.

Section WithParser.

Variable parse : string -> option regex.




(** X17. The [matches] that the profanity check reports are not empty
    and hold no text twice (texts that differ in case are different); when
    the profanity patterns compile they are exactly the texts that the
    patterns find in the content, one pattern after the other; and when
    the patterns carry [y] only together with [g], those are the texts that
    each pattern finds from the start of the content. *)
Theorem reported_matches_are_distinct e s (st : St) ms reason code st' :
  checkProfanity parse e s st = (Normal (Profanity ms reason code), st') ->
  ms <> []
  /\ List.NoDup ms
  /\ (Forall (compiles parse) (profanityPatterns e) ->
      forall t,
        In t ms <-> In t (textsFound parse (heap st) s (profanityPatterns e)))
  /\ ((forall l, In (PRegExp l) (profanityPatterns e) -> resets (heap st l)) ->
      textsFound parse (heap st) s (profanityPatterns e)
      = flat_map (patternTexts parse (heap st) s) (profanityPatterns e)).
Proof.
  unfold checkProfanity. destruct (negb (enableProfanityFilter (config e))).
  { discriminate. }
  destruct (collectMatches parse (profanityPatterns e) s [] st) as [[found|err] st1] eqn:E;
    [rewrite (bind_normal _ _ _ _ _ E)|rewrite (bind_throw _ _ _ _ _ E); discriminate].
  destruct found as [|x xs]; [discriminate|].
  unfold ret. intros H. injection H as <- _ _ _.
  destruct (dedupeAcc_spec (x :: xs) []) as (N & M).
  split; [|split; [|split]].
  - unfold dedupe. cbn [dedupeAcc existsb]. discriminate.
  - exact N.
  - intros Hc t. destruct (collectMatches_run _ _ _ _ _ _ _ E) as (_ & _ & Hres).
    specialize (Hres Hc). injection Hres as Hres. cbn [app] in Hres.
    unfold dedupe. rewrite M, Hres. simpl. tauto.
  - intros Hr. apply (textsFound_flat parse st); [reflexivity|exact Hr].
Qed.

End WithParser.


Lemma reported_matches_are_distinct_witness :
  let ms := [Some "Damn"; Some "damn"] in
  ms <> []
  /\ List.NoDup ms
  /\ (Forall (compiles Parser.parsePattern) (profanityPatterns defaultEngine) ->
      forall t,
        In t ms
        <-> In t (textsFound Parser.parsePattern (heap ready) "Damn it, damn"
                    (profanityPatterns defaultEngine)))
  /\ ((forall l, In (PRegExp l) (profanityPatterns defaultEngine) -> resets (heap ready l)) ->
      textsFound Parser.parsePattern (heap ready) "Damn it, damn"
        (profanityPatterns defaultEngine)
      = flat_map (patternTexts Parser.parsePattern (heap ready) "Damn it, damn")
          (profanityPatterns defaultEngine)).
Proof.
  intros ms.
  assert (checkProfanity Parser.parsePattern defaultEngine "Damn it, damn" ready
          = (Normal (Profanity ms "Content contains profanity" "PROFANITY_DETECTED"),
             snd (checkProfanity Parser.parsePattern defaultEngine "Damn it, damn" ready)))
    as E by (vm_compute; reflexivity).
  exact (reported_matches_are_distinct Parser.parsePattern defaultEngine _ ready ms _ _ _ E).
Defined.

End MoreCheckFacts.

(** ** The ChatClient class *)

Module ClientFacts.

Import JSString Guardrails ChatClient.

Lemma isEmpty_spec s : isEmpty s = true <-> s = "".
Proof. destruct s; simpl; split; congruence. Qed.

Lemma orString_filled o d : d <> "" -> orString o d <> "".
Proof.
  intros Hd. destruct o as [v|]; simpl; [|exact Hd].
  destruct v; simpl; [exact Hd|discriminate].
Qed.

Lemma orNumber_nonzero o d : d <> 0%Z -> orNumber o d <> 0%Z.
Proof.
  intros Hd. destruct o as [v|]; simpl; [|exact Hd].
  destruct (v =? 0)%Z eqn:E; [exact Hd|]. now apply Z.eqb_neq.
Qed.

Lemma pushAll_map messages :
  forall formatted, pushAll formatted messages = formatted ++ map strip messages.
Proof.
  induction messages as [|msg rest IH]; intros formatted; simpl.
  - now rewrite app_nil_r.
  - rewrite IH, <- app_assoc. reflexivity.
Qed.

Lemma formatMessages_closed c messages :
  _formatMessages c messages
  = (if existsb isSystem messages then [] else [mkApiMessage "system" (systemPrompt c)])
      ++ map strip messages.
Proof.
  unfold _formatMessages. rewrite pushAll_map.
  destruct (existsb isSystem messages); reflexivity.
Qed.

Lemma isSystem_entryOf m : isSystem (entryOf (strip m)) = isSystem m.
Proof. reflexivity. Qed.

Lemma existsb_strip messages :
  existsb isSystem (map entryOf (map strip messages)) = existsb isSystem messages.
Proof.
  induction messages as [|m rest IH]; simpl; [reflexivity|].
  now rewrite IH.
Qed.

Lemma strip_entryOf ms : map strip (map entryOf ms) = ms.
Proof.
  induction ms as [|[r c] rest IH]; simpl; [reflexivity|]. now rewrite IH.
Qed.

(** X18. [_formatMessages] sends the messages in the order given, each
    reduced to its role and content, and puts the client's system prompt
    in front exactly when no message has the role 'system'. So its result
    always has a system message, formatting it again changes nothing, and
    when the caller supplies a system message the prompt of the client is
    not used at all. *)
Theorem formatMessages_adds_one_system_prompt c messages :
  _formatMessages c messages
  = (if existsb isSystem messages then [] else [mkApiMessage "system" (systemPrompt c)])
      ++ map strip messages
  /\ existsb isSystem (map entryOf (_formatMessages c messages)) = true
  /\ _formatMessages c (map entryOf (_formatMessages c messages)) = _formatMessages c messages
  /\ (existsb isSystem messages = true ->
      forall c2, _formatMessages c2 messages = _formatMessages c messages).
Proof.
  assert (existsb isSystem (map entryOf (_formatMessages c messages)) = true) as Hsys.
  { rewrite formatMessages_closed.
    destruct (existsb isSystem messages) eqn:E; simpl.
    - now rewrite existsb_strip.
    - reflexivity. }
  split; [apply formatMessages_closed|]. split; [exact Hsys|]. split.
  - rewrite (formatMessages_closed c (map entryOf _)), Hsys. simpl.
    apply strip_entryOf.
  - intros E c2. rewrite !formatMessages_closed, E. reflexivity.
Qed.

(** X19. The constructor throws exactly when the API key is missing or
    empty. A client that it returns has a model name, a token limit other
    than 0, a system prompt and a temperature, where a temperature given
    in the options is kept, 0 included; [configure] keeps the first
    three however it is called (an empty string or a 0 changes nothing),
    but a [null] temperature is stored as it is. *)
Theorem client_settings_stay_usable :
  (forall o, (exists c, constructor o = inr c)
             <-> exists key, opt_apiKey o = Some key /\ key <> "")
  /\ (forall o c, constructor o = inr c ->
        usable c
        /\ temperature c <> None
        /\ forall t, opt_temperature o = Value t -> temperature c = Some t)
  /\ (forall c o, usable c -> usable (configure c o))
  /\ (forall c o, opt_temperature o = Null -> temperature (configure c o) = None).
Proof.
  split; [|split; [|split]].
  - intros o. unfold constructor. split.
    + intros (c & H). destruct (opt_apiKey o) as [key|]; [|discriminate].
      exists key. split; [reflexivity|]. intros ->. discriminate.
    + intros (key & -> & Hk). destruct key; [contradiction|]. simpl. eauto.
  - intros o c. unfold constructor. destruct (opt_apiKey o) as [key|]; [|discriminate].
    destruct (isEmpty key) eqn:Ek; [discriminate|]. intros H. injection H as <-.
    unfold usable. cbn [model maxTokens systemPrompt apiKey temperature].
    split; [|split].
    + split; [apply orString_filled; discriminate|].
      split; [apply orNumber_nonzero; discriminate|].
      split; [apply orString_filled; discriminate|].
      intros ->. discriminate.
    + destruct (opt_temperature o); discriminate.
    + intros t ->. reflexivity.
  - intros c o (Hm & Ht & Hs & Hk). unfold usable, configure.
    cbn [model maxTokens systemPrompt apiKey].
    split; [now apply orString_filled|]. split; [now apply orNumber_nonzero|].
    split; [now apply orString_filled|exact Hk].
  - intros c o H. unfold configure. cbn [temperature]. now rewrite H.
Qed.

Lemma append_assoc_string (a b c : string) : ((a ++ b) ++ c = a ++ (b ++ c))%string.
Proof.
  induction a as [|x a IH]; [reflexivity|].
  change (String x ((a ++ b) ++ c) = String x (a ++ (b ++ c)))%string.
  f_equal. exact IH.
Qed.

Lemma append_empty_string (a : string) : (a ++ "")%string = a.
Proof.
  induction a as [|x a IH]; [reflexivity|].
  change (String x (a ++ "")%string = String x a). f_equal. exact IH.
Qed.

Lemma consume_spec chunks :
  forall fullContent calls,
    consume chunks fullContent calls
    = ((fullContent ++ joined (contents chunks))%string,
       calls ++ map Chunk (contents chunks)).
Proof.
  induction chunks as [|chunk rest IH]; intros fullContent calls; simpl.
  - unfold joined. simpl. now rewrite append_empty_string, app_nil_r.
  - destruct chunk as [t|]; simpl.
    + destruct t as [|x t]; simpl.
      * apply IH.
      * rewrite IH. f_equal.
        -- apply (append_assoc_string fullContent (String x t)).
        -- rewrite <- app_assoc. reflexivity.
    + apply IH.
Qed.

Lemma contents_filled chunks : Forall (fun t => t <> "") (contents chunks).
Proof.
  induction chunks as [|chunk rest IH]; simpl; [constructor|].
  destruct chunk as [[|x t]|]; simpl; try exact IH.
  constructor; [discriminate|exact IH].
Qed.

(** X20. [streamChat] calls [onChunk] once for every chunk with a content
    that is not empty, in the order of the stream, and then exactly once
    more: with [done] and the whole text when the stream ends, with [done]
    and the error message when the request or the stream fails. On success
    the content of the result is the concatenation of what the callback
    received; on failure the contents sent before the error stay sent, and
    the code of the result is that of the error or UNKNOWN_ERROR. *)
Theorem streamChat_callbacks c messages options api :
  let stream := api (request c messages options true) in
  let run := streamChat c messages options api in
  let texts := contents (chunks stream) in
  Forall (fun t => t <> "") texts
  /\ match failure stream with
     | None =>
         fst run = map Chunk texts ++ [Done (joined texts)]
         /\ snd run = Success (joined texts)
     | Some error =>
         fst run = map Chunk texts ++ [Errored (err_message error)]
         /\ snd run = Failure (err_message error)
                              (orString (err_code error) "UNKNOWN_ERROR")
     end.
Proof.
  intros stream run texts. split; [apply contents_filled|].
  subst run. unfold streamChat. fold stream. rewrite consume_spec. fold texts.
  destruct (failure stream) as [error|]; simpl; split; reflexivity.
Qed.

End ClientFacts.

(** ** The ChatServer class *)

Module ServerFacts.

Import JSString Guardrails JSMap ChatServer.

(** *** The map *)

Lemma eqb_other (a b : string) : a <> b -> String.eqb a b = false.
Proof. intros H. now apply String.eqb_neq. Qed.

Lemma Map_get_set_same {V} (m : Map V) k v : Map_get (Map_set m k v) k = Some v.
Proof.
  induction m as [|[k' v'] rest IH]; simpl.
  - now rewrite String.eqb_refl.
  - destruct (String.eqb k' k) eqn:E; simpl; rewrite E; [reflexivity|exact IH].
Qed.

Lemma Map_get_set_other {V} (m : Map V) k k' v :
  k' <> k -> Map_get (Map_set m k v) k' = Map_get m k'.
Proof.
  intros Hne. induction m as [|[k0 v0] rest IH]; simpl.
  - rewrite eqb_other by congruence. reflexivity.
  - destruct (String.eqb k0 k) eqn:E; simpl.
    + apply String.eqb_eq in E. subst k0. rewrite !eqb_other by congruence. reflexivity.
    + destruct (String.eqb k0 k'); [reflexivity|exact IH].
Qed.

(** *** The rate limiter *)

Lemma check_config srv s now : config (snd (_checkRateLimit srv s now)) = config srv.
Proof.
  unfold _checkRateLimit. cbv zeta.
  match goal with |- context [if ?c then (false, _) else _] => destruct c end; reflexivity.
Qed.

Lemma prepared_times srv s :
  match Map_get (if negb (Map_has (rateLimits srv) s)
                 then Map_set (rateLimits srv) s []
                 else rateLimits srv) s with
  | Some ts => ts
  | None => []
  end = timesOf srv s.
Proof.
  unfold timesOf, Map_has. destruct (Map_get (rateLimits srv) s) as [ts|] eqn:E; simpl.
  - now rewrite E.
  - now rewrite Map_get_set_same.
Qed.

Lemma prepared_other srv s other :
  other <> s ->
  Map_get (if negb (Map_has (rateLimits srv) s)
           then Map_set (rateLimits srv) s []
           else rateLimits srv) other
  = Map_get (rateLimits srv) other.
Proof.
  intros Hne. destruct (negb (Map_has (rateLimits srv) s)); [|reflexivity].
  now apply Map_get_set_other.
Qed.

Lemma geb_ltb a b : (a >=? b)%Z = negb (a <? b)%Z.
Proof. rewrite Z.geb_leb, Z.ltb_antisym. now rewrite Bool.negb_involutive. Qed.

(** One check: the answer, and what is stored for the session and for
    the others. *)
Lemma check_step srv s now :
  let ok := (Z.of_nat (List.length (recent now (timesOf srv s)))
             <? cfg_rateLimit (config srv))%Z in
  fst (_checkRateLimit srv s now) = ok
  /\ timesOf (snd (_checkRateLimit srv s now)) s
     = (if ok then recent now (timesOf srv s) ++ [now] else timesOf srv s)
  /\ (forall other, other <> s ->
        timesOf (snd (_checkRateLimit srv s now)) other = timesOf srv other).
Proof.
  intros ok. unfold _checkRateLimit. cbv zeta. rewrite prepared_times.
  fold (recent now (timesOf srv s)). rewrite geb_ltb. fold ok.
  destruct ok; cbn [negb fst snd].
  - split; [reflexivity|]. split.
    + unfold timesOf at 1. cbn [rateLimits setRateLimits]. now rewrite Map_get_set_same.
    + intros other Hne. unfold timesOf at 1. cbn [rateLimits setRateLimits].
      rewrite Map_get_set_other by assumption. now rewrite prepared_other.
  - split; [reflexivity|]. split.
    + unfold timesOf at 1. cbn [rateLimits setRateLimits]. apply prepared_times.
    + intros other Hne. unfold timesOf at 1. cbn [rateLimits setRateLimits].
      now rewrite prepared_other.
Qed.

Lemma recent_app now xs ys : recent now (xs ++ ys) = recent now xs ++ recent now ys.
Proof. unfold recent. apply List.filter_app. Qed.

Lemma recent_recent now later xs :
  (now <= later)%Z -> recent later (recent now xs) = recent later xs.
Proof.
  intros Hle. unfold recent. induction xs as [|t rest IH]; simpl; [reflexivity|].
  destruct (now - t <? 60000)%Z eqn:E1; simpl.
  - destruct (later - t <? 60000)%Z; [now rewrite IH|exact IH].
  - rewrite IH. destruct (later - t <? 60000)%Z eqn:E2; [|reflexivity].
    apply Z.ltb_lt in E2. apply Z.ltb_ge in E1. lia.
Qed.

Lemma ascending_later last last' calls :
  (last' <= last)%Z -> ascending last calls -> ascending last' calls.
Proof.
  destruct calls as [|[s now] rest]; simpl; [tauto|]. intros H (H1 & H2).
  split; [lia|exact H2].
Qed.

Lemma admitted_app s xs ys : admitted s (xs ++ ys) = admitted s xs ++ admitted s ys.
Proof. unfold admitted. apply List.flat_map_app. Qed.

(** The stored times stand for the admitted ones at every later time. *)
Lemma serve_tracks calls :
  forall srv s earlier last,
    (forall now, (last <= now)%Z -> recent now (timesOf srv s) = recent now earlier) ->
    ascending last calls ->
    forall before now ok after,
      fst (serve srv calls) = before ++ (s, now, ok) :: after ->
      ok = (Z.of_nat (List.length (recent now (earlier ++ admitted s before)))
            <? cfg_rateLimit (config srv))%Z.
Proof.
  induction calls as [|[s0 t0] rest IH]; intros srv s earlier last Htr Hasc before now ok after.
  - simpl. intros H. destruct before; discriminate.
  - cbn [serve]. destruct Hasc as (Hle & Hasc).
    destruct (check_step srv s0 t0) as (Hok & Hown & Hothers).
    pose proof (check_config srv s0 t0) as Hcfg.
    destruct (_checkRateLimit srv s0 t0) as [ok0 srv1]. cbn [fst snd] in Hok, Hown, Hothers, Hcfg.
    destruct (serve srv1 rest) as [answers srv2] eqn:Es. cbn [fst].
    destruct before as [|b before].
    + cbn [app]. intros H. injection H as -> -> -> _.
      rewrite app_nil_r. rewrite <- (Htr now Hle). exact Hok.
    + cbn [app]. intros H. injection H as <- Hrest.
      rewrite <- Hcfg.
      replace (earlier ++ admitted s ((s0, t0, ok0) :: before))
        with ((earlier ++ admitted s [(s0, t0, ok0)]) ++ admitted s before)
        by (rewrite <- app_assoc, <- admitted_app; reflexivity).
      apply (IH srv1 s (earlier ++ admitted s [(s0, t0, ok0)]) t0) with (after := after);
        try assumption.
      * intros later Hlater. rewrite recent_app, <- (Htr later) by lia.
        unfold admitted. cbn [flat_map]. rewrite app_nil_r.
        destruct (String.eqb s0 s) eqn:E.
        -- apply String.eqb_eq in E. subst s0. rewrite Hown, Hok.
           destruct (Z.of_nat (List.length (recent t0 (timesOf srv s)))
                     <? cfg_rateLimit (config srv))%Z; cbn [andb].
           ++ rewrite recent_app, recent_recent by assumption. reflexivity.
           ++ cbn [recent List.filter]. now rewrite app_nil_r.
        -- cbn [andb recent List.filter]. rewrite app_nil_r.
           rewrite Hothers; [reflexivity|]. intros ->. rewrite String.eqb_refl in E.
           discriminate.
      * rewrite Es. exact Hrest.
Qed.

(** X21. When the clock does not run backwards, [_checkRateLimit] admits
    a request exactly when fewer than [rateLimit] requests of the same
    session were admitted in the 60000 ms before it: the requests of other
    sessions and the denied requests do not count. *)
Theorem rate_limit_counts_admitted srv calls s last before now ok after :
  timesOf srv s = [] ->
  ascending last calls ->
  fst (serve srv calls) = before ++ (s, now, ok) :: after ->
  ok = (Z.of_nat (List.length (recent now (admitted s before)))
        <? cfg_rateLimit (config srv))%Z.
Proof.
  intros Hnone Hasc H.
  apply (serve_tracks calls srv s [] last) with (after := after); try assumption.
  intros t _. now rewrite Hnone.
Qed.

Lemma rate_limit_counts_admitted_witness :
  false = (Z.of_nat (List.length (recent 30 (admitted "a" [("a", 0%Z, true);
                                                           ("b", 10%Z, true);
                                                           ("a", 20%Z, true)])))
           <? 2)%Z.
Proof.
  apply (rate_limit_counts_admitted (fresh (mkServerConfig "prompt" 50 2))
           [("a", 0%Z); ("b", 10%Z); ("a", 20%Z); ("a", 30%Z); ("a", 60025%Z)]
           "a" 0%Z _ 30%Z false [("a", 60025%Z, true)]).
  - reflexivity.
  - simpl. lia.
  - reflexivity.
Defined.

Lemma check_frame srv s now :
  let srv' := snd (_checkRateLimit srv s now) in
  config srv' = config srv /\ objects srv' = objects srv /\ nextRef srv' = nextRef srv
  /\ conversations srv' = conversations srv /\ clientPrompt srv' = clientPrompt srv.
Proof.
  unfold _checkRateLimit. cbv zeta.
  match goal with |- context [if ?c then (false, _) else _] => destruct c end;
    repeat split.
Qed.

Lemma serve_frame calls :
  forall srv,
    let srv' := snd (serve srv calls) in
    config srv' = config srv /\ objects srv' = objects srv
    /\ conversations srv' = conversations srv.
Proof.
  induction calls as [|[s now] rest IH]; intros srv; cbn [serve].
  - repeat split.
  - destruct (check_frame srv s now) as (C & O & _ & V & _).
    destruct (_checkRateLimit srv s now) as [ok srv1]. cbn [snd] in C, O, V.
    specialize (IH srv1). destruct (serve srv1 rest) as [answers srv2].
    cbn [snd] in *. destruct IH as (C' & O' & V'). repeat split; congruence.
Qed.

(** X22. The rate limiter keeps at most [rateLimit] times for a session,
    whatever the clock does, and touches neither the conversations nor the
    configuration; with a [rateLimit] of 0 or less it admits nothing. *)
Theorem rate_limit_bookkeeping srv calls :
  (forall s, (Z.of_nat (List.length (timesOf srv s))
              <= Z.max 0 (cfg_rateLimit (config srv)))%Z) ->
  (forall s, (Z.of_nat (List.length (timesOf (snd (serve srv calls)) s))
              <= Z.max 0 (cfg_rateLimit (config srv)))%Z)
  /\ ((cfg_rateLimit (config srv) <= 0)%Z ->
      Forall (fun a => snd a = false) (fst (serve srv calls)))
  /\ config (snd (serve srv calls)) = config srv
  /\ objects (snd (serve srv calls)) = objects srv
  /\ conversations (snd (serve srv calls)) = conversations srv.
Proof.
  intros Hbound. split; [|split; [|apply serve_frame]].
  - revert srv Hbound. induction calls as [|[s0 now] rest IH]; intros srv Hbound s.
    + apply Hbound.
    + cbn [serve]. destruct (check_step srv s0 now) as (Hok & Hown & Hothers).
      pose proof (check_config srv s0 now) as Hcfg.
      destruct (_checkRateLimit srv s0 now) as [ok srv1]. cbn [fst snd] in *.
      specialize (IH srv1). destruct (serve srv1 rest) as [answers srv2]. cbn [snd] in *.
      rewrite <- Hcfg. apply IH. intros s'. rewrite Hcfg.
      destruct (String.eqb s0 s') eqn:E.
      * apply String.eqb_eq in E. subst s'. rewrite Hown.
        destruct (Z.of_nat (List.length (recent now (timesOf srv s0)))
                  <? cfg_rateLimit (config srv))%Z eqn:El.
        -- apply Z.ltb_lt in El. rewrite length_app. simpl. lia.
        -- apply Hbound.
      * rewrite Hothers; [apply Hbound|]. intros ->. rewrite String.eqb_refl in E.
        discriminate.
  - intros Hlimit. clear Hbound. revert srv Hlimit.
    induction calls as [|[s0 now] rest IH]; intros srv Hlimit; cbn [serve].
    + constructor.
    + destruct (check_step srv s0 now) as (Hok & _).
      pose proof (check_config srv s0 now) as Hcfg.
      destruct (_checkRateLimit srv s0 now) as [ok srv1]. cbn [fst snd] in *.
      specialize (IH srv1). destruct (serve srv1 rest) as [answers srv2]. cbn [fst] in *.
      constructor.
      * cbn [snd]. rewrite Hok. apply Z.ltb_ge. lia.
      * apply IH. now rewrite Hcfg.
Qed.

Lemma rate_limit_bookkeeping_witness :
  let srv := fresh (mkServerConfig "prompt" 50 2) in
  let calls := [("a", 0%Z); ("a", 5%Z); ("a", 3%Z); ("b", 1%Z)] in
  (forall s, (Z.of_nat (List.length (timesOf (snd (serve srv calls)) s)) <= Z.max 0 2)%Z)
  /\ ((2 <= 0)%Z -> Forall (fun a => snd a = false) (fst (serve srv calls)))
  /\ config (snd (serve srv calls)) = config srv
  /\ objects (snd (serve srv calls)) = objects srv
  /\ conversations (snd (serve srv calls)) = conversations srv.
Proof.
  intros srv calls. apply (rate_limit_bookkeeping srv calls).
  intros s. simpl. lia.
Defined.

(** *** The messages of a request *)

Lemma Array_slice_split {A} (start : Z) (xs : list A) :
  exists k,
    Array_slice start xs = skipn k xs
    /\ k <= List.length xs
    /\ ((start < 0)%Z -> List.length xs - k = Nat.min (Z.to_nat (- start)) (List.length xs))
    /\ (start = 0%Z -> k = 0)
    /\ ((0 < start)%Z -> k = Nat.min (Z.to_nat start) (List.length xs)).
Proof.
  unfold Array_slice. cbv zeta.
  destruct (start <? 0)%Z eqn:E.
  - apply Z.ltb_lt in E.
    exists (Z.to_nat (Z.max (Z.of_nat (List.length xs) + start) 0)).
    split; [reflexivity|]. repeat split; lia.
  - apply Z.ltb_ge in E.
    exists (Z.to_nat (Z.min start (Z.of_nat (List.length xs)))).
    split; [reflexivity|]. repeat split; lia.
Qed.

(** X23. The chat handlers send the system prompt of the conversation
    followed by the end of its history, each message reduced to role and
    content: the last [maxConversationHistory] messages when that number is
    positive, but the whole history when it is 0, and all but the first
    ones when it is negative. *)
Theorem history_window srv conversation :
  let n := cfg_maxConversationHistory (config srv) in
  let history := messages conversation in
  exists dropped kept,
    history = dropped ++ kept
    /\ apiMessages srv conversation
       = ChatClient.mkEntry "system" (systemPrompt conversation) None
         :: map (fun m => ChatClient.entryOf (ChatClient.strip m)) kept
    /\ ((0 < n)%Z -> List.length kept = Nat.min (Z.to_nat n) (List.length history))
    /\ (n = 0%Z -> kept = history)
    /\ ((n < 0)%Z -> List.length dropped = Nat.min (Z.to_nat (- n)) (List.length history)).
Proof.
  intros n history.
  destruct (Array_slice_split (- n) history) as (k & E & Hk & Hneg & Hzero & Hpos).
  exists (firstn k history), (skipn k history).
  split; [symmetry; apply firstn_skipn|]. split; [|split; [|split]].
  - unfold apiMessages. fold n history. rewrite E. reflexivity.
  - intros Hn. rewrite length_skipn. rewrite Hneg by lia.
    replace (- - n)%Z with n by lia. reflexivity.
  - intros Hn. rewrite Hzero by lia. reflexivity.
  - intros Hn. rewrite length_firstn. rewrite Hpos by lia. lia.
Qed.

(** *** The chat route *)

Lemma filled_string (text : string) :
  text <> "" -> orString (Some text) "" = text /\ isEmpty text = false.
Proof. destruct text; [contradiction|]. intros _. split; reflexivity. Qed.

Lemma Array_slice_all {A} (n : Z) (xs : list A) :
  (n = 0 \/ Z.of_nat (List.length xs) <= n)%Z -> Array_slice (- n) xs = xs.
Proof.
  intros H. unfold Array_slice. cbv zeta.
  destruct (- n <? 0)%Z eqn:E.
  - apply Z.ltb_lt in E.
    replace (Z.to_nat (Z.max (Z.of_nat (List.length xs) + - n) 0)) with 0 by lia.
    reflexivity.
  - apply Z.ltb_ge in E.
    replace (Z.to_nat (Z.min (- n) (Z.of_nat (List.length xs)))) with 0 by lia.
    reflexivity.
Qed.

Lemma pushMessage_frame r role content date srv :
  let srv' := pushMessage r role content date srv in
  config srv' = config srv /\ nextRef srv' = nextRef srv
  /\ conversations srv' = conversations srv /\ rateLimits srv' = rateLimits srv
  /\ clientPrompt srv' = clientPrompt srv
  /\ objects srv' r
     = mkConversation (id (objects srv r))
         (messages (objects srv r) ++ [ChatClient.mkEntry role content (Some date)])
         (systemPrompt (objects srv r)) (createdAt (objects srv r))
         (updatedAt (objects srv r))
  /\ (forall other, other <> r -> objects srv' other = objects srv other).
Proof.
  unfold pushMessage. cbn [config nextRef conversations rateLimits clientPrompt objects
                           setObjects].
  repeat split.
  - apply fn_lookup_insert.
  - intros other Hne. apply fn_lookup_insert_ne. congruence.
Qed.

(** X24. A chat request that names no conversation the server knows (no
    id, an empty one, or an unknown one) always starts a new conversation
    under a fresh id, not under the id that was sent; as the rate limit is
    counted by conversation, such a request is admitted whenever
    [rateLimit] is positive, however many came before. *)
Theorem chat_without_conversation_is_admitted srv text conversationId uuid now date :
  text <> "" ->
  known srv conversationId = None ->
  timesOf srv uuid = [] ->
  (0 < cfg_rateLimit (config srv))%Z ->
  (0 <= cfg_maxConversationHistory (config srv))%Z ->
  let begin := chatBegin srv (Some text) conversationId uuid now date in
  let prompt := cfg_systemPrompt (config srv) in
  snd begin
  = Ask uuid (nextRef srv)
        [ChatClient.mkEntry "system" prompt None; ChatClient.mkEntry "user" text None]
  /\ find (fst begin) uuid
     = Some (mkConversation uuid [ChatClient.mkEntry "user" text (Some (date 2))]
                            prompt (date 0) (date 1))
  /\ timesOf (fst begin) uuid = [now].
Proof.
  intros Htext Hknown Htimes Hlimit Hhist begin prompt. subst begin.
  destruct (filled_string text Htext) as (Ht & He).
  unfold chatBegin. rewrite Ht, He, Hknown. unfold newConversation. cbv beta iota zeta.
  match goal with
  | |- context [_checkRateLimit ?s uuid now] => set (srv1 := s)
  end.
  destruct (check_step srv1 uuid now) as (Hok & Hown & _).
  destruct (check_frame srv1 uuid now) as (Hc & Ho & Hn & Hv & _).
  assert (timesOf srv1 uuid = []) as Ht1 by exact Htimes.
  rewrite Ht1 in Hok, Hown. cbn [recent List.filter List.length] in Hok, Hown.
  assert ((Z.of_nat 0 <? cfg_rateLimit (config srv1))%Z = true) as Hlt.
  { apply Z.ltb_lt. exact Hlimit. }
  rewrite Hlt in Hok, Hown.
  destruct (_checkRateLimit srv1 uuid now) as [ok srv2]. cbn [fst snd] in *. subst ok.
  cbn [negb fst snd].
  destruct (pushMessage_frame (nextRef srv) "user" text (date 2) srv2)
    as (Pc & Pn & Pv & Pr & _ & Po & _).
  assert (objects srv2 (nextRef srv) = mkConversation uuid [] prompt (date 0) (date 1)) as Hobj.
  { rewrite Ho. subst srv1. cbn [objects]. apply fn_lookup_insert. }
  rewrite Hobj in Po. cbn [id messages systemPrompt createdAt updatedAt app] in Po.
  split; [|split].
  - f_equal. unfold apiMessages. rewrite Po, Pc, Hc.
    cbn [messages systemPrompt config].
    rewrite Array_slice_all; [reflexivity|]. simpl. lia.
  - unfold find. rewrite Pv, Hv. subst srv1. cbn [conversations].
    rewrite Map_get_set_same. cbn [option_map]. now rewrite Po.
  - unfold timesOf. rewrite Pr. exact Hown.
Qed.

Lemma chat_without_conversation_is_admitted_witness :
  let srv := fresh (mkServerConfig "prompt" 50 1) in
  let begin := chatBegin srv (Some "hi") (Some "lost") "u1" 7 (fun _ => "today") in
  snd begin
  = Ask "u1" 0 [ChatClient.mkEntry "system" "prompt" None;
                ChatClient.mkEntry "user" "hi" None]
  /\ find (fst begin) "u1"
     = Some (mkConversation "u1" [ChatClient.mkEntry "user" "hi" (Some "today")]
                            "prompt" "today" "today")
  /\ timesOf (fst begin) "u1" = [7%Z].
Proof.
  intros srv.
  apply (chat_without_conversation_is_admitted srv "hi" (Some "lost") "u1" 7
           (fun _ => "today")).
  - discriminate.
  - reflexivity.
  - reflexivity.
  - reflexivity.
  - discriminate.
Defined.

Lemma touch_frame r date srv :
  let srv' := touch r date srv in
  config srv' = config srv /\ nextRef srv' = nextRef srv
  /\ conversations srv' = conversations srv /\ rateLimits srv' = rateLimits srv
  /\ clientPrompt srv' = clientPrompt srv
  /\ objects srv' r
     = mkConversation (id (objects srv r)) (messages (objects srv r))
         (systemPrompt (objects srv r)) (createdAt (objects srv r)) date
  /\ (forall other, other <> r -> objects srv' other = objects srv other).
Proof.
  unfold touch. cbn [config nextRef conversations rateLimits clientPrompt objects
                     setObjects].
  repeat split.
  - apply fn_lookup_insert.
  - intros other Hne. apply fn_lookup_insert_ne. congruence.
Qed.

Lemma known_id srv convId r :
  convId <> "" -> Map_get (conversations srv) convId = Some r ->
  known srv (Some convId) = Some (convId, r).
Proof.
  intros Hne Hget. unfold known. destruct convId; [contradiction|].
  cbn [isEmpty]. now rewrite Hget.
Qed.

Lemma chatEnd_messages srv convId r stream content date :
  let srv' := fst (chatEnd srv convId r stream (Succeeded content) date) in
  messages (objects srv' r)
  = messages (objects srv r) ++ [ChatClient.mkEntry "assistant" content (Some (date 0))]
  /\ updatedAt (objects srv' r) = date 1
  /\ conversations srv' = conversations srv
  /\ nextRef srv' = nextRef srv.
Proof.
  cbn [chatEnd fst].
  destruct (touch_frame r (date 1) (pushMessage r "assistant" content (date 0) srv))
    as (_ & Tn & Tv & _ & _ & To & _).
  destruct (pushMessage_frame r "assistant" content (date 0) srv)
    as (_ & Pn & Pv & _ & _ & Po & _).
  rewrite To, Po. cbn [messages updatedAt]. repeat split; congruence.
Qed.

(** X25. A chat request for a known conversation that the rate limiter
    admits adds the question to the history of that conversation and to no
    other, and asks the API with the messages of the conversation. When
    the answer arrives it is added after the question and [updatedAt] is
    set; when the request fails the server is left as it was, so the
    question stays in the history without an answer. *)
Theorem chat_round_trip srv text convId r uuid now date :
  text <> "" ->
  convId <> "" ->
  Map_get (conversations srv) convId = Some r ->
  fst (_checkRateLimit srv convId now) = true ->
  let begin := chatBegin srv (Some text) (Some convId) uuid now date in
  let srv1 := fst begin in
  let old := messages (objects srv r) in
  let question := ChatClient.mkEntry "user" text (Some (date 0)) in
  snd begin = Ask convId r (apiMessages srv1 (objects srv1 r))
  /\ messages (objects srv1 r) = old ++ [question]
  /\ (forall other, other <> r -> objects srv1 other = objects srv other)
  /\ (forall stream content date2,
        let srv2 := fst (chatEnd srv1 convId r stream (Succeeded content) date2) in
        messages (objects srv2 r)
        = old ++ [question; ChatClient.mkEntry "assistant" content (Some (date2 0))]
        /\ updatedAt (objects srv2 r) = date2 1)
  /\ (forall stream error date2,
        fst (chatEnd srv1 convId r stream (Failed error) date2) = srv1).
Proof.
  intros Htext Hid Hget Hok begin srv1 old question.
  destruct (filled_string text Htext) as (Ht & He).
  assert (begin
          = (pushMessage r "user" text (date 0) (snd (_checkRateLimit srv convId now)),
             Ask convId r
               (apiMessages
                  (pushMessage r "user" text (date 0) (snd (_checkRateLimit srv convId now)))
                  (objects (pushMessage r "user" text (date 0)
                              (snd (_checkRateLimit srv convId now))) r)))) as Eb.
  { subst begin. unfold chatBegin. rewrite Ht, He, (known_id srv convId r Hid Hget).
    cbv beta iota zeta. destruct (_checkRateLimit srv convId now) as [ok srv'].
    cbn [fst snd] in *. subst ok. reflexivity. }
  destruct (check_frame srv convId now) as (_ & Ho & _).
  destruct (pushMessage_frame r "user" text (date 0) (snd (_checkRateLimit srv convId now)))
    as (_ & _ & _ & _ & _ & Po & Pother).
  assert (messages (objects srv1 r) = old ++ [question]) as Hm.
  { subst srv1. rewrite Eb. cbn [fst]. rewrite Po. cbn [messages]. now rewrite Ho. }
  split; [|split; [|split; [|split]]].
  - subst srv1. rewrite Eb. reflexivity.
  - exact Hm.
  - intros other Hne. subst srv1. rewrite Eb. cbn [fst]. rewrite Pother by assumption.
    now rewrite Ho.
  - intros stream content date2 srv2.
    destruct (chatEnd_messages srv1 convId r stream content date2) as (Em & Eu & _).
    fold srv2 in Em, Eu. split; [|exact Eu].
    rewrite Em, Hm, <- app_assoc. reflexivity.
  - reflexivity.
Qed.

Lemma chat_round_trip_witness :
  let srv := fst (postConversation (fresh (mkServerConfig "prompt" 50 1)) None "c1"
                    (fun _ => "monday")) in
  let begin := chatBegin srv (Some "hi") (Some "c1") "u2" 7 (fun _ => "tuesday") in
  let srv1 := fst begin in
  let question := ChatClient.mkEntry "user" "hi" (Some "tuesday") in
  snd begin = Ask "c1" 0 (apiMessages srv1 (objects srv1 0))
  /\ messages (objects srv1 0) = [] ++ [question]
  /\ (forall other, other <> 0 -> objects srv1 other = objects srv other)
  /\ (forall stream content date2,
        let srv2 := fst (chatEnd srv1 "c1" 0 stream (Succeeded content) date2) in
        messages (objects srv2 0)
        = [] ++ [question; ChatClient.mkEntry "assistant" content (Some (date2 0))]
        /\ updatedAt (objects srv2 0) = date2 1)
  /\ (forall stream error date2,
        fst (chatEnd srv1 "c1" 0 stream (Failed error) date2) = srv1).
Proof.
  intros srv.
  apply (chat_round_trip srv "hi" "c1" 0 "u2" 7 (fun _ => "tuesday")).
  - discriminate.
  - discriminate.
  - reflexivity.
  - reflexivity.
Defined.

(** *** The store of conversations *)

Lemma Map_get_member {V} (m : Map V) k v : Map_get m k = Some v -> In v (Map_values m).
Proof.
  induction m as [|[k' v'] rest IH]; simpl; [discriminate|].
  destruct (String.eqb k' k); [intros H; injection H as ->; now left|].
  intros H. right. now apply IH.
Qed.

Lemma Map_get_absent {V} (m : Map V) k : ~ In k (Map_keys m) -> Map_get m k = None.
Proof.
  induction m as [|[k' v'] rest IH]; simpl; [reflexivity|]. intros H.
  rewrite eqb_other by tauto. apply IH. tauto.
Qed.

Lemma Map_set_members {V} (m : Map V) k v :
  (forall k', In k' (Map_keys (Map_set m k v)) <-> k' = k \/ In k' (Map_keys m))
  /\ (forall v', In v' (Map_values (Map_set m k v)) -> v' = v \/ In v' (Map_values m)).
Proof.
  induction m as [|[k0 v0] rest (IHk & IHv)]; simpl.
  - split; [intros k'; intuition congruence|intros v'; intuition congruence].
  - destruct (String.eqb k0 k) eqn:E; simpl.
    + apply String.eqb_eq in E. subst k0. split.
      * intros k'. intuition congruence.
      * intros v'. intuition congruence.
    + split.
      * intros k'. rewrite IHk. tauto.
      * intros v' [H|H]; [tauto|]. apply IHv in H. tauto.
Qed.

Lemma Map_set_NoDup {V} (m : Map V) k v :
  List.NoDup (Map_keys m) -> List.NoDup (Map_keys (Map_set m k v)).
Proof.
  induction m as [|[k0 v0] rest IH]; simpl; intros H.
  - constructor; [intros []|constructor].
  - inversion H as [|? ? Hn Hr]; subst. destruct (String.eqb k0 k) eqn:E; simpl.
    + constructor; assumption.
    + constructor; [|now apply IH]. intros Hin.
      apply (proj1 (Map_set_members rest k v)) in Hin. destruct Hin as [->|Hin].
      * rewrite String.eqb_refl in E. discriminate.
      * contradiction.
Qed.

Lemma Map_delete_spec {V} (m : Map V) k :
  fst (Map_delete m k) = Map_has m k
  /\ (forall k', k' <> k -> Map_get (snd (Map_delete m k)) k' = Map_get m k')
  /\ (forall k', In k' (Map_keys (snd (Map_delete m k))) -> In k' (Map_keys m))
  /\ (forall v, In v (Map_values (snd (Map_delete m k))) -> In v (Map_values m))
  /\ (List.NoDup (Map_keys m) ->
      List.NoDup (Map_keys (snd (Map_delete m k)))
      /\ Map_get (snd (Map_delete m k)) k = None).
Proof.
  unfold Map_has. induction m as [|[k0 v0] rest IH]; simpl.
  - split; [reflexivity|]. split; [reflexivity|]. split; [auto|]. split; [auto|].
    intros _. split; [constructor|reflexivity].
  - destruct IH as (Hf & Hg & Hk & Hv & Hn).
    destruct (String.eqb k0 k) eqn:E; simpl.
    + apply String.eqb_eq in E. subst k0. split; [reflexivity|]. split; [|split; [|split]].
      * intros k' Hne. rewrite eqb_other by congruence. reflexivity.
      * auto.
      * auto.
      * intros H. inversion H as [|? ? Hnot Hrest]; subst. split; [exact Hrest|].
        now apply Map_get_absent.
    + destruct (Map_delete rest k) as [found rest'] eqn:Ed. cbn [fst snd] in *.
      split; [exact Hf|]. split; [|split; [|split]].
      * intros k' Hne. simpl. destruct (String.eqb k0 k'); [reflexivity|now apply Hg].
      * simpl. intros k' [H|H]; auto.
      * simpl. intros v [H|H]; auto.
      * intros H. inversion H as [|? ? Hnot Hrest]; subst.
        destruct (Hn Hrest) as (Hn1 & Hn2). split.
        -- simpl. constructor; [|exact Hn1]. intros Hin. apply Hnot, Hk, Hin.
        -- simpl. rewrite E. exact Hn2.
Qed.

Lemma wellKept_objects srv objs :
  wellKept srv -> wellKept (setObjects objs srv).
Proof. intros H. exact H. Qed.

Lemma wellKept_limits srv limits :
  wellKept srv -> wellKept (setRateLimits limits srv).
Proof. intros H. exact H. Qed.

Lemma wellKept_new srv convId prompt created updated :
  wellKept srv -> wellKept (fst (newConversation srv convId prompt created updated)).
Proof.
  intros (Hn & Hr). unfold wellKept, newConversation. cbn [fst conversations nextRef].
  split; [now apply Map_set_NoDup|].
  apply List.Forall_forall. intros r Hin.
  apply (proj2 (Map_set_members _ _ _)) in Hin. destruct Hin as [->|Hin]; [lia|].
  rewrite List.Forall_forall in Hr. specialize (Hr r Hin). lia.
Qed.

Lemma wellKept_check srv s now : wellKept srv -> wellKept (snd (_checkRateLimit srv s now)).
Proof.
  intros H. unfold _checkRateLimit. cbv zeta.
  match goal with |- context [if ?c then (false, _) else _] => destruct c end; exact H.
Qed.

Lemma find_new srv convId prompt created updated :
  wellKept srv ->
  let srv' := fst (newConversation srv convId prompt created updated) in
  find srv' convId = Some (mkConversation convId [] prompt created updated)
  /\ (forall other, other <> convId -> find srv' other = find srv other).
Proof.
  intros (_ & Hr) srv'. subst srv'. unfold find, newConversation.
  cbn [fst conversations objects]. split.
  - rewrite Map_get_set_same. cbn [option_map]. now rewrite fn_lookup_insert.
  - intros other Hne. rewrite Map_get_set_other by assumption.
    destruct (Map_get (conversations srv) other) as [r|] eqn:E; [|reflexivity].
    cbn [option_map]. rewrite fn_lookup_insert_ne; [reflexivity|].
    apply Map_get_member in E. rewrite List.Forall_forall in Hr. specialize (Hr r E). lia.
Qed.

(** X26. The map of conversations names every id once and only objects
    that exist, and every handler keeps it so. After POST /conversation
    the new id is found with an empty history and the prompt of the request
    (the configured one when the request has none or an empty one); after
    DELETE, which reports whether the id was known, the id is no longer
    found. Neither changes what is found under another id, and DELETE
    leaves the rate-limit record of the conversation in place. *)
Theorem conversation_store srv :
  wellKept srv ->
  (forall bodyPrompt uuid date,
     let srv' := fst (postConversation srv bodyPrompt uuid date) in
     wellKept srv'
     /\ snd (postConversation srv bodyPrompt uuid date) = Created uuid
     /\ getConversation srv' uuid
        = Found (mkConversation uuid []
                   (orString bodyPrompt (cfg_systemPrompt (config srv))) (date 0) (date 1))
     /\ (forall other, other <> uuid ->
           getConversation srv' other = getConversation srv other))
  /\ (forall convId,
        let srv' := fst (deleteConversation srv convId) in
        wellKept srv'
        /\ snd (deleteConversation srv convId)
           = Deleted (Map_has (conversations srv) convId)
        /\ getConversation srv' convId = NotFound
        /\ (forall other, other <> convId ->
              getConversation srv' other = getConversation srv other)
        /\ rateLimits srv' = rateLimits srv)
  /\ (forall message conversationId uuid now date,
        wellKept (fst (chatBegin srv message conversationId uuid now date)))
  /\ (forall convId r stream result date,
        wellKept (fst (chatEnd srv convId r stream result date)))
  /\ (forall s prompt, wellKept (_handleWebSocketConfigure srv s prompt))
  /\ (forall s date, wellKept (_handleWebSocketClear srv s date)).
Proof.
  intros Hw. split; [|split; [|split; [|split; [|split]]]].
  - intros bodyPrompt uuid date srv'. subst srv'. unfold postConversation.
    pose proof (wellKept_new srv uuid (orString bodyPrompt (cfg_systemPrompt (config srv)))
                  (date 0) (date 1) Hw) as Hnew.
    destruct (find_new srv uuid (orString bodyPrompt (cfg_systemPrompt (config srv)))
                (date 0) (date 1) Hw) as (Hf & Ho).
    destruct (newConversation srv uuid _ (date 0) (date 1)) as [srv' r].
    cbn [fst snd] in *. split; [exact Hnew|]. split; [reflexivity|].
    unfold getConversation. split; [now rewrite Hf|].
    intros other Hne. now rewrite Ho.
  - intros convId srv'. subst srv'. unfold deleteConversation.
    destruct (Map_delete_spec (conversations srv) convId) as (Hf & Hg & Hk & Hv & Hn).
    destruct Hw as (Hw1 & Hw2). destruct (Hn Hw1) as (Hn1 & Hn2).
    destruct (Map_delete (conversations srv) convId) as [deleted convs].
    cbn [fst snd] in *. split; [|split; [|split; [|split]]].
    + split; [exact Hn1|]. cbn [conversations setConversations nextRef].
      apply List.Forall_forall. intros r Hin. rewrite List.Forall_forall in Hw2. apply Hw2, Hv, Hin.
    + now rewrite Hf.
    + unfold getConversation, find. cbn [conversations setConversations]. now rewrite Hn2.
    + intros other Hne. unfold getConversation, find.
      cbn [conversations setConversations objects]. now rewrite Hg.
    + reflexivity.
  - intros message conversationId uuid now date. unfold chatBegin.
    destruct (isEmpty (orString message "")); [exact Hw|].
    destruct (known srv conversationId) as [[convId r]|].
    + cbv beta iota zeta. pose proof (wellKept_check srv convId now Hw) as Hc.
      destruct (_checkRateLimit srv convId now) as [ok srv2]. cbn [snd] in Hc.
      destruct ok; cbn [negb fst]; exact Hc.
    + pose proof (wellKept_new srv uuid (cfg_systemPrompt (config srv)) (date 0) (date 1) Hw)
        as Hnew.
      destruct (newConversation srv uuid (cfg_systemPrompt (config srv)) (date 0) (date 1))
        as [srv' r]. cbn [fst] in Hnew. cbv beta iota zeta.
      pose proof (wellKept_check srv' uuid now Hnew) as Hc.
      destruct (_checkRateLimit srv' uuid now) as [ok srv2]. cbn [snd] in Hc.
      destruct ok; cbn [negb fst]; exact Hc.
  - intros convId r stream [content|error] date; exact Hw.
  - intros s prompt. unfold _handleWebSocketConfigure.
    destruct (Map_get (conversations srv) s); [|exact Hw].
    destruct (isEmpty (orString prompt "")); exact Hw.
  - intros s date. unfold _handleWebSocketClear.
    destruct (Map_get (conversations srv) s); exact Hw.
Qed.

Lemma conversation_store_witness :
  let srv := fresh defaultConfig in
  (forall bodyPrompt uuid date,
     let srv' := fst (postConversation srv bodyPrompt uuid date) in
     wellKept srv'
     /\ snd (postConversation srv bodyPrompt uuid date) = Created uuid
     /\ getConversation srv' uuid
        = Found (mkConversation uuid []
                   (orString bodyPrompt (cfg_systemPrompt (config srv))) (date 0) (date 1))
     /\ (forall other, other <> uuid ->
           getConversation srv' other = getConversation srv other))
  /\ (forall convId,
        let srv' := fst (deleteConversation srv convId) in
        wellKept srv'
        /\ snd (deleteConversation srv convId)
           = Deleted (Map_has (conversations srv) convId)
        /\ getConversation srv' convId = NotFound
        /\ (forall other, other <> convId ->
              getConversation srv' other = getConversation srv other)
        /\ rateLimits srv' = rateLimits srv)
  /\ (forall message conversationId uuid now date,
        wellKept (fst (chatBegin srv message conversationId uuid now date)))
  /\ (forall convId r stream result date,
        wellKept (fst (chatEnd srv convId r stream result date)))
  /\ (forall s prompt, wellKept (_handleWebSocketConfigure srv s prompt))
  /\ (forall s date, wellKept (_handleWebSocketClear srv s date)).
Proof.
  intros srv. apply (conversation_store srv).
  split; constructor.
Defined.

Lemma conversation_store_delete srv convId :
  wellKept srv ->
  let gone := fst (deleteConversation srv convId) in
  find gone convId = None /\ objects gone = objects srv.
Proof.
  intros (Hw1 & _) gone. subst gone. unfold deleteConversation.
  destruct (Map_delete_spec (conversations srv) convId) as (_ & _ & _ & _ & Hn).
  destruct (Hn Hw1) as (_ & Hn2).
  destruct (Map_delete (conversations srv) convId) as [deleted convs].
  cbn [fst snd] in *. unfold find. cbn [conversations setConversations objects].
  rewrite Hn2. split; reflexivity.
Qed.

(** X27. An answer that arrives late is written to the conversation
    object that the request started with. After a 'clear' in between the
    history holds the answer alone, without its question; after a DELETE in
    between the answer goes to the forgotten object and the id stays
    unknown. *)
Theorem late_answers srv convId r stream content date :
  wellKept srv ->
  Map_get (conversations srv) convId = Some r ->
  let answer := ChatClient.mkEntry "assistant" content (Some (date 0)) in
  (forall d,
     messages (objects (fst (chatEnd (_handleWebSocketClear srv convId d) convId r stream
                                     (Succeeded content) date)) r)
     = [answer])
  /\ (let gone := fst (deleteConversation srv convId) in
      let srv' := fst (chatEnd gone convId r stream (Succeeded content) date) in
      getConversation srv' convId = NotFound
      /\ conversations srv' = conversations gone
      /\ messages (objects srv' r) = messages (objects srv r) ++ [answer]).
Proof.
  intros Hw Hget answer. split.
  - intros d.
    destruct (chatEnd_messages (_handleWebSocketClear srv convId d) convId r stream
                content date) as (Em & _).
    rewrite Em. unfold _handleWebSocketClear. rewrite Hget.
    cbn [objects setObjects]. rewrite fn_lookup_insert. reflexivity.
  - intros gone srv'.
    destruct (chatEnd_messages gone convId r stream content date) as (Em & _ & Ev & _).
    fold srv' in Em, Ev.
    destruct (conversation_store_delete srv convId Hw) as (Hnot & Hobj).
    fold gone in Hnot, Hobj. split; [|split].
    + unfold getConversation, find in *. rewrite Ev.
      destruct (Map_get (conversations gone) convId); [discriminate|reflexivity].
    + exact Ev.
    + rewrite Em, Hobj. reflexivity.
Qed.

Lemma late_answers_witness :
  let srv := fst (postConversation (fresh defaultConfig) None "c1" (fun _ => "monday")) in
  let answer := ChatClient.mkEntry "assistant" "hello" (Some "friday") in
  (forall d,
     messages (objects (fst (chatEnd (_handleWebSocketClear srv "c1" d) "c1" 0 false
                                     (Succeeded "hello") (fun _ => "friday"))) 0)
     = [answer])
  /\ (let gone := fst (deleteConversation srv "c1") in
      let srv' := fst (chatEnd gone "c1" 0 false (Succeeded "hello") (fun _ => "friday")) in
      getConversation srv' "c1" = NotFound
      /\ conversations srv' = conversations gone
      /\ messages (objects srv' 0) = messages (objects srv 0) ++ [answer]).
Proof.
  intros srv.
  apply (late_answers srv "c1" 0 false "hello" (fun _ => "friday")).
  - split; repeat constructor. simpl. tauto.
  - reflexivity.
Defined.

(** X28. The chat routes send the system prompt of the conversation as
    the first message, so [_formatMessages] adds nothing: the system prompt
    of the chat client, which POST /chat/simple replaces for the time of
    its request, never reaches a request of a conversation. *)
Theorem chat_requests_carry_their_prompt srv conversation c :
  ChatClient._formatMessages c (apiMessages srv conversation)
  = map ChatClient.strip (apiMessages srv conversation)
  /\ hd_error (ChatClient._formatMessages c (apiMessages srv conversation))
     = Some (ChatClient.mkApiMessage "system" (systemPrompt conversation))
  /\ forall c2,
       ChatClient._formatMessages c2 (apiMessages srv conversation)
       = ChatClient._formatMessages c (apiMessages srv conversation).
Proof.
  assert (forall k, ChatClient._formatMessages k (apiMessages srv conversation)
                    = map ChatClient.strip (apiMessages srv conversation)) as E.
  { intros k. rewrite ClientFacts.formatMessages_closed. reflexivity. }
  split; [apply E|]. split; [rewrite E; reflexivity|].
  intros c2. now rewrite !E.
Qed.

(** X29. POST /chat/simple asks with the prompt of its request, or with
    the prompt that the chat client has at that moment when the request
    names none; when the answer is there it sets the prompt of the client
    to the configured one, whatever it was before. It touches neither the
    conversations nor the rate limiter. *)
Theorem simple_chat_prompt srv text bodyPrompt c result :
  text <> "" ->
  ChatClient.systemPrompt c = clientPrompt (fst (simpleBegin srv (Some text) bodyPrompt)) ->
  let begin := simpleBegin srv (Some text) bodyPrompt in
  let done := fst (simpleEnd (fst begin) result) in
  (exists sent,
     snd begin = Some sent
     /\ ChatClient._formatMessages c sent
        = [ChatClient.mkApiMessage "system" (orString bodyPrompt (clientPrompt srv));
           ChatClient.mkApiMessage "user" text])
  /\ clientPrompt done = cfg_systemPrompt (config srv)
  /\ conversations done = conversations srv
  /\ objects done = objects srv
  /\ rateLimits done = rateLimits srv.
Proof.
  intros Htext Hc begin done. subst done begin.
  destruct (filled_string text Htext) as (Ht & He).
  unfold simpleBegin in *. rewrite Ht, He in *.
  assert (clientPrompt (if isEmpty (orString bodyPrompt "") then srv
                        else setClientPrompt (orString bodyPrompt "") srv)
          = orString bodyPrompt (clientPrompt srv)) as Hp.
  { destruct bodyPrompt as [[|x p]|]; reflexivity. }
  cbn [fst snd] in *. rewrite Hp in Hc. split; [|split; [|split; [|split]]].
  - eexists. split; [reflexivity|]. unfold ChatClient._formatMessages. simpl.
    now rewrite Hc.
  - destruct (isEmpty (orString bodyPrompt "")); reflexivity.
  - destruct (isEmpty (orString bodyPrompt "")); reflexivity.
  - destruct (isEmpty (orString bodyPrompt "")); reflexivity.
  - destruct (isEmpty (orString bodyPrompt "")); reflexivity.
Qed.

Lemma simple_chat_prompt_witness :
  let srv := setClientPrompt "Be brief." (fresh defaultConfig) in
  let c := ChatClient.mkClient "key" "m" None 1 "Be brief." in
  let begin := simpleBegin srv (Some "hi") (Some "") in
  let done := fst (simpleEnd (fst begin) (Succeeded "hello")) in
  (exists sent,
     snd begin = Some sent
     /\ ChatClient._formatMessages c sent
        = [ChatClient.mkApiMessage "system" "Be brief.";
           ChatClient.mkApiMessage "user" "hi"])
  /\ clientPrompt done = "You are a helpful assistant."
  /\ conversations done = conversations srv
  /\ objects done = objects srv
  /\ rateLimits done = rateLimits srv.
Proof.
  intros srv c.
  apply (simple_chat_prompt srv "hi" (Some "") c (Succeeded "hello")).
  - discriminate.
  - reflexivity.
Defined.

End ServerFacts.

(** ** The Guardrails settings of the configuration file *)

Module SettingsFacts.

Import Host Guardrails Settings.

(** X30. Options that only spell out defaults make no difference: the
    constructor builds the same engine, in the same state, as without
    options. The settings [defaultConfig.guardrails] of [config.js] are
    such options. *)
Theorem spelled_out_defaults_change_nothing o (st : St) :
  spellsDefaults o ->
  constructor o st = constructor noOptions st.
Proof.
  unfold spellsDefaults, unsetOr.
  intros (H1 & H2 & H3 & H4 & H5 & H6 & H7 & H8 & H9 & H10 & H11 & H12 & H13).
  unfold constructor. rewrite H12, H13.
  destruct H1 as [-> | ->], H2 as [-> | ->], H3 as [-> | ->], H4 as [-> | ->],
           H5 as [-> | ->], H6 as [-> | ->], H7 as [-> | ->], H8 as [-> | ->],
           H9 as [-> | ->], H10 as [-> | ->], H11 as [-> | ->]; reflexivity.
Qed.

Lemma spelled_out_defaults_change_nothing_witness :
  constructor guardrailsSettings Examples.initial
  = constructor noOptions Examples.initial.
Proof.
  apply (spelled_out_defaults_change_nothing guardrailsSettings Examples.initial).
  unfold spellsDefaults, unsetOr, guardrailsSettings. simpl.
  repeat split; try (right; reflexivity).
Defined.

End SettingsFacts.
